(** * docrawl: the concurrent crawl engine of internal/crawler/crawler.go

    A shallow embedding of [Crawler], [New], [Crawl], [crawlPage],
    [normalizeURL] and [resolveURL]. Every call of [crawlPage] is a task
    of an interleaving semantics: a transition is one step of one
    goroutine, and the theorems hold for every schedule. *)

From Stdlib Require Import ZArith QArith Ascii String List Lia.
From stdpp Require Import base option list gmap strings.

Local Open Scope string_scope.
Local Open Scope Z_scope.

(** ** Go's [strings] package, as far as the crawler uses it *)

(** [strings.Index(s, substr)]: the byte index of the first occurrence of
    [substr] in [s], or -1. *)
Definition strings_Index (s substr : string) : Z :=
  match String.index 0 substr s with
  | Some n => Z.of_nat n
  | None => -1
  end.

(** [strings.HasSuffix(s, suffix)]. *)
Definition strings_HasSuffix (s suffix : string) : bool :=
  let n := String.length s in
  let k := String.length suffix in
  (k <=? n)%nat && String.eqb (String.substring (n - k) k s) suffix.

(** The slice expression [s[:i]]. *)
Definition slice_to (s : string) (i : Z) : string :=
  String.substring 0 (Z.to_nat i) s.

(** Go's [int] on a 64-bit platform: [depth+1] wraps around. *)
Definition wrap_int (z : Z) : Z := (z + 2 ^ 63) mod 2 ^ 64 - 2 ^ 63.

(** ** normalizeURL (crawler.go, lines 177-183) *)

Definition normalizeURL (rawURL : string) : string :=
  let i := strings_Index rawURL "#" in
  if 0 <? i then slice_to rawURL i else rawURL.

(** ** Data model (crawler.go, lines 15-34) *)

Record Page := {
  URL : string;
  Title : string;
  Content : string;
  Depth : Z
}.

(** A buffered [chan struct{}]: only the number of buffered elements and
    the capacity matter. *)
Record chan := { chan_cap : nat; chan_len : nat }.

Definition make_chan (cap : nat) : chan := {| chan_cap := cap; chan_len := 0 |}.

(** A [sync.Mutex], with the goroutine that holds it. *)
Definition Mutex := option nat.

Record Crawler := {
  baseURL : string;
  maxDepth : Z;
  timeout : Z;
  delay : Z;                      (* time.Duration, in nanoseconds *)
  visited : gmap string bool;
  visitedMux : Mutex;
  pages : list Page;
  pagesMux : Mutex;
  semaphore : chan
}.

(** [time.Duration(delaySeconds * float64(time.Second))], with the
    float64 taken as the rational it denotes; the conversion truncates
    towards zero. *)
Definition duration_of_seconds (delaySeconds : Q) : Z :=
  Z.quot (Qnum delaySeconds * 1000000000) (Z.pos (Qden delaySeconds)).

(** New (crawler.go, lines 37-47). *)
Definition New (baseURL : string) (maxDepth timeout : Z) (delaySeconds : Q)
  : Crawler :=
  {| baseURL := baseURL;
     maxDepth := maxDepth;
     timeout := timeout;
     delay := duration_of_seconds delaySeconds;
     visited := ∅;
     visitedMux := None;
     pages := [];
     pagesMux := None;
     semaphore := make_chan 5 |}.

(** ** The collaborators: net/url, net/http, goquery and the parser *)

(** A parsed [goquery.Document], as [crawlPage] looks at it. *)
Record Document := {
  doc_title : string;                 (* doc.Find("title").Text() *)
  doc_main : string;                  (* parser.ExtractMainContent(doc) *)
  doc_anchors : list (option string)  (* the href of each <a>, if it has one *)
}.

(** What [client.Do] and [goquery.NewDocumentFromReader] give for one
    request: a transport error, or a status code and the parsed body
    ([None] when the body cannot be read or parsed). *)
Inductive Response :=
| DoError
| DoResp (StatusCode : Z) (body : option Document).

(** The errors [Crawl] and [crawlPage] return. *)
Inductive error :=
| ErrParse (u : string)               (* url.Parse *)
| ErrNewRequest (u : string)          (* http.NewRequest *)
| ErrDo (u : string)                  (* client.Do *)
| ErrStatus (code : Z) (u : string)   (* fmt.Errorf("ステータスコード %d: %s") *)
| ErrDocument (u : string).           (* goquery.NewDocumentFromReader *)

(** The network and the URL library. [client_Do k u] is the answer to the
    request for [u] when [k] requests were sent before it, so a page may
    answer differently each time it is asked. *)
Class Net := {
  url_URL : Type;
  url_Parse : string -> option url_URL;
  url_Hostname : url_URL -> string;
  url_ResolveReference : url_URL -> url_URL -> url_URL;
  url_String : url_URL -> string;
  http_NewRequest : string -> bool;
  client_Do : nat -> string -> Response
}.

(** ** Goroutines *)

(** The program points of [crawlPage] at which a goroutine touches shared
    state, blocks, or talks to the network. *)
Inductive pc :=
| PEntry                          (* l.71 depth test, l.79 visitedMux.Lock() *)
| PCheck                          (* l.80 c.visited[normalizedURL] *)
| PUnlockSeen                     (* l.81 Unlock, return nil *)
| PSet                            (* l.84 c.visited[normalizedURL] = true *)
| PUnlock                         (* l.85 Unlock *)
| PAcquire                        (* l.88 c.semaphore <- struct{}{} *)
| PRequest                        (* l.97 NewRequest, l.106 client.Do sends *)
| PInFlight (r : Response)        (* l.106-120 the answer arrives *)
| PLockPages (doc : Document)     (* l.134 pagesMux.Lock() *)
| PAppend (doc : Document)        (* l.135 append *)
| PUnlockPages (doc : Document)   (* l.136 Unlock *)
| PSpawn (doc : Document)         (* l.141-170 one goroutine per kept link *)
| PWait                           (* l.172 wg.Wait() *)
| PRelease (ret : option error)   (* l.89 deferred <-c.semaphore *)
| PReturn (ret : option error)    (* l.167 wg.Done(), or back in Crawl *)
| PDone (ret : option error).

Record task := {
  t_url : string;             (* pageURL *)
  t_depth : Z;                (* depth *)
  t_baseDomain : string;      (* baseDomain *)
  t_parent : option nat;      (* the goroutine whose wg this one is counted in *)
  t_pc : pc
}.

(** What a goroutine did, for the record of a run. *)
Inductive op :=
| OpInsert (u : string)               (* c.visited[u] = true *)
| OpAcquire                           (* c.semaphore <- struct{}{} *)
| OpRelease                           (* <-c.semaphore *)
| OpDo (u : string) (r : Response)    (* client.Do(req) *)
| OpAppend (p : Page).                (* c.pages = append(c.pages, page) *)

Record state := {
  crawler : Crawler;
  tasks : list task;              (* goroutine i is tasks !! i *)
  wgs : gmap nat nat;             (* the counter of goroutine i's WaitGroup *)
  trace : list (nat * op)         (* oldest first *)
}.

Definition set_pc (t : task) (p : pc) : task :=
  {| t_url := t_url t; t_depth := t_depth t; t_baseDomain := t_baseDomain t;
     t_parent := t_parent t; t_pc := p |}.

Definition with_visited (c : Crawler) (v : gmap string bool) : Crawler :=
  {| baseURL := baseURL c; maxDepth := maxDepth c; timeout := timeout c;
     delay := delay c; visited := v; visitedMux := visitedMux c;
     pages := pages c; pagesMux := pagesMux c; semaphore := semaphore c |}.

Definition with_visitedMux (c : Crawler) (m : Mutex) : Crawler :=
  {| baseURL := baseURL c; maxDepth := maxDepth c; timeout := timeout c;
     delay := delay c; visited := visited c; visitedMux := m;
     pages := pages c; pagesMux := pagesMux c; semaphore := semaphore c |}.

Definition with_pages (c : Crawler) (ps : list Page) : Crawler :=
  {| baseURL := baseURL c; maxDepth := maxDepth c; timeout := timeout c;
     delay := delay c; visited := visited c; visitedMux := visitedMux c;
     pages := ps; pagesMux := pagesMux c; semaphore := semaphore c |}.

Definition with_pagesMux (c : Crawler) (m : Mutex) : Crawler :=
  {| baseURL := baseURL c; maxDepth := maxDepth c; timeout := timeout c;
     delay := delay c; visited := visited c; visitedMux := visitedMux c;
     pages := pages c; pagesMux := m; semaphore := semaphore c |}.

Definition with_semaphore (c : Crawler) (n : nat) : Crawler :=
  {| baseURL := baseURL c; maxDepth := maxDepth c; timeout := timeout c;
     delay := delay c; visited := visited c; visitedMux := visitedMux c;
     pages := pages c; pagesMux := pagesMux c;
     semaphore := {| chan_cap := chan_cap (semaphore c); chan_len := n |} |}.

(** [m[k]] on a [map[string]bool]: false when the key is absent. *)
Definition map_get (m : gmap string bool) (k : string) : bool :=
  default false (m !! k).

Definition wg_get (w : gmap nat nat) (i : nat) : nat := default 0%nat (w !! i).

(** The requests sent so far, oldest first. *)
Definition fetched (tr : list (nat * op)) : list (string * Response) :=
  omap (fun e => match snd e with OpDo u r => Some (u, r) | _ => None end) tr.

(** Goroutine [tid] moves to [p]; the Crawler becomes [c]; [ops] is what
    it did. *)
Definition move (s : state) (tid : nat) (t : task) (p : pc) (c : Crawler)
    (ops : list op) : state :=
  {| crawler := c;
     tasks := <[tid := set_pc t p]> (tasks s);
     wgs := wgs s;
     trace := trace s ++ (pair tid <$> ops) |}.

Definition goto (s : state) (tid : nat) (t : task) (p : pc) : state :=
  move s tid t p (crawler s) [].

Section Engine.

Context {net : Net}.

(** resolveURL (crawler.go, lines 186-199). *)
Definition resolveURL (base href : string) : option string :=
  match url_Parse base with
  | None => None
  | Some baseURL =>
      match url_Parse href with
      | None => None
      | Some refURL => Some (url_String (url_ResolveReference baseURL refURL))
      end
  end.

(** The body of the [Each] callback (lines 142-170) up to the [go]
    statement: the URL to crawl for one anchor, if it is kept. *)
Definition follow (normalizedURL baseDomain : string) (a : option string)
  : option string :=
  match a with
  | None => None
  | Some href =>
      match resolveURL normalizedURL href with
      | None => None
      | Some absoluteURL =>
          match url_Parse absoluteURL with
          | None => None
          | Some parsedURL =>
              if negb (String.eqb (url_Hostname parsedURL) baseDomain) then None
              else if strings_HasSuffix absoluteURL ".pdf"
                      || strings_HasSuffix absoluteURL ".zip" then None
              else Some absoluteURL
          end
      end
  end.

Definition child (tid : nat) (t : task) (url : string) : task :=
  {| t_url := url; t_depth := wrap_int (t_depth t + 1);
     t_baseDomain := t_baseDomain t; t_parent := Some tid; t_pc := PEntry |}.

(** What the answer to a request leads to (lines 107-120). *)
Definition after_response (normalizedURL : string) (r : Response) : pc :=
  match r with
  | DoError => PRelease (Some (ErrDo normalizedURL))
  | DoResp code body =>
      if negb (code =? 200) then PRelease (Some (ErrStatus code normalizedURL))
      else match body with
           | None => PRelease (Some (ErrDocument normalizedURL))
           | Some doc => PLockPages doc
           end
  end.

(** One step of goroutine [tid]; [None] when there is no such goroutine,
    when it has finished, or when it is blocked. The [Each] loop of lines
    142-170 is one step, at [PSpawn]: its callback reads the document and
    the arguments of the call only, so the goroutines it starts are taken
    to start together when the loop is over, as if the goroutine that
    starts them were already at [wg.Wait()] when they take their first
    steps. *)
Definition step (tid : nat) (s : state) : option state :=
  match tasks s !! tid with
  | None => None
  | Some t =>
      let c := crawler s in
      let normalizedURL := normalizeURL (t_url t) in
      match t_pc t with
      | PEntry =>
          if maxDepth c <? t_depth t then Some (goto s tid t (PReturn None))
          else match visitedMux c with
               | Some _ => None
               | None =>
                   Some (move s tid t PCheck (with_visitedMux c (Some tid)) [])
               end
      | PCheck =>
          if map_get (visited c) normalizedURL
          then Some (goto s tid t PUnlockSeen)
          else Some (goto s tid t PSet)
      | PUnlockSeen =>
          Some (move s tid t (PReturn None) (with_visitedMux c None) [])
      | PSet =>
          Some (move s tid t PUnlock
                  (with_visited c (<[normalizedURL := true]> (visited c)))
                  [OpInsert normalizedURL])
      | PUnlock =>
          Some (move s tid t PAcquire (with_visitedMux c None) [])
      | PAcquire =>
          if (chan_len (semaphore c) <? chan_cap (semaphore c))%nat
          then Some (move s tid t PRequest
                       (with_semaphore c (S (chan_len (semaphore c))))
                       [OpAcquire])
          else None
      | PRequest =>
          if http_NewRequest normalizedURL
          then let r := client_Do (length (fetched (trace s))) normalizedURL in
               Some (move s tid t (PInFlight r) c [OpDo normalizedURL r])
          else Some (goto s tid t (PRelease (Some (ErrNewRequest normalizedURL))))
      | PInFlight r =>
          Some (goto s tid t (after_response normalizedURL r))
      | PLockPages doc =>
          match pagesMux c with
          | Some _ => None
          | None =>
              Some (move s tid t (PAppend doc) (with_pagesMux c (Some tid)) [])
          end
      | PAppend doc =>
          let page := {| URL := normalizedURL; Title := doc_title doc;
                         Content := doc_main doc; Depth := t_depth t |} in
          Some (move s tid t (PUnlockPages doc)
                  (with_pages c (pages c ++ [page])) [OpAppend page])
      | PUnlockPages doc =>
          Some (move s tid t (PSpawn doc) (with_pagesMux c None) [])
      | PSpawn doc =>
          let links :=
            omap (follow normalizedURL (t_baseDomain t)) (doc_anchors doc) in
          Some {| crawler := c;
                  tasks := <[tid := set_pc t PWait]> (tasks s)
                           ++ (child tid t <$> links);
                  wgs := <[tid := length links]> (wgs s);
                  trace := trace s |}
      | PWait =>
          if (wg_get (wgs s) tid =? 0)%nat
          then Some (goto s tid t (PRelease None))
          else None
      | PRelease ret =>
          Some (move s tid t (PReturn ret)
                  (with_semaphore c (pred (chan_len (semaphore c))))
                  [OpRelease])
      | PReturn ret =>
          Some {| crawler := c;
                  tasks := <[tid := set_pc t (PDone ret)]> (tasks s);
                  wgs := match t_parent t with
                         | Some p => <[p := pred (wg_get (wgs s) p)]> (wgs s)
                         | None => wgs s
                         end;
                  trace := trace s |}
      | PDone _ => None
      end
  end.

(** A run under a schedule: the goroutine to step, one per transition. *)
Fixpoint run (sched : list nat) (s : state) : option state :=
  match sched with
  | [] => Some s
  | tid :: sched' =>
      match step tid s with
      | None => None
      | Some s' => run sched' s'
      end
  end.

(** The goroutines that can take a step. *)
Definition enabled (s : state) : list nat :=
  filter (fun tid => is_Some (step tid s)) (seq 0 (length (tasks s))).

(** The schedule that always steps the oldest goroutine that can move;
    it stops early when none can. *)
Fixpoint run_oldest (fuel : nat) (s : state) : state :=
  match fuel with
  | O => s
  | S fuel' =>
      match enabled s with
      | [] => s
      | tid :: _ =>
          match step tid s with
          | None => s
          | Some s' => run_oldest fuel' s'
          end
      end
  end.

Fixpoint sched_oldest (fuel : nat) (s : state) : list nat :=
  match fuel with
  | O => []
  | S fuel' =>
      match enabled s with
      | [] => []
      | tid :: _ =>
          match step tid s with
          | None => []
          | Some s' => tid :: sched_oldest fuel' s'
          end
      end
  end.

(** Crawl (crawler.go, lines 50-66), up to the call of [crawlPage]: the
    parse error, or the state in which the calling goroutine, number 0,
    enters [crawlPage(c.baseURL, 0, baseDomain)]. *)
Definition Crawl_start (c : Crawler) : error + state :=
  match url_Parse (baseURL c) with
  | None => inl (ErrParse (baseURL c))
  | Some baseURLParsed =>
      inr {| crawler := c;
             tasks := [ {| t_url := baseURL c; t_depth := 0;
                           t_baseDomain := url_Hostname baseURLParsed;
                           t_parent := None; t_pc := PEntry |} ];
             wgs := ∅;
             trace := [] |}
  end.

(** Crawl after the call: what it returns once goroutine 0 is back from
    [crawlPage], and [None] as long as it is not. *)
Definition Crawl_return (s : state) : option (list Page * option error) :=
  match tasks s !! 0%nat with
  | None => None
  | Some t =>
      match t_pc t with
      | PDone (Some err) => Some ([], Some err)
      | PDone None => Some (pages (crawler s), None)
      | _ => None
      end
  end.

(** Crawl under a schedule. *)
Definition Crawl (c : Crawler) (sched : list nat)
  : option (list Page * option error) :=
  match Crawl_start c with
  | inl err => Some ([], Some err)
  | inr s0 =>
      match run sched s0 with
      | None => None
      | Some s => Crawl_return s
      end
  end.

(** The states a crawl goes through. *)
Definition reachable (c : Crawler) (s : state) : Prop :=
  exists s0 sched, Crawl_start c = inr s0 /\ run sched s0 = Some s.

End Engine.

(** ** A small network for the examples *)

Fixpoint until_delim (s : string) : string :=
  match s with
  | EmptyString => EmptyString
  | String ch s' =>
      if Ascii.eqb ch "/" || Ascii.eqb ch "?" || Ascii.eqb ch "#"
      then EmptyString
      else String ch (until_delim s')
  end.

Definition host_of (u : string) : string :=
  if String.prefix "https://" u
  then until_delim (String.substring 8 (String.length u - 8) u)
  else "".

Definition toy_resolve (base ref : string) : string :=
  if String.prefix "/" ref then "https://" ++ host_of base ++ ref else ref.

Definition toy_parse (u : string) : option string :=
  if String.prefix ":" u then None else Some u.

Fixpoint site_get (site : list (string * Response)) (u : string) : Response :=
  match site with
  | [] => DoResp 404 None
  | (u', r) :: site' => if String.eqb u u' then r else site_get site' u
  end.

(** Absolute https URLs, references that start with a slash, and a fixed
    answer per URL. *)
Definition toy_net (site : list (string * Response)) : Net :=
  {| url_URL := string;
     url_Parse := toy_parse;
     url_Hostname := fun u => host_of (normalizeURL u);
     url_ResolveReference := toy_resolve;
     url_String := fun u => u;
     http_NewRequest := fun u => bool_decide (is_Some (toy_parse u));
     client_Do := fun _ u =>
       if String.prefix "https://" u then site_get site u else DoError |}.

Definition html (title : string) (hrefs : list string) : Response :=
  DoResp 200 (Some {| doc_title := title; doc_main := title;
                      doc_anchors := map Some hrefs |}).

(** The state in which a crawl of [c] starts, for a seed that parses. *)
Definition start_of {net : Net} (c : Crawler) : state :=
  match Crawl_start c with
  | inr s0 => s0
  | inl _ => {| crawler := c; tasks := []; wgs := ∅; trace := [] |}
  end.

(** A small documentation site: the root links to /a and to another
    host; /a links to /b, back to the root, to itself with a fragment,
    to a PDF and to a page that is gone; /b links to /c, which is one
    level too deep for a depth limit of 2. *)
Definition site_docs : list (string * Response) :=
  [ ("https://x.test/", html "root" ["/a"; "https://other.test/page"]);
    ("https://x.test/a",
      html "a" ["/b"; "/"; "/a#top"; "/manual.pdf"; "/gone"]);
    ("https://x.test/b", html "b" ["/c"]);
    ("https://x.test/c", html "c" []);
    ("https://other.test/page", html "other" []) ].

(** A chain of six pages, each linking to the next. *)
Definition site_chain : list (string * Response) :=
  [ ("https://x.test/", html "0" ["/1"]);
    ("https://x.test/1", html "1" ["/2"]);
    ("https://x.test/2", html "2" ["/3"]);
    ("https://x.test/3", html "3" ["/4"]);
    ("https://x.test/4", html "4" ["/5"]);
    ("https://x.test/5", html "5" []) ].

Definition docs_crawler : Crawler := New "https://x.test/" 2 30 (2 # 1).

Definition docs_final : state :=
  @run_oldest (toy_net site_docs) 200 (@start_of (toy_net site_docs) docs_crawler).

(** Two parents of one page: the root links to /a and /b, both link to
    /c, and /c links back to the root and to a page that answers 500. *)
Definition site_diamond : list (string * Response) :=
  [ ("https://x.test/", html "root" ["/a"; "/b"]);
    ("https://x.test/a", html "a" ["/c"]);
    ("https://x.test/b", html "b" ["/c#intro"]);
    ("https://x.test/c", html "c" ["/"; "/broken"]);
    ("https://x.test/broken", DoResp 500 None) ].

Definition diamond_crawler : Crawler := New "https://x.test/" 3 30 (2 # 1).

Definition diamond_final : state :=
  @run_oldest (toy_net site_diamond) 200
    (@start_of (toy_net site_diamond) diamond_crawler).

Definition seed_only_crawler : Crawler := New "https://x.test/" 0 30 (2 # 1).

Definition seed_only_final : state :=
  @run_oldest (toy_net site_docs) 200
    (@start_of (toy_net site_docs) seed_only_crawler).

Definition chain_crawler : Crawler := New "https://x.test/" 5 30 (2 # 1).

Definition chain_stuck : state :=
  @run_oldest (toy_net site_chain) 200
    (@start_of (toy_net site_chain) chain_crawler).

(** A site that answers nothing: every request gets a 404. *)
Definition site_empty : list (string * Response) := [].

Definition seed_gone_final : state :=
  @run_oldest (toy_net site_empty) 200
    (@start_of (toy_net site_empty) docs_crawler).

(** What the fragment claim says, over all strings: two references that
    differ only behind the first '#' get the same key. *)
Definition fragments_collapse : Prop :=
  forall p f1 f2 : string,
    String.index 0 "#" p = None ->
    normalizeURL (p ++ String "#" f1) = normalizeURL (p ++ String "#" f2).

(** ** Where a goroutine is, and what a run has recorded *)

(** Between [visitedMux.Lock()] and [visitedMux.Unlock()]. *)
Definition holds_visitedMux (p : pc) : bool :=
  match p with
  | PCheck | PUnlockSeen | PSet | PUnlock => true
  | _ => false
  end.

(** Between [pagesMux.Lock()] and [pagesMux.Unlock()]. *)
Definition holds_pagesMux (p : pc) : bool :=
  match p with
  | PAppend _ | PUnlockPages _ => true
  | _ => false
  end.

(** Between the send on [c.semaphore] and the deferred receive. *)
Definition holds_slot (p : pc) : bool :=
  match p with
  | PRequest | PInFlight _ | PLockPages _ | PAppend _ | PUnlockPages _
  | PSpawn _ | PWait | PRelease _ => true
  | _ => false
  end.


(** The goroutine has put its URL into [c.visited] and has not yet
    appended its Page (or given up). *)
Definition owns_url (p : pc) : bool :=
  match p with
  | PUnlock | PAcquire | PRequest | PInFlight _ | PLockPages _ | PAppend _ =>
      true
  | _ => false
  end.

(** Before the request is sent. *)
Definition before_request (p : pc) : bool :=
  match p with
  | PUnlock | PAcquire | PRequest => true
  | _ => false
  end.

(** Past the depth test of line 71 and not yet returning. *)
Definition past_depth_test (p : pc) : bool :=
  match p with
  | PEntry | PReturn _ | PDone _ => false
  | _ => true
  end.

(** Nothing was put into [c.visited] on the way here. *)
Definition before_insert (p : pc) : bool :=
  match p with
  | PEntry | PCheck | PSet | PReturn _ | PDone _ => true
  | _ => false
  end.

Definition finished (p : pc) : bool :=
  match p with
  | PDone _ => true
  | _ => false
  end.

Fixpoint countb {A : Type} (f : A -> bool) (l : list A) : nat :=
  match l with
  | [] => 0%nat
  | x :: l' => ((if f x then 1 else 0) + countb f l')%nat
  end.

(** The URLs put into [c.visited], the pages appended, and the slot
    operations of one goroutine, as the trace has them. *)
Definition inserted (tr : list (nat * op)) : list string :=
  omap (fun e => match snd e with OpInsert u => Some u | _ => None end) tr.

Definition appended (tr : list (nat * op)) : list Page :=
  omap (fun e => match snd e with OpAppend p => Some p | _ => None end) tr.

Definition is_acquire (tid : nat) (e : nat * op) : bool :=
  match snd e with
  | OpAcquire => Nat.eqb (fst e) tid
  | _ => false
  end.

Definition is_release (tid : nat) (e : nat * op) : bool :=
  match snd e with
  | OpRelease => Nat.eqb (fst e) tid
  | _ => false
  end.

Definition acquisitions (tid : nat) (tr : list (nat * op)) : nat :=
  countb (is_acquire tid) tr.

Definition releases (tid : nat) (tr : list (nat * op)) : nat :=
  countb (is_release tid) tr.

(** The answer makes [crawlPage] return an error. *)
Definition failed (r : Response) : Prop :=
  forall doc, r <> DoResp 200 (Some doc).

(** A child of goroutine [p] that has not finished. *)
Definition live_child (p : nat) (t : task) : bool :=
  bool_decide (t_parent t = Some p) && negb (finished (t_pc t)).

(** ** Invariants of a crawl *)

Definition slot_held (t : task) : bool := holds_slot (t_pc t).

Definition normalized (t : task) : string := normalizeURL (t_url t).

(** Each mutex is held by exactly the goroutine inside its critical
    section. *)
Definition inv_mutex (s : state) : Prop :=
  (forall tid t, tasks s !! tid = Some t ->
     (holds_visitedMux (t_pc t) = true <-> visitedMux (crawler s) = Some tid) /\
     (holds_pagesMux (t_pc t) = true <-> pagesMux (crawler s) = Some tid)) /\
  (forall h, visitedMux (crawler s) = Some h -> (h < length (tasks s))%nat) /\
  (forall h, pagesMux (crawler s) = Some h -> (h < length (tasks s))%nat).

(** The channel holds one element per goroutine between its send and its
    deferred receive, and never more than its capacity of 5. *)
Definition inv_sem (s : state) : Prop :=
  chan_cap (semaphore (crawler s)) = 5%nat /\
  chan_len (semaphore (crawler s)) = countb slot_held (tasks s) /\
  (chan_len (semaphore (crawler s)) <= 5)%nat.

(** What the trace says of one goroutine's slot, by where it is. *)
Definition slot_account (p : pc) (a r : nat) : Prop :=
  match p with
  | PEntry | PCheck | PUnlockSeen | PSet | PUnlock | PAcquire =>
      a = 0%nat /\ r = 0%nat
  | PReturn _ | PDone _ => a = r /\ (a <= 1)%nat
  | _ => a = 1%nat /\ r = 0%nat
  end.

Definition inv_slots (s : state) : Prop :=
  (forall tid t, tasks s !! tid = Some t ->
     slot_account (t_pc t) (acquisitions tid (trace s)) (releases tid (trace s))) /\
  (forall e, e ∈ trace s -> (fst e < length (tasks s))%nat).

Definition map_true (m : gmap string bool) (u : string) : Prop :=
  map_get m u = true.

(** The answer a goroutine has under its hands. *)
Definition pending (p : pc) : option Response :=
  match p with
  | PInFlight r => Some r
  | PLockPages doc | PAppend doc => Some (DoResp 200 (Some doc))
  | _ => None
  end.

(** The error a goroutine is returning. *)
Definition returning (p : pc) : option error :=
  match p with
  | PRelease ret | PReturn ret | PDone ret => ret
  | _ => None
  end.

Definition is_wait (p : pc) : bool :=
  match p with
  | PWait => true
  | _ => false
  end.

(** The visited map, the pages and the requests: a URL has one owner, the
    goroutine that put it into the map. *)
Record inv_visit (s : state) : Prop := {
  iv_set : forall tid t, tasks s !! tid = Some t -> t_pc t = PSet ->
      map_get (visited (crawler s)) (normalized t) = false;
  iv_owner : forall tid t, tasks s !! tid = Some t ->
      owns_url (t_pc t) = true ->
      map_true (visited (crawler s)) (normalized t) /\
      (normalized t ∉ (URL <$> pages (crawler s))) /\
      (tid, OpInsert (normalized t)) ∈ trace s;
  iv_before : forall tid t, tasks s !! tid = Some t ->
      before_request (t_pc t) = true ->
      normalized t ∉ (fst <$> fetched (trace s));
  iv_unique : forall i j ti tj,
      tasks s !! i = Some ti -> tasks s !! j = Some tj ->
      owns_url (t_pc ti) = true -> owns_url (t_pc tj) = true ->
      normalized ti = normalized tj -> i = j;
  iv_inserted : forall u,
      u ∈ inserted (trace s) <-> map_true (visited (crawler s)) u;
  iv_inserted_nodup : NoDup (inserted (trace s));
  iv_fetched : forall u, u ∈ (fst <$> fetched (trace s)) ->
      map_true (visited (crawler s)) u;
  iv_fetched_nodup : NoDup (fst <$> fetched (trace s));
  iv_pages : pages (crawler s) = appended (trace s);
  iv_pages_visited : forall u, u ∈ (URL <$> pages (crawler s)) ->
      map_true (visited (crawler s)) u;
  iv_pages_nodup : NoDup (URL <$> pages (crawler s))
}.

(** What the trace tells about who did what. *)
Record inv_trace (s : state) : Prop := {
  it_pending : forall tid t r, tasks s !! tid = Some t ->
      pending (t_pc t) = Some r -> (tid, OpDo (normalized t) r) ∈ trace s;
  it_do : forall tr1 tid u r tr2,
      trace s = (tr1 ++ (tid, OpDo u r) :: tr2)%list ->
      (tid, OpInsert u) ∈ tr1;
  it_append : forall tr1 tid p tr2,
      trace s = (tr1 ++ (tid, OpAppend p) :: tr2)%list ->
      exists doc, (tid, OpDo (URL p) (DoResp 200 (Some doc))) ∈ tr1
}.

(** The depth test of line 71. *)
Record inv_depth (s : state) : Prop := {
  id_task : forall tid t, tasks s !! tid = Some t ->
      past_depth_test (t_pc t) = true -> t_depth t <= maxDepth (crawler s);
  id_page : forall p, p ∈ pages (crawler s) -> Depth p <= maxDepth (crawler s)
}.

(** Goroutine 0 is the call from [Crawl]; it is alone until it has put the
    seed into the visited map, and from then on the seed is taken. *)
Record inv_seed (s : state) : Prop := {
  is_root : exists t0, tasks s !! 0%nat = Some t0 /\
      t_url t0 = baseURL (crawler s) /\ t_depth t0 = 0 /\ t_parent t0 = None;
  is_phase :
      (length (tasks s) = 1%nat /\ pages (crawler s) = [] /\
       (forall u, map_get (visited (crawler s)) u = false) /\
       forall t0, tasks s !! 0%nat = Some t0 ->
         before_insert (t_pc t0) = true) \/
      (map_true (visited (crawler s)) (normalizeURL (baseURL (crawler s))) /\
       (forall tid t, tasks s !! tid = Some t -> owns_url (t_pc t) = true ->
          normalized t = normalizeURL (baseURL (crawler s)) -> t_depth t = 0) /\
       (forall p, p ∈ pages (crawler s) ->
          URL p = normalizeURL (baseURL (crawler s)) -> Depth p = 0))
}.

(** With a depth limit of 0, only goroutine 0 gets past the depth test. *)
Record inv_depth0 (s : state) : Prop := {
  i0_task : forall tid t, tasks s !! tid = Some t ->
      (tid = 0%nat -> t_depth t = 0 /\ t_url t = baseURL (crawler s)) /\
      (tid <> 0%nat -> t_depth t = 1);
  i0_page : forall p, p ∈ pages (crawler s) ->
      URL p = normalizeURL (baseURL (crawler s)) /\ Depth p = 0
}.

(** The fan-out is structured: a goroutine that has not finished was
    spawned by a goroutine that waits for it, and the counter of a
    WaitGroup is the number of such children. *)
Record inv_wg (s : state) : Prop := {
  iw_root : exists t0, tasks s !! 0%nat = Some t0 /\ t_parent t0 = None;
  iw_parent : forall tid t, tasks s !! tid = Some t -> tid <> 0%nat ->
      exists p, t_parent t = Some p /\ (p < tid)%nat;
  iw_count : forall p tp, tasks s !! p = Some tp ->
      countb (live_child p) (tasks s) =
      if is_wait (t_pc tp) then wg_get (wgs s) p else 0%nat
}.

Section NetInvariants.

Context {net : Net}.

(** Every goroutine crawls a URL of the base domain. *)
Record inv_domain (bd : string) (s : state) : Prop := {
  idm_task : forall tid t, tasks s !! tid = Some t ->
      t_baseDomain t = bd /\
      exists p, url_Parse (t_url t) = Some p /\ url_Hostname p = bd;
  idm_page : forall pg, pg ∈ pages (crawler s) ->
      exists u p, URL pg = normalizeURL u /\
                  url_Parse u = Some p /\ url_Hostname p = bd
}.

(** [e] is a failure of the visit of [n] itself. *)
Definition own_failure (n : string) (e : error) (tr : list (nat * op)) : Prop :=
  (e = ErrNewRequest n /\ http_NewRequest n = false) \/
  (exists r, (n, r) ∈ fetched tr /\ failed r /\
             after_response n r = PRelease (Some e)).

Definition inv_errors (s : state) : Prop :=
  forall tid t e, tasks s !! tid = Some t -> returning (t_pc t) = Some e ->
    own_failure (normalized t) e (trace s).

(** Everything that holds of every state of a crawl of [c0]. *)
Record Inv (c0 : Crawler) (bd : string) (s : state) : Prop := {
  I_baseURL : baseURL (crawler s) = baseURL c0;
  I_maxDepth : maxDepth (crawler s) = maxDepth c0;
  I_delay : delay (crawler s) = delay c0;
  I_mutex : inv_mutex s;
  I_sem : inv_sem s;
  I_slots : inv_slots s;
  I_visit : inv_visit s;
  I_trace : inv_trace s;
  I_depth : inv_depth s;
  I_seed : inv_seed s;
  I_depth0 : maxDepth c0 = 0 -> inv_depth0 s;
  I_wg : inv_wg s;
  I_domain : inv_domain bd s;
  I_errors : inv_errors s
}.

End NetInvariants.



(** The same state with another politeness delay configured. *)
Definition set_delay (dl : Z) (s : state) : state :=
  {| crawler :=
       {| baseURL := baseURL (crawler s); maxDepth := maxDepth (crawler s);
          timeout := timeout (crawler s); delay := dl;
          visited := visited (crawler s);
          visitedMux := visitedMux (crawler s);
          pages := pages (crawler s); pagesMux := pagesMux (crawler s);
          semaphore := semaphore (crawler s) |};
     tasks := tasks s;
     wgs := wgs s;
     trace := trace s |}.

(** ** More invariants of a crawl *)


(** Every Page holds the title and the main content of the document that
    answered the request for its URL. *)
Definition inv_prov (s : state) : Prop :=
  forall p, p ∈ pages (crawler s) ->
    exists doc, (URL p, DoResp 200 (Some doc)) ∈ fetched (trace s) /\
                Title p = doc_title doc /\ Content p = doc_main doc.

(** The goroutine blocks at its program point in this state. *)
Definition blocked (s : state) (tid : nat) (t : task) : Prop :=
  match t_pc t with
  | PEntry =>
      t_depth t <= maxDepth (crawler s) /\ visitedMux (crawler s) <> None
  | PAcquire =>
      (chan_cap (semaphore (crawler s)) <= chan_len (semaphore (crawler s)))%nat
  | PLockPages _ => pagesMux (crawler s) <> None
  | PWait => wg_get (wgs s) tid <> 0%nat
  | _ => False
  end.

Section MoreNetInvariants.

Context {net : Net}.

(** A goroutine that is past the append of its Page got the document
    from its own request; and every goroutine but the first crawls a
    link of the page of the goroutine that spawned it: an href of an
    anchor of the document that answered that goroutine's request, which
    resolved against that page's canonical URL to a URL of the base domain
    that does not end in .pdf or .zip, and it is crawled one level
    deeper. *)
Definition inv_links (s : state) : Prop :=
  (forall tid t doc, tasks s !! tid = Some t ->
     t_pc t = PUnlockPages doc \/ t_pc t = PSpawn doc ->
     (tid, OpDo (normalized t) (DoResp 200 (Some doc))) ∈ trace s) /\
  forall tid t, tasks s !! tid = Some t -> tid <> 0%nat ->
    strings_HasSuffix (t_url t) ".pdf" = false /\
    strings_HasSuffix (t_url t) ".zip" = false /\
    exists p tp doc href,
      t_parent t = Some p /\ tasks s !! p = Some tp /\
      (p, OpDo (normalized tp) (DoResp 200 (Some doc))) ∈ trace s /\
      Some href ∈ doc_anchors doc /\
      resolveURL (normalized tp) href = Some (t_url t) /\
      (exists u, url_Parse (t_url t) = Some u /\
                 url_Hostname u = t_baseDomain tp) /\
      t_depth t = wrap_int (t_depth tp + 1) /\
      t_depth tp <= maxDepth (crawler s).

End MoreNetInvariants.

(** ** The command line (cmd/root.go) *)

(** containsExtension (cmd/root.go, lines 71-73). *)
Definition containsExtension (path ext : string) : bool :=
  (String.length ext <=? String.length path)%nat &&
  String.eqb
    (String.substring (String.length path - String.length ext)
       (String.length ext) path)
    ext.

(** The adjustment of the output path in RunE (cmd/root.go, lines 38-47). *)
Definition adjustOutputPath (outputFormat outputPath : string) : string :=
  if String.eqb outputFormat "txt"
     && negb (containsExtension outputPath ".txt")
  then
    if containsExtension outputPath ".pdf"
    then String.substring 0 (String.length outputPath - 4) outputPath ++ ".txt"
    else outputPath ++ ".txt"
  else outputPath.

(** Every Page was appended by a goroutine of the crawl, with that
    goroutine's canonical URL and depth. *)
Definition inv_page_task (s : state) : Prop :=
  forall pg, pg ∈ pages (crawler s) ->
    exists tid tk, tasks s !! tid = Some tk /\
      URL pg = normalized tk /\ Depth pg = t_depth tk /\
      (tid, OpAppend pg) ∈ trace s.

Section AnswerInvariants.

Context {net : Net}.

(** The k-th request of the trace was accepted by http.NewRequest and
    got the answer the network gives to request number k. *)
Definition inv_answers (s : state) : Prop :=
  forall k u r, fetched (trace s) !! k = Some (u, r) ->
    r = client_Do k u /\ http_NewRequest u = true.

End AnswerInvariants.

Section SeedInvariants.

Context {net : Net}.

(** Where goroutine 0 is decides what the requests sent so far are. Up
    to the end of its own spawn loop it is the only goroutine and the
    only request, if any, is its own; it gets to wg.Wait() only with a
    document for the seed; and what it returns is the outcome of its own
    visit: nil after a document (or at the depth test, with no request
    made), an error when its request could not be built or was answered
    with something else than a readable 200. *)
Definition seed_fate (s : state) : Prop :=
  forall t0, tasks s !! 0%nat = Some t0 ->
    match t_pc t0 with
    | PEntry | PCheck | PSet =>
        length (tasks s) = 1%nat /\ fetched (trace s) = [] /\
        forall u, map_get (visited (crawler s)) u = false
    | PUnlockSeen => False
    | PUnlock | PAcquire | PRequest =>
        length (tasks s) = 1%nat /\ fetched (trace s) = []
    | PInFlight r =>
        length (tasks s) = 1%nat /\ fetched (trace s) = [(normalized t0, r)]
    | PLockPages doc | PAppend doc | PUnlockPages doc | PSpawn doc =>
        length (tasks s) = 1%nat /\
        fetched (trace s) = [(normalized t0, DoResp 200 (Some doc))]
    | PWait =>
        exists doc rest,
          fetched (trace s) = (normalized t0, DoResp 200 (Some doc)) :: rest
    | PRelease None | PReturn None | PDone None =>
        (exists doc rest,
           fetched (trace s) = (normalized t0, DoResp 200 (Some doc)) :: rest)
        \/ (length (tasks s) = 1%nat /\ fetched (trace s) = [] /\
            maxDepth (crawler s) < t_depth t0)
    | PRelease (Some e) | PReturn (Some e) | PDone (Some e) =>
        length (tasks s) = 1%nat /\
        ((fetched (trace s) = [] /\ e = ErrNewRequest (normalized t0) /\
          http_NewRequest (normalized t0) = false) \/
         (exists r, fetched (trace s) = [(normalized t0, r)] /\ failed r /\
                    after_response (normalized t0) r = PRelease (Some e)))
    end.

End SeedInvariants.

(** The steps goroutine 0 has left, at most, on a visit that fails. *)
Definition steps_to_return (p : pc) : nat :=
  match p with
  | PEntry => 9
  | PCheck => 8
  | PSet => 7
  | PUnlock => 6
  | PAcquire => 5
  | PRequest => 4
  | PInFlight _ => 3
  | PRelease _ => 2
  | PReturn _ => 1
  | _ => 0
  end.

Definition seed_steps (s : state) : nat :=
  match tasks s !! 0%nat with
  | Some t0 => steps_to_return (t_pc t0)
  | None => 0
  end.

Section OneAtATime.

Context {net : Net}.

(** [P] holds of [s], and from [s] on at most one goroutine can take a
    step at a time, until none can, with [P] at every state on the way;
    [fuel] bounds the number of steps. *)
Fixpoint always_alone (P : state -> bool) (fuel : nat) (s : state) : bool :=
  P s &&
  match enabled s with
  | [] => true
  | [tid] =>
      match fuel, step tid s with
      | S fuel', Some s' => always_alone P fuel' s'
      | _, _ => false
      end
  | _ => false
  end.

End OneAtATime.

Definition not_returned (s : state) : bool :=
  match Crawl_return s with
  | None => true
  | Some _ => false
  end.

(** The visited map holds [true] under each of its keys, and has one key
    per insertion of the trace. *)
Definition inv_size (s : state) : Prop :=
  size (visited (crawler s)) = length (inserted (trace s)) /\
  forall u v, visited (crawler s) !! u = Some v -> v = true.

(** ** The text output (internal/pdf/generator.go) *)

(** A string of ASCII bytes only. *)
Fixpoint is_ascii (s : string) : bool :=
  match s with
  | EmptyString => true
  | String ch s' => (nat_of_ascii ch <? 128)%nat && is_ascii s'
  end.

Definition lower_byte (ch : ascii) : ascii :=
  let n := nat_of_ascii ch in
  if (65 <=? n)%nat && (n <=? 90)%nat then ascii_of_nat (n + 32) else ch.

(** [strings.ToLower] on a string of ASCII bytes, where it maps 'A'..'Z'
    to 'a'..'z' byte by byte; on other strings Go lowers Unicode letters,
    which this does not model. *)
Fixpoint strings_ToLower (s : string) : string :=
  match s with
  | EmptyString => EmptyString
  | String ch s' => String (lower_byte ch) (strings_ToLower s')
  end.

(** getTextPath (internal/pdf/generator.go, lines 44-51). *)
Definition getTextPath (pdfPath : string) : string :=
  if strings_HasSuffix (strings_ToLower pdfPath) ".pdf"
  then String.substring 0 (String.length pdfPath - 4) pdfPath ++ ".txt"
  else pdfPath ++ ".txt".

(** ** The HTML clean-up (internal/parser/parser.go) *)

(** What a call does: it returns a string, it panics on a slice out of
    range, or its loop is still running when the fuel is used up. *)
Inductive outcome :=
| Returns (s : string)
| Panics
| OutOfFuel.

Definition and_then (o : outcome) (k : string -> outcome) : outcome :=
  match o with
  | Returns s => k s
  | Panics => Panics
  | OutOfFuel => OutOfFuel
  end.

(** [len(s)]. *)
Definition len (s : string) : Z := Z.of_nat (String.length s).

(** The slice expression [s[lo:hi]], which panics unless
    [0 <= lo <= hi <= len(s)]. *)
Definition go_slice (s : string) (lo hi : Z) : option string :=
  if (0 <=? lo) && (lo <=? hi) && (hi <=? len s)
  then Some (String.substring (Z.to_nat lo) (Z.to_nat (hi - lo)) s)
  else None.

(** [s[:hi] + s[lo:]], the string without its bytes from [hi] up to [lo]. *)
Definition cut (s : string) (hi lo : Z) (k : string -> outcome) : outcome :=
  match go_slice s 0 hi, go_slice s lo (len s) with
  | Some a, Some b => k (a ++ b)
  | _, _ => Panics
  end.

(** The double quote, as a string of one byte. *)
Definition quote : string := String "034"%char EmptyString.

(** removeElement (parser.go, lines 74-95); [fuel] bounds the number of
    rounds of its loop. *)
Fixpoint removeElement (fuel : nat) (result startTag endTag : string)
  : outcome :=
  match fuel with
  | O => OutOfFuel
  | S fuel' =>
    let startIdx :=
      strings_Index (strings_ToLower result) (strings_ToLower startTag) in
    if startIdx =? -1 then Returns result else
    match go_slice result startIdx (len result) with
    | None => Panics
    | Some tail =>
      let endIdx :=
        strings_Index (strings_ToLower tail) (strings_ToLower endTag) in
      if endIdx =? -1 then Returns result else
      let endIdx := endIdx + startIdx + len endTag in
      if endIdx <=? len result
      then cut result startIdx endIdx
             (fun result => removeElement fuel' result startTag endTag)
      else Returns result
    end
  end.

(** removeAttribute (parser.go, lines 98-119): the end of the attribute
    is looked for in [result[startIdx:]] as it is, not lowered. *)
Fixpoint removeAttribute (fuel : nat) (result attrStart attrEnd : string)
  : outcome :=
  match fuel with
  | O => OutOfFuel
  | S fuel' =>
    let startIdx :=
      strings_Index (strings_ToLower result) (strings_ToLower attrStart) in
    if startIdx =? -1 then Returns result else
    match go_slice result startIdx (len result) with
    | None => Panics
    | Some tail =>
      let endIdx := strings_Index tail attrEnd in
      if endIdx =? -1 then Returns result else
      let endIdx := endIdx + startIdx + len attrEnd in
      if endIdx <=? len result
      then cut result startIdx endIdx
             (fun result => removeAttribute fuel' result attrStart attrEnd)
      else Returns result
    end
  end.

(** The byte [s[i]], if [i] is in range. *)
Definition byte_at (s : string) (i : Z) : option ascii :=
  if (0 <=? i) && (i <? len s) then String.get (Z.to_nat i) s else None.

(** removeDataAttributes (parser.go, lines 122-157). When the "data-" it
    finds does not follow a space, the loop goes on with
    [result[startIdx+5:]] alone. *)
Fixpoint removeDataAttributes (fuel : nat) (result : string) : outcome :=
  match fuel with
  | O => OutOfFuel
  | S fuel' =>
    let startIdx := strings_Index (strings_ToLower result) "data-" in
    if startIdx =? -1 then Returns result else
    let skip :=
      if 0 <? startIdx
      then match byte_at result (startIdx - 1) with
           | Some ch => Some (negb (Ascii.eqb ch " "))
           | None => None
           end
      else Some false in
    match skip with
    | None => Panics
    | Some true =>
      match go_slice result (startIdx + 5) (len result) with
      | Some rest => removeDataAttributes fuel' rest
      | None => Panics
      end
    | Some false =>
      match go_slice result startIdx (len result) with
      | None => Panics
      | Some tail =>
        let endIdx := strings_Index tail quote in
        if endIdx =? -1 then Returns result else
        match go_slice result (startIdx + endIdx + 1) (len result) with
        | None => Panics
        | Some value =>
          let valueEndIdx := strings_Index value quote in
          if valueEndIdx =? -1 then Returns result else
          let endIdx := startIdx + endIdx + valueEndIdx + 2 in
          if endIdx <=? len result
          then cut result startIdx endIdx (removeDataAttributes fuel')
          else Returns result
        end
      end
    end
  end.

(** The white space of [strings.Fields] in a string of ASCII bytes:
    tab, line feed, vertical tab, form feed, carriage return, space. *)
Definition is_space (ch : ascii) : bool :=
  let n := nat_of_ascii ch in
  ((9 <=? n)%nat && (n <=? 13)%nat) || (n =? 32)%nat.

Definition starts_with_space (s : string) : bool :=
  match s with
  | EmptyString => true
  | String ch _ => is_space ch
  end.

(** [strings.Fields(s)]: the maximal runs of bytes that are not white
    space. *)
Fixpoint strings_Fields (s : string) : list string :=
  match s with
  | EmptyString => []
  | String ch s' =>
    if is_space ch then strings_Fields s'
    else if starts_with_space s' then String ch EmptyString :: strings_Fields s'
    else match strings_Fields s' with
         | w :: ws => String ch w :: ws
         | [] => [String ch EmptyString]
         end
  end.

(** [strings.Join(elems, sep)]. *)
Fixpoint strings_Join (elems : list string) (sep : string) : string :=
  match elems with
  | [] => EmptyString
  | [w] => w
  | w :: ws => w ++ sep ++ strings_Join ws sep
  end.

(** cleanHTML (parser.go, lines 48-71). *)
Definition cleanHTML (fuel : nat) (html : string) : outcome :=
  and_then (removeElement fuel html "<script" "</script>") (fun html =>
  and_then (removeElement fuel html "<style" "</style>") (fun html =>
  and_then (removeAttribute fuel html ("style=" ++ quote) quote) (fun html =>
  and_then (removeAttribute fuel html ("class=" ++ quote) quote) (fun html =>
  and_then (removeAttribute fuel html ("id=" ++ quote) quote) (fun html =>
  and_then (removeDataAttributes fuel html) (fun html =>
  Returns (strings_Join (strings_Fields html) " "))))))).

(** A string in which white space is only single spaces between other
    bytes. *)
Fixpoint single_spaced (s : string) : bool :=
  match s with
  | EmptyString => true
  | String ch s' =>
    (if is_space ch
     then Ascii.eqb ch " " && negb (starts_with_space s')
     else true) && single_spaced s'
  end.

(** The bytes of a string that are not white space. *)
Fixpoint ink (s : string) : list ascii :=
  match s with
  | EmptyString => []
  | String ch s' => if is_space ch then ink s' else ch :: ink s'
  end.

(** A page to run cleanHTML on. *)
Definition sample_html : string :=
  "<h1  id=" ++ quote ++ "top" ++ quote ++ ">Guide</h1>"
  ++ String "010"%char EmptyString
  ++ "<script>track()</script>  <p>read" ++ String "009"%char EmptyString
  ++ "me</p> ".

(** ** Case analysis of a step *)

(** All the ways [step tid s = Some s'] can hold, one goal each. *)
Ltac step_inv H :=
  let t := fresh "t" in
  let Ht := fresh "Ht" in
  let Hpc := fresh "Hpc" in
  unfold step in H;
  destruct (tasks _ !! _) as [t|] eqn:Ht in H; [|discriminate H];
  cbv zeta in H;
  destruct (t_pc t) eqn:Hpc in H;
  unfold after_response in H;
  repeat match type of H with
         | context [match ?x with _ => _ end] => destruct x eqn:?
         end;
  try discriminate H;
  injection H as <-; unfold goto, move; simpl; rewrite ?app_nil_r.

(** Which goroutine of the new state [Hj] looks up: the one that moved,
    another one, or one just spawned. *)
Ltac lookup_cases Hj :=
  first
    [ apply lookup_app_Some in Hj as [Hj | [? Hj]];
      [ apply list_lookup_insert_Some in Hj as [(<- & <- & ?) | (? & Hj)]
      | apply list_lookup_fmap_Some in Hj as (? & -> & ?) ]
    | apply list_lookup_insert_Some in Hj as [(<- & <- & ?) | (? & Hj)] ].


(** * Properties *)

(** ** normalizeURL *)

Example normalizeURL_fragment :
  normalizeURL "https://x.test/a?q=1#top" = "https://x.test/a?q=1".
Proof. reflexivity. Qed.

Example normalizeURL_slash :
  normalizeURL "https://x.test/docs/" = "https://x.test/docs/".
Proof. reflexivity. Qed.

Example normalizeURL_leading_hash : normalizeURL "#top" = "#top".
Proof. reflexivity. Qed.

(** [has_hash s]: the byte '#' occurs in [s]. *)
Lemma index_hash_cons ch s :
  String.index 0 "#" (String ch s) =
  if Ascii.eqb ch "#" then Some 0%nat else S <$> String.index 0 "#" s.
Proof.
  cbn [String.index String.prefix].
  destruct (ascii_dec "#" ch) as [<-|Hne].
  - destruct s; reflexivity.
  - destruct (Ascii.eqb_spec ch "#") as [->|_]; [congruence|].
    destruct (String.index 0 "#" s); reflexivity.
Qed.

Lemma normalizeURL_cons ch s :
  normalizeURL (String ch s) =
  if Ascii.eqb ch "#" then String ch s
  else match String.index 0 "#" s with
       | Some n => String ch (String.substring 0 n s)
       | None => String ch s
       end.
Proof.
  unfold normalizeURL, strings_Index, slice_to. rewrite index_hash_cons.
  destruct (Ascii.eqb ch "#"); [reflexivity|].
  destruct (String.index 0 "#" s) as [n|]; cbn [fmap option_fmap option_map].
  - replace (0 <? Z.of_nat (S n)) with true by (symmetry; apply Z.ltb_lt; lia).
    rewrite Nat2Z.id. reflexivity.
  - reflexivity.
Qed.

Lemma index_hash_substring s n :
  String.index 0 "#" s = Some n ->
  String.index 0 "#" (String.substring 0 n s) = None.
Proof.
  revert n. induction s as [|ch s IH]; intros n.
  - cbn. discriminate.
  - rewrite index_hash_cons. destruct (Ascii.eqb ch "#") eqn:E.
    + intros [= <-]. reflexivity.
    + destruct (String.index 0 "#" s) as [k|] eqn:Ek; [|discriminate].
      intros [= <-]. cbn [String.substring]. rewrite index_hash_cons, E.
      rewrite (IH k eq_refl). reflexivity.
Qed.

Lemma normalizeURL_no_hash s :
  String.index 0 "#" s = None -> normalizeURL s = s.
Proof.
  intros H. unfold normalizeURL, strings_Index. rewrite H. reflexivity.
Qed.

Lemma normalizeURL_idem u : normalizeURL (normalizeURL u) = normalizeURL u.
Proof.
  destruct u as [|ch s]; [reflexivity|].
  rewrite normalizeURL_cons.
  destruct (Ascii.eqb ch "#") eqn:E.
  - rewrite normalizeURL_cons, E. reflexivity.
  - destruct (String.index 0 "#" s) as [n|] eqn:En.
    + rewrite normalizeURL_cons, E, (index_hash_substring _ _ En). reflexivity.
    + rewrite normalizeURL_cons, E, En. reflexivity.
Qed.

Lemma append_nil_l (r : string) : "" ++ r = r.
Proof. reflexivity. Qed.

Lemma append_cons_l ch (s r : string) : String ch s ++ r = String ch (s ++ r).
Proof. reflexivity. Qed.

Lemma append_nil_r (s : string) : s ++ "" = s.
Proof. induction s as [|ch s IH]; [reflexivity|]. rewrite append_cons_l, IH. reflexivity. Qed.

Lemma index_hash_app p f :
  String.index 0 "#" p = None ->
  String.index 0 "#" (p ++ String "#" f) = Some (String.length p).
Proof.
  induction p as [|ch p IH]; intros H.
  - rewrite append_nil_l, index_hash_cons. reflexivity.
  - rewrite index_hash_cons in H. rewrite append_cons_l. cbn [String.length].
    rewrite index_hash_cons.
    destruct (Ascii.eqb ch "#"); [discriminate|].
    destruct (String.index 0 "#" p); [discriminate|].
    rewrite IH by reflexivity. reflexivity.
Qed.

Lemma substring_app_length p r :
  String.substring 0 (String.length p) (p ++ r) = p.
Proof.
  induction p as [|ch p IH].
  - rewrite append_nil_l. destruct r; reflexivity.
  - rewrite append_cons_l. cbn [String.length String.substring].
    rewrite IH. reflexivity.
Qed.

Lemma normalizeURL_strip p f :
  p <> "" -> String.index 0 "#" p = None ->
  normalizeURL (p ++ String "#" f) = p.
Proof.
  intros Hp Hn. unfold normalizeURL, strings_Index, slice_to.
  rewrite index_hash_app by assumption.
  destruct p as [|ch p]; [congruence|].
  replace (0 <? Z.of_nat (String.length (String ch p))) with true
    by (symmetry; apply Z.ltb_lt; cbn [String.length]; lia).
  rewrite Nat2Z.id. apply substring_app_length.
Qed.

Lemma substring_split s n :
  exists r, s = String.substring 0 n s ++ r /\
            (String.index 0 "#" s = Some n -> exists f, r = String "#" f).
Proof.
  revert n. induction s as [|ch s IH]; intros n.
  - exists "". destruct n; split; try reflexivity; discriminate.
  - destruct n as [|n].
    + exists (String ch s). split; [reflexivity|].
      rewrite index_hash_cons. destruct (Ascii.eqb_spec ch "#") as [->|?].
      * eauto.
      * destruct (String.index 0 "#" s); discriminate.
    + destruct (IH n) as (r & Hr & Hf). exists r. split.
      * cbn [String.substring]. rewrite append_cons_l. congruence.
      * rewrite index_hash_cons. destruct (Ascii.eqb ch "#"); [discriminate|].
        destruct (String.index 0 "#" s); [|discriminate].
        intros [= ->]. auto.
Qed.

Lemma normalizeURL_prefix u :
  exists r, u = normalizeURL u ++ r /\ (r = "" \/ exists f, r = String "#" f).
Proof.
  unfold normalizeURL, strings_Index, slice_to.
  destruct (String.index 0 "#" u) as [n|] eqn:En.
  - destruct (0 <? Z.of_nat n) eqn:Hlt.
    + rewrite Nat2Z.id. destruct (substring_split u n) as (r & Hr & Hf).
      exists r. split; [exact Hr|]. right. auto.
    + exists "". split; [|by left]. by rewrite append_nil_r.
  - exists "". split; [|by left]. by rewrite append_nil_r.
Qed.

(** C8, as stated, fails: a reference that starts with '#' is kept whole
    (the guard is [i > 0]), so "#a" and "#b" stay different keys. *)
Lemma C8_fragment_only_counterexample : ~ fragments_collapse.
Proof.
  intros H. specialize (H "" "a" "b" eq_refl). vm_compute in H. discriminate.
Qed.

(** C8, amended: normalizeURL is idempotent on every string; it returns a
    prefix of its argument and what it drops starts with '#'; a string
    without '#' (whatever its query or trailing slash) is returned as it
    is; and two URLs with the same non-empty fragment-free part [p] get
    the key [p], with or without fragments. *)
Theorem C8_normalizeURL_idempotent_strips_fragment :
  (forall u, normalizeURL (normalizeURL u) = normalizeURL u) /\
  (forall u, exists r, u = normalizeURL u ++ r /\
                       (r = "" \/ exists f, r = String "#" f)) /\
  (forall u, String.index 0 "#" u = None -> normalizeURL u = u) /\
  (forall p f1 f2, p <> "" -> String.index 0 "#" p = None ->
     normalizeURL (p ++ String "#" f1) = p /\
     normalizeURL (p ++ String "#" f2) = p /\
     normalizeURL p = p).
Proof.
  split; [exact normalizeURL_idem|].
  split; [exact normalizeURL_prefix|].
  split; [exact normalizeURL_no_hash|].
  intros p f1 f2 Hp Hn.
  split; [|split]; auto using normalizeURL_strip, normalizeURL_no_hash.
Qed.

Lemma C8_witness :
  normalizeURL ("https://x.test/a/?q=1" ++ String "#" "top")
    = "https://x.test/a/?q=1" /\
  normalizeURL ("https://x.test/a/?q=1" ++ String "#" "end")
    = "https://x.test/a/?q=1" /\
  normalizeURL "https://x.test/a/?q=1" = "https://x.test/a/?q=1".
Proof.
  apply (proj2 (proj2 (proj2 C8_normalizeURL_idempotent_strips_fragment))).
  - discriminate.
  - reflexivity.
Defined.

Local Close Scope string_scope.

(** ** Lists *)

Lemma countb_app {A} (f : A -> bool) l1 l2 :
  countb f (l1 ++ l2) = (countb f l1 + countb f l2)%nat.
Proof. induction l1 as [|x l1 IH]; cbn; [reflexivity|]. rewrite IH. lia. Qed.

Lemma countb_insert {A} (f : A -> bool) (l : list A) i x y :
  l !! i = Some x ->
  (countb f (<[i := y]> l) + (if f x then 1 else 0) =
   countb f l + (if f y then 1 else 0))%nat.
Proof.
  revert i. induction l as [|z l IH]; intros [|i] H; try discriminate.
  - injection H as ->. simpl. destruct (f x), (f y); lia.
  - simpl in H |- *. specialize (IH i H).
    destruct (f x), (f y), (f z); lia.
Qed.

Lemma countb_zero {A} (f : A -> bool) (l : list A) i x :
  countb f l = 0%nat -> l !! i = Some x -> f x = false.
Proof.
  revert i. induction l as [|z l IH]; intros [|i] H0 H; try discriminate.
  - injection H as ->. simpl in H0. destruct (f x); [lia|reflexivity].
  - simpl in H0, H. apply (IH i); [lia|assumption].
Qed.

Lemma countb_all_false {A} (f : A -> bool) (l : list A) :
  (forall x, x ∈ l -> f x = false) -> countb f l = 0%nat.
Proof.
  induction l as [|z l IH]; intros H; [reflexivity|]. cbn.
  rewrite (H z) by constructor. rewrite IH; [reflexivity|].
  intros x Hx. apply H. by constructor.
Qed.


Section EngineFacts.

Context {net : Net}.

(** ** Runs *)

Lemma run_app sched1 sched2 s :
  run (sched1 ++ sched2) s =
  match run sched1 s with
  | None => None
  | Some s' => run sched2 s'
  end.
Proof.
  revert s. induction sched1 as [|tid sched1 IH]; intros s; cbn; [reflexivity|].
  destruct (step tid s); [apply IH|reflexivity].
Qed.

Lemma run_snoc sched tid s s' s'' :
  run sched s = Some s' -> step tid s' = Some s'' ->
  run (sched ++ [tid]) s = Some s''.
Proof. intros H1 H2. rewrite run_app, H1. cbn. by rewrite H2. Qed.

(** Induction over the states of a run. *)
Lemma run_ind (P : state -> Prop) s0 :
  P s0 ->
  (forall tid s s', P s -> step tid s = Some s' -> P s') ->
  forall sched s, run sched s0 = Some s -> P s.
Proof.
  intros H0 Hstep sched. revert s0 H0.
  induction sched as [|tid sched IH]; intros s0 H0 s; cbn.
  - intros [= <-]. exact H0.
  - destruct (step tid s0) as [s1|] eqn:E; [|discriminate].
    apply IH. eapply Hstep; eassumption.
Qed.

Lemma enabled_nil s : enabled s = [] -> forall tid, step tid s = None.
Proof.
  intros He tid. destruct (step tid s) as [s'|] eqn:E; [|reflexivity].
  assert (Hlt : (tid < length (tasks s))%nat).
  { unfold step in E. destruct (tasks s !! tid) eqn:Ht; [|discriminate].
    eapply lookup_lt_Some; eassumption. }
  assert (Hin : tid ∈ enabled s).
  { unfold enabled. apply list_elem_of_filter. split.
    - rewrite E. eauto.
    - apply elem_of_seq. lia. }
  rewrite He in Hin. by apply not_elem_of_nil in Hin.
Qed.


(** ** The invariants are kept by every step *)

Lemma step_crawler_const tid s s' :
  step tid s = Some s' ->
  baseURL (crawler s') = baseURL (crawler s) /\
  maxDepth (crawler s') = maxDepth (crawler s) /\
  timeout (crawler s') = timeout (crawler s) /\
  delay (crawler s') = delay (crawler s) /\
  chan_cap (semaphore (crawler s')) = chan_cap (semaphore (crawler s)).
Proof. intros Hstep. step_inv Hstep; auto. Qed.

Lemma step_length tid s s' :
  step tid s = Some s' -> (length (tasks s) <= length (tasks s'))%nat.
Proof.
  intros Hstep. step_inv Hstep;
    rewrite ?length_app, ?length_insert; lia.
Qed.

Lemma step_inv_mutex tid s s' :
  step tid s = Some s' -> inv_mutex s -> inv_mutex s'.
Proof.
  intros Hstep (Hinv & Hv & Hp). step_inv Hstep.
  all: pose proof (proj1 (Hinv _ _ Ht)) as Htv;
       pose proof (proj2 (Hinv _ _ Ht)) as Htp;
       rewrite Hpc in Htv, Htp; simpl in Htv, Htp.
  all: assert (Htid : (tid < length (tasks s))%nat)
         by (eapply lookup_lt_Some; eassumption).
  all: (split; [|split]); simpl;
       [ intros j tj Hj; lookup_cases Hj;
         try (pose proof (Hinv _ _ Hj) as Hj'); simpl
       | intros h Hh; rewrite ?length_app, ?length_insert
       | intros h Hh; rewrite ?length_app, ?length_insert ].
  all: rewrite ?length_insert in *.
  all: try solve [intuition congruence].
  all: try solve [simplify_eq; try (apply Hv in Hh); try (apply Hp in Hh); lia].
  all: try solve [split; (split; [discriminate|]); intros Hh;
                  [apply Hv in Hh|apply Hp in Hh]; lia].
Qed.

Lemma countb_children (f : task -> bool) tid t (links : list string) :
  (forall u, f (child tid t u) = false) ->
  countb f (child tid t <$> links) = 0%nat.
Proof.
  intros H. apply countb_all_false. intros x Hx.
  apply list_elem_of_fmap in Hx as (u & -> & _). apply H.
Qed.

Lemma step_inv_sem tid s s' :
  step tid s = Some s' -> inv_sem s -> inv_sem s'.
Proof.
  intros Hstep (Hcap & Hlen & Hle). step_inv Hstep.
  all: pose proof (fun p => countb_insert slot_held _ _ _ (set_pc t p) Ht) as Hc.
  all: unfold inv_sem; simpl; rewrite ?countb_app.
  all: rewrite ?countb_children by reflexivity.
  all: try match goal with
       | |- context [countb slot_held (<[_ := set_pc _ ?p]> _)] =>
           specialize (Hc p)
       end.
  all: unfold slot_held in *; rewrite Hpc in Hc; simpl in Hc.
  all: try match goal with
       | H : (_ <? _)%nat = true |- _ => apply Nat.ltb_lt in H
       end.
  all: repeat split; try lia.
Qed.

Lemma acquisitions_snoc j tr e :
  acquisitions j (tr ++ [e]) =
  (acquisitions j tr + if is_acquire j e then 1 else 0)%nat.
Proof. unfold acquisitions. rewrite countb_app. simpl. lia. Qed.

Lemma releases_snoc j tr e :
  releases j (tr ++ [e]) = (releases j tr + if is_release j e then 1 else 0)%nat.
Proof. unfold releases. rewrite countb_app. simpl. lia. Qed.

Lemma slots_fresh (tr : list (nat * op)) n j :
  (forall e, e ∈ tr -> (fst e < n)%nat) -> (n <= j)%nat ->
  acquisitions j tr = 0%nat /\ releases j tr = 0%nat.
Proof.
  intros H Hj. split; apply countb_all_false; intros [i o] Hx;
    apply H in Hx; simpl in Hx; unfold is_acquire, is_release; simpl;
    destruct o; try reflexivity; apply Nat.eqb_neq; lia.
Qed.

Lemma step_inv_slots tid s s' :
  step tid s = Some s' -> inv_slots s -> inv_slots s'.
Proof.
  intros Hstep (Hinv & Hfresh). step_inv Hstep.
  all: pose proof (Hinv _ _ Ht) as Ht'; rewrite Hpc in Ht'; simpl in Ht'.
  all: assert (Htid : (tid < length (tasks s))%nat)
         by (eapply lookup_lt_Some; eassumption).
  all: split; simpl;
       [ intros j tj Hj; lookup_cases Hj;
         try (pose proof (Hinv _ _ Hj) as Hj'); simpl;
         rewrite ?acquisitions_snoc, ?releases_snoc;
         unfold is_acquire, is_release; simpl
       | intros e He; rewrite ?length_app, ?length_insert;
         try (apply elem_of_app in He as [He|He];
              [|apply list_elem_of_singleton in He as ->; simpl; lia]);
         apply Hfresh in He; lia ].
  all: rewrite ?Nat.eqb_refl.
  all: try replace (tid =? j)%nat with false by (symmetry; apply Nat.eqb_neq; lia).
  all: rewrite ?Nat.add_0_r.
  all: try assumption.
  all: try solve [simpl; lia].
  rewrite length_insert in *. eapply slots_fresh; eassumption.
Qed.

Lemma step_inv_depth tid s s' :
  step tid s = Some s' -> inv_depth s -> inv_depth s'.
Proof.
  intros Hstep [Htask Hpage]. step_inv Hstep.
  all: pose proof (Htask _ _ Ht) as Ht'; rewrite Hpc in Ht'; simpl in Ht'.
  all: try match goal with
       | H : (_ <? _) = false |- _ => apply Z.ltb_ge in H
       end.
  all: split; simpl;
       [ intros j tj Hj Hpast; lookup_cases Hj; simpl in *;
         try discriminate; eauto
       | intros p Hp; try (apply elem_of_app in Hp as [Hp|Hp];
           [|apply list_elem_of_singleton in Hp as ->; simpl]); eauto ].
Qed.

Lemma map_true_insert (m : gmap string bool) n u :
  map_true (<[n := true]> m) u <-> u = n \/ map_true m u.
Proof.
  unfold map_true, map_get. destruct (decide (n = u)) as [->|Hne].
  - rewrite lookup_insert_eq. simpl. tauto.
  - rewrite lookup_insert_ne by assumption. split; [tauto|].
    intros [->|?]; [congruence|assumption].
Qed.

Lemma inserted_snoc tr tid o :
  inserted (tr ++ [(tid, o)]) =
  inserted tr ++ match o with OpInsert u => [u] | _ => [] end.
Proof. unfold inserted. rewrite omap_app. simpl. by destruct o. Qed.

Lemma fetched_snoc tr tid o :
  fetched (tr ++ [(tid, o)]) =
  fetched tr ++ match o with OpDo u r => [(u, r)] | _ => [] end.
Proof. unfold fetched. rewrite omap_app. simpl. by destruct o. Qed.

Lemma appended_snoc tr tid o :
  appended (tr ++ [(tid, o)]) =
  appended tr ++ match o with OpAppend p => [p] | _ => [] end.
Proof. unfold appended. rewrite omap_app. simpl. by destruct o. Qed.

Lemma step_inv_visit tid s s' :
  step tid s = Some s' -> inv_mutex s -> inv_visit s -> inv_visit s'.
Proof.
  intros Hstep (Hmux & _ & _) Hinv. step_inv Hstep.
  all: pose proof (proj1 (Hmux _ _ Ht)) as Htm; rewrite Hpc in Htm; simpl in Htm.
  all: pose proof (iv_set _ Hinv _ _ Ht) as Ht1;
       pose proof (iv_owner _ Hinv _ _ Ht) as Ht2;
       pose proof (iv_before _ Hinv _ _ Ht) as Ht3;
       rewrite Hpc in Ht1, Ht2, Ht3; simpl in Ht1, Ht2, Ht3.
  all: split; simpl;
       rewrite ?inserted_snoc, ?fetched_snoc, ?appended_snoc; simpl;
       rewrite ?app_nil_r.
  all: try solve [apply Hinv].
  all: try solve
    [ intros j tj Hj Hq; lookup_cases Hj; simpl in Hq; try discriminate Hq;
      first [ exact (iv_set _ Hinv _ _ Hj Hq)
            | exact (iv_owner _ Hinv _ _ Hj Hq)
            | exact (iv_before _ Hinv _ _ Hj Hq)
            | auto ] ].
  all: assert (Hsub : forall p, before_request p = true -> owns_url p = true)
         by (intros []; simpl; congruence).
  all: try solve
    [ intros i j ti tj Hi Hj Hoi Hoj Hn;
      lookup_cases Hi; lookup_cases Hj; simpl in Hoi, Hoj, Hn;
      try discriminate; try reflexivity; try lia;
      first
        [ exact (iv_unique _ Hinv _ _ _ _ Hi Hj Hoi Hoj Hn)
        | eapply (iv_unique _ Hinv _ _ _ _ Ht Hj);
          [rewrite Hpc; reflexivity | assumption | assumption]
        | eapply (iv_unique _ Hinv _ _ _ _ Hi Ht);
          [assumption | rewrite Hpc; reflexivity | assumption]
        | exfalso; specialize (Ht1 eq_refl);
          first [ destruct (iv_owner _ Hinv _ _ Hj Hoj) as (Hv & _)
                | destruct (iv_owner _ Hinv _ _ Hi Hoi) as (Hv & _) ];
          unfold map_true, normalized in *; simpl in *; congruence ] ].
  all: try solve
    [ intros j tj Hj Hq; lookup_cases Hj; simpl in Hq; try discriminate Hq;
      try (destruct (Ht2 eq_refl) as (? & ? & ?));
      try (destruct (iv_owner _ Hinv _ _ Hj Hq) as (? & ? & ?));
      repeat split; try assumption; apply elem_of_app; by left ].
  (* PSet: the URL goes into the map *)
  - intros j tj Hj Hq. lookup_cases Hj; [discriminate|].
    exfalso. destruct (Hmux _ _ Hj) as [Hjm _]. rewrite Hq in Hjm.
    pose proof (proj1 Htm eq_refl). pose proof (proj1 Hjm eq_refl). congruence.
  - specialize (Ht1 eq_refl).
    intros j tj Hj Hq. rewrite map_true_insert. lookup_cases Hj.
    + split; [by left|]. split; [|apply elem_of_app; right; by constructor].
      intros Hin. apply (iv_pages_visited _ Hinv) in Hin.
      unfold map_true, normalized in *. simpl in *. congruence.
    + destruct (iv_owner _ Hinv _ _ Hj Hq) as (? & ? & ?).
      repeat split; auto. apply elem_of_app; by left.
  - specialize (Ht1 eq_refl).
    intros j tj Hj Hq. lookup_cases Hj.
    + intros Hin. apply (iv_fetched _ Hinv) in Hin.
      unfold map_true, normalized in *. simpl in *. congruence.
    + exact (iv_before _ Hinv _ _ Hj Hq).
  - intros u. rewrite elem_of_app, list_elem_of_singleton, map_true_insert.
    rewrite (iv_inserted _ Hinv). tauto.
  - apply NoDup_app. split; [apply Hinv|]. split; [|apply NoDup_singleton].
    intros u Hu ->%list_elem_of_singleton. apply (iv_inserted _ Hinv) in Hu.
    specialize (Ht1 eq_refl). unfold map_true, normalized in *. congruence.
  - intros u Hu. apply map_true_insert. right. by apply (iv_fetched _ Hinv).
  - intros u Hu. apply map_true_insert. right.
    by apply (iv_pages_visited _ Hinv).
  (* PRequest: the request is sent *)
  - intros j tj Hj Hq. lookup_cases Hj; [discriminate|].
    rewrite fmap_app. apply not_elem_of_app. split.
    + exact (iv_before _ Hinv _ _ Hj Hq).
    + simpl. intros Hin%list_elem_of_singleton.
      assert (j = tid); [|congruence].
      eapply (iv_unique _ Hinv _ _ _ _ Hj Ht); auto.
      rewrite Hpc. reflexivity.
  - intros u. rewrite fmap_app, elem_of_app. simpl.
    intros [Hu| ->%list_elem_of_singleton]; [by apply (iv_fetched _ Hinv)|].
    apply (Ht2 eq_refl).
  - rewrite fmap_app. apply NoDup_app. split; [apply Hinv|].
    split; [|apply NoDup_singleton].
    intros u Hu ->%list_elem_of_singleton. by apply (Ht3 eq_refl).
  (* PAppend: the page is appended *)
  - intros j tj Hj Hq. lookup_cases Hj; [discriminate|].
    destruct (iv_owner _ Hinv _ _ Hj Hq) as (? & ? & ?).
    split; [assumption|]. split; [|apply elem_of_app; by left].
    rewrite fmap_app. apply not_elem_of_app. split; [assumption|].
    simpl. intros Hin%list_elem_of_singleton.
    assert (j = tid); [|congruence].
    eapply (iv_unique _ Hinv _ _ _ _ Hj Ht); auto.
    rewrite Hpc. reflexivity.
  - f_equal. apply Hinv.
  - intros u. rewrite fmap_app, elem_of_app. simpl.
    intros [Hu| ->%list_elem_of_singleton];
      [by apply (iv_pages_visited _ Hinv)|].
    apply (Ht2 eq_refl).
  - rewrite fmap_app. apply NoDup_app. split; [apply Hinv|].
    split; [|apply NoDup_singleton].
    intros u Hu ->%list_elem_of_singleton. by apply (Ht2 eq_refl).
Qed.

Lemma snoc_split {A} (tr tr1 tr2 : list A) x e :
  tr ++ [x] = tr1 ++ e :: tr2 ->
  (tr2 = [] /\ tr1 = tr /\ e = x) \/
  (exists tr2', tr2 = tr2' ++ [x] /\ tr = tr1 ++ e :: tr2').
Proof.
  destruct tr2 as [|y tr2' _] using rev_ind; intros H.
  - left. apply app_inj_tail in H as [-> ->]. auto.
  - right. exists tr2'.
    rewrite app_comm_cons, app_assoc in H.
    by apply app_inj_tail in H as [-> ->].
Qed.

Lemma step_inv_trace tid s s' :
  step tid s = Some s' -> inv_visit s -> inv_trace s -> inv_trace s'.
Proof.
  intros Hstep Hvis Hinv. step_inv Hstep.
  all: pose proof (fun r => it_pending _ Hinv _ _ r Ht) as Ht1;
       pose proof (iv_owner _ Hvis _ _ Ht) as Ht2;
       rewrite Hpc in Ht1, Ht2; simpl in Ht1, Ht2.
  all: split; simpl.
  all: try solve [apply Hinv].
  all: try solve
    [ intros j tj r' Hj Hq; lookup_cases Hj; simpl in Hq; try discriminate Hq;
      try (apply elem_of_app; left);
      first [ exact (it_pending _ Hinv _ _ _ Hj Hq) | auto ] ].
  all: try solve
    [ intros tr1 j u r' tr2 Hsplit;
      apply snoc_split in Hsplit as [(-> & -> & Heq)|(tr2' & -> & Hsplit)];
      [ try discriminate Heq; injection Heq as <- <- <-; apply (Ht2 eq_refl)
      | exact (it_do _ Hinv _ _ _ _ _ Hsplit) ] ].
  all: try solve
    [ intros tr1 j u tr2 Hsplit;
      apply snoc_split in Hsplit as [(-> & -> & Heq)|(tr2' & -> & Hsplit)];
      [ try discriminate Heq; injection Heq as <- <-; simpl; eauto
      | exact (it_append _ Hinv _ _ _ _ Hsplit) ] ].
  - intros j tj r' Hj Hq. lookup_cases Hj.
    + injection Hq as <-. apply elem_of_app. right. by constructor.
    + apply elem_of_app. left. exact (it_pending _ Hinv _ _ _ Hj Hq).
  - intros tr1 j u r' tr2 Hsplit.
    apply snoc_split in Hsplit as [(-> & -> & Heq)|(tr2' & -> & Hsplit)].
    + simplify_eq. apply (Ht2 eq_refl).
    + exact (it_do _ Hinv _ _ _ _ _ Hsplit).
  - intros j tj r' Hj Hq. lookup_cases Hj.
    + injection Hq as <-. apply Ht1. f_equal. f_equal.
      destruct (Z.eqb_spec StatusCode 200); [done|discriminate].
    + exact (it_pending _ Hinv _ _ _ Hj Hq).
  - intros tr1 j u tr2 Hsplit.
    apply snoc_split in Hsplit as [(-> & -> & Heq)|(tr2' & -> & Hsplit)].
    + simplify_eq. simpl. exists doc. by apply Ht1.
    + exact (it_append _ Hinv _ _ _ _ Hsplit).
Qed.

(** A step keeps the goroutines there are, and all of them but the one
    that moves as they are; of that one it changes the program point. *)
Lemma step_lookup tid s s' j tj :
  step tid s = Some s' -> tasks s !! j = Some tj ->
  exists tj', tasks s' !! j = Some tj' /\
    t_url tj' = t_url tj /\ t_depth tj' = t_depth tj /\
    t_baseDomain tj' = t_baseDomain tj /\ t_parent tj' = t_parent tj /\
    (j <> tid -> tj' = tj).
Proof.
  intros Hstep Hj.
  assert (Hlt : (j < length (tasks s))%nat) by (eapply lookup_lt_Some; eauto).
  step_inv Hstep.
  all: try (rewrite lookup_app_l by (rewrite length_insert; lia)).
  all: destruct (decide (j = tid)) as [->|Hne];
       [ rewrite list_lookup_insert_eq by assumption;
         eexists; split; [reflexivity|]; simplify_eq; simpl; tauto
       | rewrite list_lookup_insert_ne by congruence; eauto 10 ].
Qed.

Lemma step_inv_seed tid s s' :
  step tid s = Some s' -> inv_visit s -> inv_seed s -> inv_seed s'.
Proof.
  intros Hstep Hvis [Hroot Hphase].
  pose proof (step_crawler_const _ _ _ Hstep) as (Hb & _).
  split.
  { destruct Hroot as (t0 & H0 & Hu & Hd & Hp).
    destruct (step_lookup _ _ _ _ _ Hstep H0) as (t0' & ? & ? & ? & ? & ? & ?).
    exists t0'. rewrite Hb. repeat split; congruence. }
  destruct Hroot as (t0 & H0 & Hu & Hd & Hp).
  destruct Hphase as [(Hlen & Hpages & Hvisited & Hpre)|(Hn0 & Hown & Hpg)].
  - (* goroutine 0 is alone *)
    assert (tid = 0%nat) as ->.
    { unfold step in Hstep. destruct (tasks s !! tid) eqn:E; [|discriminate].
      apply lookup_lt_Some in E. lia. }
    specialize (Hpre _ H0).
    step_inv Hstep; simplify_eq; rewrite Hpc in Hpre; try discriminate Hpre.
    all: try match goal with
         | H : map_get _ _ = true |- _ => rewrite Hvisited in H; discriminate H
         end.
    all: try solve
      [ left; rewrite length_insert; repeat split; try assumption;
        intros t0' H0'; rewrite list_lookup_insert_eq in H0' by lia;
        by simplify_eq ].
    right. split; [|split].
    + apply map_true_insert. left. congruence.
    + intros j tj Hj _ _.
      assert (j = 0%nat) as ->.
      { apply lookup_lt_Some in Hj. rewrite length_insert in Hj. lia. }
      rewrite list_lookup_insert_eq in Hj by lia. by simplify_eq.
    + rewrite Hpages. intros p Hp'. by apply not_elem_of_nil in Hp'.
  - (* the seed is in the map *)
    right. rewrite Hb. step_inv Hstep.
    all: pose proof (iv_set _ Hvis _ _ Ht) as Ht1;
         pose proof (Hown _ _ Ht) as Ht2;
         rewrite Hpc in Ht1, Ht2; simpl in Ht1, Ht2.
    all: (split; [|split]); simpl;
         [ try assumption; try (apply map_true_insert; by right)
         | intros j tj Hj Hq Hn; lookup_cases Hj; simpl in Hq, Hn;
           try discriminate Hq; eauto
         | intros p Hp'; try (apply elem_of_app in Hp' as [Hp'|Hp'];
             [|apply list_elem_of_singleton in Hp' as ->; simpl]); eauto ].
    exfalso. specialize (Ht1 eq_refl). unfold map_true, normalized in *.
    simpl in Hn. congruence.
Qed.

Lemma step_inv_depth0 tid s s' :
  step tid s = Some s' -> maxDepth (crawler s) = 0 ->
  inv_depth s -> inv_depth0 s -> inv_depth0 s'.
Proof.
  intros Hstep Hmax Hdep [Htask Hpage].
  pose proof (step_crawler_const _ _ _ Hstep) as (Hb & _).
  split; rewrite Hb; clear Hb; step_inv Hstep.
  all: pose proof (Htask _ _ Ht) as [Ht0 Ht1];
       pose proof (id_task _ Hdep _ _ Ht) as Ht2;
       rewrite Hpc, Hmax in Ht2; simpl in Ht2.
  all: assert (Htid : (tid < length (tasks s))%nat)
         by (eapply lookup_lt_Some; eassumption).
  all: try solve
    [ intros j tj Hj; lookup_cases Hj; simpl;
      first [ exact (Htask _ _ Hj) | tauto ] ].
  all: try solve
    [ intros p Hp; try (apply elem_of_app in Hp as [Hp|Hp];
        [|apply list_elem_of_singleton in Hp as ->; simpl]); eauto ].
  - specialize (Ht2 eq_refl).
    assert (tid = 0%nat) as -> by (destruct (decide (tid = 0%nat)); [done|]; lia).
    destruct (Ht0 eq_refl) as [Hd Hu].
    intros j tj Hj. lookup_cases Hj; simpl.
    + tauto.
    + exact (Htask _ _ Hj).
    + rewrite length_insert in *. rewrite Hd. split; [lia|reflexivity].
  - specialize (Ht2 eq_refl).
    assert (tid = 0%nat) as -> by (destruct (decide (tid = 0%nat)); [done|]; lia).
    destruct (Ht0 eq_refl) as [Hd Hu].
    intros p Hp. apply elem_of_app in Hp as [Hp|Hp]; [by apply Hpage|].
    apply list_elem_of_singleton in Hp as ->. simpl. by rewrite Hu.
Qed.

Lemma wg_get_insert (w : gmap nat nat) i n j :
  wg_get (<[i := n]> w) j = if decide (i = j) then n else wg_get w j.
Proof.
  unfold wg_get. destruct (decide (i = j)) as [->|Hne].
  - by rewrite lookup_insert_eq.
  - by rewrite lookup_insert_ne.
Qed.

Lemma countb_live_children p tid t (links : list string) :
  countb (live_child p) (child tid t <$> links) =
  if decide (p = tid) then length links else 0%nat.
Proof.
  induction links as [|u links IH]; csimpl.
  - by destruct (decide (p = tid)).
  - rewrite IH. unfold live_child at 1. simpl.
    destruct (decide (p = tid)) as [->|Hne].
    + rewrite bool_decide_eq_true_2 by reflexivity. reflexivity.
    + rewrite bool_decide_eq_false_2 by congruence. reflexivity.
Qed.

Lemma live_child_ge s tid t p :
  inv_wg s -> tasks s !! tid = Some t -> (tid <= p)%nat ->
  live_child p t = false.
Proof.
  intros Hinv Ht Hle. unfold live_child.
  rewrite bool_decide_eq_false_2; [reflexivity|].
  destruct (decide (tid = 0%nat)) as [->|Hne].
  - destruct (iw_root _ Hinv) as (t0 & H0 & Hp). congruence.
  - destruct (iw_parent _ Hinv _ _ Ht Hne) as (q & Hq & Hlt).
    rewrite Hq. intros [= ->]. lia.
Qed.

Lemma live_count_fresh s p :
  inv_wg s -> (length (tasks s) <= p)%nat ->
  countb (live_child p) (tasks s) = 0%nat.
Proof.
  intros Hinv Hle. apply countb_all_false. intros t Ht.
  apply list_elem_of_lookup in Ht as [i Hi].
  eapply live_child_ge; [eassumption..|].
  apply lookup_lt_Some in Hi. lia.
Qed.

Lemma live_child_other p t q :
  t_parent t = q -> q <> Some p -> live_child p t = false.
Proof.
  intros <- Hne. unfold live_child. by rewrite bool_decide_eq_false_2.
Qed.

Lemma countb_live_set_pc p (l : list task) tid t q :
  l !! tid = Some t -> finished (t_pc t) = finished q ->
  countb (live_child p) (<[tid := set_pc t q]> l) = countb (live_child p) l.
Proof.
  intros Ht Hf.
  pose proof (countb_insert (live_child p) _ _ _ (set_pc t q) Ht) as H.
  assert (live_child p (set_pc t q) = live_child p t) as Hl
    by (unfold live_child; simpl; by rewrite Hf).
  rewrite Hl in H. destruct (live_child p t); lia.
Qed.

Lemma countb_live_finish p (l : list task) tid t r :
  l !! tid = Some t -> finished (t_pc t) = false ->
  (countb (live_child p) (<[tid := set_pc t (PDone r)]> l) +
   (if bool_decide (t_parent t = Some p) then 1 else 0))%nat =
  countb (live_child p) l.
Proof.
  intros Ht Hf.
  pose proof (countb_insert (live_child p) _ _ _ (set_pc t (PDone r)) Ht) as H.
  assert (live_child p (set_pc t (PDone r)) = false) as Hl
    by (unfold live_child; simpl; apply andb_false_r).
  assert (live_child p t = bool_decide (t_parent t = Some p)) as Hl'
    by (unfold live_child; rewrite Hf; apply andb_true_r).
  rewrite Hl, Hl' in H. lia.
Qed.

Lemma step_inv_wg tid s s' :
  step tid s = Some s' -> inv_wg s -> inv_wg s'.
Proof.
  intros Hstep Hinv. split.
  { destruct (iw_root _ Hinv) as (t0 & H0 & Hp).
    destruct (step_lookup _ _ _ _ _ Hstep H0) as (t0' & ? & ? & ? & ? & ? & ?).
    exists t0'. split; congruence. }
  { step_inv Hstep.
    all: assert (Htid : (tid < length (tasks s))%nat)
           by (eapply lookup_lt_Some; eassumption).
    all: intros j tj Hj Hne; lookup_cases Hj; simpl;
         first [ exact (iw_parent _ Hinv _ _ Hj Hne)
               | exact (iw_parent _ Hinv _ _ Ht Hne)
               | idtac ].
    rewrite length_insert in *. exists tid. split; [reflexivity|lia]. }
  step_inv Hstep.
  all: assert (Htid : (tid < length (tasks s))%nat)
         by (eapply lookup_lt_Some; eassumption).
  all: pose proof (iw_count _ Hinv _ _ Ht) as Hct; rewrite Hpc in Hct;
       simpl in Hct.
  all: pose proof (live_child_ge _ _ _ tid Hinv Ht (le_n _)) as Hself.
  all: intros p tp Hp.
  all: rewrite ?countb_app, ?countb_live_children, ?wg_get_insert.
  all: try (rewrite countb_live_set_pc by (try rewrite Hpc; done)).
  all: try solve
    [ lookup_cases Hp; simpl;
      first [ exact (iw_count _ Hinv _ _ Hp) | assumption ] ].
  - (* PSpawn *)
    lookup_cases Hp; simpl.
    + rewrite !decide_True by reflexivity. lia.
    + rewrite !decide_False by congruence.
      rewrite Nat.add_0_r. exact (iw_count _ Hinv _ _ Hp).
    + rewrite length_insert in *. rewrite decide_False by lia.
      rewrite live_count_fresh by (assumption || lia). reflexivity.
  - (* PWait *)
    apply Nat.eqb_eq in Heqb.
    lookup_cases Hp; simpl; [lia|exact (iw_count _ Hinv _ _ Hp)].
  - (* PReturn, in a spawned goroutine *)
    pose proof (countb_live_finish p _ _ _ ret Ht) as Hc.
    rewrite Hpc in Hc. specialize (Hc eq_refl).
    unfold live_child in Hself. rewrite Hpc, andb_true_r in Hself.
    lookup_cases Hp; simpl.
    + rewrite Hself in Hc. lia.
    + pose proof (iw_count _ Hinv _ _ Hp) as Hcp.
      destruct (decide (n = p)) as [->|Hnp].
      * rewrite bool_decide_eq_true_2 in Hc by assumption.
        destruct (is_wait (t_pc tp)); lia.
      * rewrite bool_decide_eq_false_2 in Hc by congruence.
        destruct (is_wait (t_pc tp)); lia.
  - (* PReturn, back in Crawl *)
    pose proof (countb_live_finish p _ _ _ ret Ht) as Hc.
    rewrite Hpc in Hc. specialize (Hc eq_refl).
    rewrite bool_decide_eq_false_2 in Hc by congruence.
    lookup_cases Hp; simpl.
    + lia.
    + pose proof (iw_count _ Hinv _ _ Hp) as Hcp. lia.
Qed.

(** A link is followed only if it parses and its hostname is the base
    domain, and never when it ends in .pdf or .zip. *)
Lemma follow_Some normalizedURL baseDomain a u :
  follow normalizedURL baseDomain a = Some u ->
  exists href p, a = Some href /\
    resolveURL normalizedURL href = Some u /\
    url_Parse u = Some p /\ url_Hostname p = baseDomain /\
    strings_HasSuffix u ".pdf" = false /\ strings_HasSuffix u ".zip" = false.
Proof.
  unfold follow. intros H.
  destruct a as [href|]; [|discriminate].
  destruct (resolveURL normalizedURL href) as [absoluteURL|] eqn:Hr;
    [|discriminate].
  destruct (url_Parse absoluteURL) as [parsedURL|] eqn:Hp; [|discriminate].
  destruct (String.eqb (url_Hostname parsedURL) baseDomain) eqn:Hh;
    [|discriminate].
  destruct (strings_HasSuffix absoluteURL ".pdf") eqn:Hpdf; [discriminate|].
  destruct (strings_HasSuffix absoluteURL ".zip") eqn:Hzip; [discriminate|].
  simpl in H. injection H as <-. apply String.eqb_eq in Hh.
  exists href, parsedURL. repeat split; auto.
Qed.

Lemma step_inv_domain bd tid s s' :
  step tid s = Some s' -> inv_domain bd s -> inv_domain bd s'.
Proof.
  intros Hstep [Htask Hpage]. step_inv Hstep.
  all: pose proof (Htask _ _ Ht) as [Htb (pt & Hpt & Hht)].
  all: split; simpl;
       [ intros j tj Hj; lookup_cases Hj; simpl; eauto
       | intros pg Hpg; try (apply elem_of_app in Hpg as [Hpg|Hpg];
           [|apply list_elem_of_singleton in Hpg as ->; simpl]); eauto 10 ].
  match goal with
  | H : omap _ _ !! _ = Some _ |- _ =>
      apply list_elem_of_lookup_2, list_elem_of_omap in H as (a & _ & Hf)
  end.
  apply follow_Some in Hf as (href & p & _ & _ & Hp & Hh & _).
  split; [assumption|]. exists p. split; congruence.
Qed.

Lemma fetched_elem tr tid u r : (tid, OpDo u r) ∈ tr -> (u, r) ∈ fetched tr.
Proof.
  intros H. unfold fetched. apply list_elem_of_omap.
  exists (tid, OpDo u r). auto.
Qed.

Lemma own_failure_snoc n e tr x :
  own_failure n e tr -> own_failure n e (tr ++ [x]).
Proof.
  intros [H|(r & Hr & Hf & Ha)]; [by left|right].
  exists r. split; [|auto]. destruct x as [tid o]. rewrite fetched_snoc.
  apply elem_of_app. by left.
Qed.

Lemma step_inv_errors tid s s' :
  step tid s = Some s' -> inv_trace s -> inv_errors s -> inv_errors s'.
Proof.
  intros Hstep Htr Hinv. unfold inv_errors in *. step_inv Hstep.
  all: pose proof (fun e => Hinv _ _ e Ht) as Ht1;
       pose proof (fun r => it_pending _ Htr _ _ r Ht) as Ht2;
       rewrite Hpc in Ht1, Ht2; simpl in Ht1, Ht2.
  all: intros j tj e Hj Hq; lookup_cases Hj; simpl in Hq;
       try discriminate Hq; try apply own_failure_snoc; eauto.
  all: injection Hq as <-; unfold own_failure, normalized; simpl.
  all: try solve [left; auto].
  all: right; eexists; (split; [eapply fetched_elem, Ht2; reflexivity|]).
  all: (split; [intros doc'; try discriminate|]).
  all: simpl; rewrite ?Heqb; try reflexivity.
  intros [= -> ->]. discriminate Heqb.
Qed.

(** ** The invariants hold in every state of a crawl *)

Lemma map_get_empty u : map_get ∅ u = false.
Proof. unfold map_get. by rewrite lookup_empty. Qed.

Lemma map_true_empty u : map_true ∅ u <-> False.
Proof. unfold map_true. rewrite map_get_empty. split; [discriminate|tauto]. Qed.

Lemma Inv_step c0 bd tid s s' :
  step tid s = Some s' -> Inv c0 bd s -> Inv c0 bd s'.
Proof.
  intros Hstep H.
  pose proof (step_crawler_const _ _ _ Hstep) as (Hb & Hm & _ & Hd & _).
  split.
  - rewrite Hb. apply H.
  - rewrite Hm. apply H.
  - rewrite Hd. apply H.
  - eapply step_inv_mutex; [eassumption|apply H].
  - eapply step_inv_sem; [eassumption|apply H].
  - eapply step_inv_slots; [eassumption|apply H].
  - eapply step_inv_visit; [eassumption|apply H..].
  - eapply step_inv_trace; [eassumption|apply H..].
  - eapply step_inv_depth; [eassumption|apply H].
  - eapply step_inv_seed; [eassumption|apply H..].
  - intros H0. eapply step_inv_depth0; [eassumption| |apply H|by apply H].
    rewrite (I_maxDepth _ _ _ H). exact H0.
  - eapply step_inv_wg; [eassumption|apply H].
  - eapply step_inv_domain; [eassumption|apply H].
  - eapply step_inv_errors; [eassumption|apply H..].
Qed.

Lemma Inv_start b m t d p s0 :
  url_Parse b = Some p -> Crawl_start (New b m t d) = inr s0 ->
  Inv (New b m t d) (url_Hostname p) s0.
Proof.
  intros Hp. unfold Crawl_start. simpl. rewrite Hp. intros [= <-].
  assert (Hone : forall j (tj : task) (x : task), [x] !! j = Some tj ->
                   j = 0%nat /\ tj = x).
  { intros [|j] tj x Hj; simpl in Hj; [by simplify_eq|].
    by rewrite lookup_nil in Hj. }
  split; simpl; try reflexivity.
  - split; [|split]; simpl; [|discriminate..].
    intros j tj Hj. apply Hone in Hj as [-> ->]. simpl.
    split; split; discriminate.
  - split; [reflexivity|]. split; simpl; [reflexivity|lia].
  - split; simpl.
    + intros j tj Hj. apply Hone in Hj as [-> ->]. simpl. auto.
    + intros e He. by apply not_elem_of_nil in He.
  - split; simpl.
    all: try (intros j tj Hj Hq; apply Hone in Hj as [-> ->]; discriminate Hq).
    all: try apply NoDup_nil_2.
    all: try (intros u Hu; by apply not_elem_of_nil in Hu).
    + intros i j ti tj Hi Hj _ _ _.
      apply Hone in Hi as [-> _]. by apply Hone in Hj as [-> _].
    + intros u. split; [intros Hu; by apply not_elem_of_nil in Hu|].
      by rewrite map_true_empty.
    + reflexivity.
  - split; simpl.
    + intros j tj r Hj Hq. apply Hone in Hj as [-> ->]. discriminate Hq.
    + intros [|? tr1] ? ? ? ? H; discriminate H.
    + intros [|? tr1] ? ? ? H; discriminate H.
  - split; simpl.
    + intros j tj Hj Hq. apply Hone in Hj as [-> ->]. discriminate Hq.
    + intros pg Hpg. by apply not_elem_of_nil in Hpg.
  - split; simpl.
    + eexists. split; [reflexivity|]. auto.
    + left. split; [reflexivity|]. split; [reflexivity|].
      split; [intros u; apply map_get_empty|].
      intros t0 [= <-]. reflexivity.
  - intros _. split; simpl.
    + intros j tj Hj. apply Hone in Hj as [-> ->]. simpl. split; [auto|done].
    + intros pg Hpg. by apply not_elem_of_nil in Hpg.
  - split; simpl.
    + eexists. split; reflexivity.
    + intros j tj Hj Hne. apply Hone in Hj as [-> ->]. done.
    + intros j tj Hj. apply Hone in Hj as [-> ->]. reflexivity.
  - split; simpl.
    + intros j tj Hj. apply Hone in Hj as [-> ->]. simpl. eauto.
    + intros pg Hpg. by apply not_elem_of_nil in Hpg.
  - intros j tj e Hj Hq. apply Hone in Hj as [-> ->]. discriminate Hq.
Qed.

Lemma Inv_reachable b m t d s :
  reachable (New b m t d) s ->
  exists p, url_Parse b = Some p /\ Inv (New b m t d) (url_Hostname p) s.
Proof.
  intros (s0 & sched & Hstart & Hrun).
  destruct (url_Parse b) as [p|] eqn:Hp.
  - exists p. split; [reflexivity|].
    eapply (run_ind (Inv (New b m t d) (url_Hostname p))); [| |exact Hrun].
    + by apply Inv_start.
    + intros tid s1 s2 Hs1 Hstep. eapply Inv_step; eassumption.
  - unfold Crawl_start in Hstart. simpl in Hstart. rewrite Hp in Hstart.
    discriminate.
Qed.

(** ** Consequences of the invariants *)

Lemma omap_NoDup_inj {A B} (f : A -> option B) (l : list A) x y u :
  NoDup (omap f l) -> x ∈ l -> y ∈ l -> f x = Some u -> f y = Some u -> x = y.
Proof.
  induction l as [|z l IH]; intros Hnd Hx Hy Hfx Hfy.
  - by apply not_elem_of_nil in Hx.
  - simpl in Hnd. apply elem_of_cons in Hx as [->|Hx];
      apply elem_of_cons in Hy as [->|Hy]; try reflexivity.
    + rewrite Hfx in Hnd. apply NoDup_cons in Hnd as [Hnin _].
      exfalso. apply Hnin. apply list_elem_of_omap. eauto.
    + rewrite Hfy in Hnd. apply NoDup_cons in Hnd as [Hnin _].
      exfalso. apply Hnin. apply list_elem_of_omap. eauto.
    + apply IH; try assumption.
      destruct (f z); [by apply NoDup_cons in Hnd as [_ ?]|assumption].
Qed.

Lemma NoDup_fst_fun {A B} (l : list (A * B)) x y1 y2 :
  NoDup (fst <$> l) -> (x, y1) ∈ l -> (x, y2) ∈ l -> y1 = y2.
Proof.
  induction l as [|[a b] l IH]; intros Hnd H1 H2.
  - by apply not_elem_of_nil in H1.
  - rewrite fmap_cons in Hnd. apply NoDup_cons in Hnd as [Hnin Hnd].
    simpl in Hnin.
    apply elem_of_cons in H1 as [H1|H1]; apply elem_of_cons in H2 as [H2|H2].
    + congruence.
    + exfalso. apply Hnin. apply list_elem_of_fmap. exists (x, y2).
      split; [simpl; congruence|assumption].
    + exfalso. apply Hnin. apply list_elem_of_fmap. exists (x, y1).
      split; [simpl; congruence|assumption].
    + by apply IH.
Qed.

Lemma inserter_unique s tid tid' u :
  inv_visit s -> (tid, OpInsert u) ∈ trace s -> (tid', OpInsert u) ∈ trace s ->
  tid' = tid.
Proof.
  intros Hv H1 H2.
  pose proof (omap_NoDup_inj _ _ _ _ u (iv_inserted_nodup _ Hv) H1 H2
                eq_refl eq_refl) as Heq.
  congruence.
Qed.

Lemma do_after_insert s tid u r :
  inv_trace s -> (tid, OpDo u r) ∈ trace s -> (tid, OpInsert u) ∈ trace s.
Proof.
  intros Ht Hin. apply list_elem_of_split in Hin as (tr1 & tr2 & Heq).
  rewrite Heq. apply elem_of_app. left. eapply it_do; eassumption.
Qed.

Lemma append_after_insert s tr1 tid p tr2 :
  inv_trace s -> trace s = tr1 ++ (tid, OpAppend p) :: tr2 ->
  (tid, OpInsert (URL p)) ∈ tr1.
Proof.
  intros Ht Heq. destruct (it_append _ Ht _ _ _ _ Heq) as (doc & Hdo).
  apply list_elem_of_split in Hdo as (tr1a & tr1b & ->).
  apply elem_of_app. left.
  eapply (it_do _ Ht tr1a tid _ _ (tr1b ++ (tid, OpAppend p) :: tr2)).
  rewrite Heq, <- app_assoc. reflexivity.
Qed.

(** C1: every canonical URL has at most one Page in the results and is
    requested at most once, in every state of every crawl under every
    schedule. The test of [c.visited] and the insertion are one critical
    section: at most one goroutine is between Lock and Unlock of
    visitedMux, and a goroutine about to insert still finds its URL
    absent. Only the goroutine that inserted a URL sends the request for
    it and appends its Page, and it does so after the insertion. *)
Theorem C1_url_visited_once b m t d s :
  reachable (New b m t d) s ->
  NoDup (URL <$> pages (crawler s)) /\
  NoDup (fst <$> fetched (trace s)) /\
  (forall i j ti tj, tasks s !! i = Some ti -> tasks s !! j = Some tj ->
     holds_visitedMux (t_pc ti) = true -> holds_visitedMux (t_pc tj) = true ->
     i = j) /\
  (forall tid tk, tasks s !! tid = Some tk -> t_pc tk = PSet ->
     map_get (visited (crawler s)) (normalizeURL (t_url tk)) = false) /\
  (forall tid tid' u r,
     (tid, OpInsert u) ∈ trace s -> (tid', OpDo u r) ∈ trace s -> tid' = tid) /\
  (forall tid tid' p,
     (tid, OpInsert (URL p)) ∈ trace s -> (tid', OpAppend p) ∈ trace s ->
     tid' = tid) /\
  (forall tr1 tid u r tr2, trace s = tr1 ++ (tid, OpDo u r) :: tr2 ->
     (tid, OpInsert u) ∈ tr1) /\
  (forall tr1 tid p tr2, trace s = tr1 ++ (tid, OpAppend p) :: tr2 ->
     (tid, OpInsert (URL p)) ∈ tr1) /\
  pages (crawler s) = appended (trace s).
Proof.
  intros Hr. destruct (Inv_reachable _ _ _ _ _ Hr) as (p0 & _ & H).
  pose proof (I_visit _ _ _ H) as Hv. pose proof (I_trace _ _ _ H) as Ht.
  destruct (I_mutex _ _ _ H) as (Hm & _ & _).
  repeat apply conj.
  - apply Hv.
  - apply Hv.
  - intros i j ti tj Hi Hj Hhi Hhj.
    apply (Hm _ _ Hi) in Hhi. apply (Hm _ _ Hj) in Hhj. congruence.
  - intros tid tk Htk Hpc. exact (iv_set _ Hv _ _ Htk Hpc).
  - intros tid tid' u r Hi Hd.
    eapply inserter_unique; [eassumption..|]. eapply do_after_insert; eauto.
  - intros tid tid' p Hi Ha.
    eapply inserter_unique; [eassumption..|].
    apply list_elem_of_split in Ha as (tr1 & tr2 & Heq).
    rewrite Heq. apply elem_of_app. left.
    eapply append_after_insert; eassumption.
  - apply Ht.
  - intros tr1 tid p tr2 Heq. eapply append_after_insert; eassumption.
  - apply Hv.
Qed.


Lemma step_visited_mono tid s s' u :
  step tid s = Some s' ->
  map_true (visited (crawler s)) u -> map_true (visited (crawler s')) u.
Proof.
  intros Hstep Hu. step_inv Hstep; try assumption.
  apply map_true_insert. by right.
Qed.

Lemma run_visited_mono sched s s' u :
  run sched s = Some s' ->
  map_true (visited (crawler s)) u -> map_true (visited (crawler s')) u.
Proof.
  intros Hrun Hu.
  eapply (run_ind (fun x => map_true (visited (crawler x)) u)); eauto.
  intros tid s1 s2 H1 Hstep. eapply step_visited_mono; eassumption.
Qed.

Lemma page_fetched s p :
  inv_visit s -> inv_trace s -> p ∈ pages (crawler s) ->
  exists doc, (URL p, DoResp 200 (Some doc)) ∈ fetched (trace s).
Proof.
  intros Hv Ht Hp. rewrite (iv_pages _ Hv) in Hp.
  unfold appended in Hp. apply list_elem_of_omap in Hp as ([tid o] & Hin & Ho).
  simpl in Ho. destruct o; try discriminate. injection Ho as ->.
  apply list_elem_of_split in Hin as (tr1 & tr2 & Heq).
  destruct (it_append _ Ht _ _ _ _ Heq) as (doc & Hdo).
  exists doc. eapply fetched_elem. rewrite Heq. apply elem_of_app. left.
  exact Hdo.
Qed.

(** C9: a URL is in the visited map before the request for it is sent,
    and what is in the map stays there for the rest of the crawl. So a
    URL is requested at most once, whatever the answer was and however
    often it is found again, and a URL whose request or whose body
    failed has no Page in the results. *)
Theorem C9_failed_url_stays_visited b m t d s :
  reachable (New b m t d) s ->
  (forall tr1 tid u r tr2, trace s = tr1 ++ (tid, OpDo u r) :: tr2 ->
     (tid, OpInsert u) ∈ tr1) /\
  (forall u r, (u, r) ∈ fetched (trace s) ->
     map_get (visited (crawler s)) u = true) /\
  (forall sched s' u, run sched s = Some s' ->
     map_get (visited (crawler s)) u = true ->
     map_get (visited (crawler s')) u = true) /\
  NoDup (fst <$> fetched (trace s)) /\
  (forall u r, (u, r) ∈ fetched (trace s) -> failed r ->
     forall p, p ∈ pages (crawler s) -> URL p <> u).
Proof.
  intros Hr. destruct (Inv_reachable _ _ _ _ _ Hr) as (p0 & _ & H).
  pose proof (I_visit _ _ _ H) as Hv. pose proof (I_trace _ _ _ H) as Ht.
  repeat apply conj.
  - apply Ht.
  - intros u r Hu. apply (iv_fetched _ Hv). apply list_elem_of_fmap.
    by exists (u, r).
  - intros sched s' u Hrun Hu. eapply run_visited_mono; eassumption.
  - apply Hv.
  - intros u r Hu Hfail p Hp <-.
    destruct (page_fetched _ _ Hv Ht Hp) as (doc & Hdoc).
    apply (Hfail doc).
    eapply NoDup_fst_fun; [apply (iv_fetched_nodup _ Hv)|eassumption..].
Qed.



(** C5: the base domain is the hostname of the parsed seed, the same in
    every goroutine. A link is followed only if it resolves, parses, and
    has that hostname, so every Page's URL is the fragment-stripped form
    of a URL with that hostname; and as cutting the fragment off leaves
    the hostname of a URL as it is (net/url cuts it off itself before it
    parses the rest), every Page's URL has that hostname. *)
Theorem C5_pages_on_base_domain b m t d s p0 :
  reachable (New b m t d) s -> url_Parse b = Some p0 ->
  (forall tid tk, tasks s !! tid = Some tk ->
     t_baseDomain tk = url_Hostname p0) /\
  (forall n bd a u, follow n bd a = Some u ->
     exists href p, a = Some href /\ resolveURL n href = Some u /\
                    url_Parse u = Some p /\ url_Hostname p = bd) /\
  (forall pg, pg ∈ pages (crawler s) ->
     exists u p, URL pg = normalizeURL u /\ url_Parse u = Some p /\
                 url_Hostname p = url_Hostname p0) /\
  ((forall u p, url_Parse u = Some p ->
      exists p', url_Parse (normalizeURL u) = Some p' /\
                 url_Hostname p' = url_Hostname p) ->
   forall pg, pg ∈ pages (crawler s) ->
     exists p', url_Parse (URL pg) = Some p' /\
                url_Hostname p' = url_Hostname p0).
Proof.
  intros Hr Hp0. destruct (Inv_reachable _ _ _ _ _ Hr) as (p0' & Hp0' & H).
  assert (p0' = p0) as -> by congruence.
  pose proof (I_domain _ _ _ H) as [Htask Hpage].
  repeat apply conj.
  - intros tid tk Htk. apply (Htask _ _ Htk).
  - intros n bd a u Hf.
    apply follow_Some in Hf as (href & p & ? & ? & ? & ? & _). eauto 10.
  - exact Hpage.
  - intros Hfrag pg Hpg. destruct (Hpage _ Hpg) as (u & p & -> & Hu & Hh).
    destruct (Hfrag _ _ Hu) as (p' & Hp' & Hh'). exists p'.
    split; congruence.
Qed.

(** C10: with a seed that parses and a negative maxDepth, [Crawl] returns
    an empty page list and a nil error: goroutine 0 is the only one, its
    two steps are the depth test and the return, it is never blocked,
    and in no state of the crawl is anything in the trace (no request, no
    insertion), in the visited map or in the pages. *)
Theorem C10_negative_maxDepth_returns_empty b m t d :
  is_Some (url_Parse b) -> m < 0 ->
  Crawl (New b m t d) [0%nat; 0%nat] = Some ([], None) /\
  forall s, reachable (New b m t d) s ->
    trace s = [] /\ visited (crawler s) = ∅ /\ pages (crawler s) = [] /\
    length (tasks s) = 1%nat /\
    (Crawl_return s = None -> is_Some (step 0 s)) /\
    (forall r, Crawl_return s = Some r -> r = ([], None)).
Proof.
  intros [p0 Hp0] Hm. apply Z.ltb_lt in Hm.
  split.
  { unfold Crawl, Crawl_start. simpl. rewrite Hp0. simpl.
    unfold step at 1. simpl. rewrite Hm. reflexivity. }
  intros s (s0 & sched & Hstart & Hrun).
  unfold Crawl_start in Hstart. simpl in Hstart. rewrite Hp0 in Hstart.
  injection Hstart as <-.
  set (P := fun s : state =>
    trace s = [] /\ crawler s = New b m t d /\
    exists p, tasks s =
                [ {| t_url := b; t_depth := 0;
                     t_baseDomain := url_Hostname p0;
                     t_parent := None; t_pc := p |} ] /\
              (p = PEntry \/ p = PReturn None \/ p = PDone None)).
  assert (HP : P s).
  { eapply (run_ind P); [| |exact Hrun].
    - unfold P. simpl. eauto 10.
    - clear Hrun s. intros tid s s' (Htr & Hc & p & Hts & Hp) Hstep.
      assert (tid = 0%nat) as ->.
      { unfold step in Hstep. destruct (tasks s !! tid) eqn:E; [|discriminate].
        apply lookup_lt_Some in E. rewrite Hts in E. simpl in E. lia. }
      step_inv Hstep; rewrite Hts in Ht; injection Ht as <-; simpl in Hpc;
        unfold P; simpl; rewrite ?Htr, ?Hts; simpl;
        destruct Hp as [-> | [-> | ->]]; try discriminate Hpc;
        try (injection Hpc as <-); eauto 10.
      exfalso.
      match goal with
      | H : (_ <? _) = false |- _ =>
          rewrite Hc in H; simpl in H; rewrite Hm in H; discriminate H
      end. }
  destruct HP as (Htr & Hc & p & Hts & Hp).
  unfold Crawl_return, step. rewrite Htr, Hc, Hts. simpl.
  repeat apply conj; try reflexivity.
  - destruct Hp as [-> | [-> | ->]]; simpl; rewrite ?Hm; eauto; discriminate.
  - destruct Hp as [-> | [-> | ->]]; simpl; congruence.
Qed.

Lemma step_requests_ok tid s s' :
  step tid s = Some s' ->
  (forall u r, (u, r) ∈ fetched (trace s) -> http_NewRequest u = true) ->
  forall u r, (u, r) ∈ fetched (trace s') -> http_NewRequest u = true.
Proof.
  intros Hstep Hinv. step_inv Hstep; rewrite ?fetched_snoc; simpl;
    rewrite ?app_nil_r; try assumption.
  intros x rx Hx. apply elem_of_app in Hx as [Hx|Hx]; [eauto|].
  apply list_elem_of_singleton in Hx. by simplify_eq.
Qed.

Lemma requests_ok c s :
  reachable c s ->
  forall u r, (u, r) ∈ fetched (trace s) -> http_NewRequest u = true.
Proof.
  intros (s0 & sched & Hstart & Hrun).
  eapply (run_ind (fun x => forall u r, (u, r) ∈ fetched (trace x) ->
                                        http_NewRequest u = true));
    [| |exact Hrun].
  - unfold Crawl_start in Hstart.
    destruct (url_Parse (baseURL c)) as [p0|]; [|discriminate].
    injection Hstart as <-. simpl. intros x rx Hx.
    by apply not_elem_of_nil in Hx.
  - intros tid s1 s2 H1 Hstep. eapply step_requests_ok; eassumption.
Qed.

(** What [Crawl] returns is what goroutine 0 came back with. *)
Lemma Crawl_return_inv s r :
  Crawl_return s = Some r ->
  exists t0 ret, tasks s !! 0%nat = Some t0 /\ t_pc t0 = PDone ret /\
    r = match ret with
        | Some err => ([], Some err)
        | None => (pages (crawler s), None)
        end.
Proof.
  unfold Crawl_return. destruct (tasks s !! 0%nat) as [t0|] eqn:H0; [|discriminate].
  destruct (t_pc t0) eqn:Hpc; try discriminate.
  intros H. exists t0, ret. repeat split; try assumption.
  destruct ret; congruence.
Qed.

(** ** The visit of the seed *)

Lemma step_fetched_grow tid s s' :
  step tid s = Some s' ->
  exists l, fetched (trace s') = (fetched (trace s) ++ l)%list.
Proof.
  intros Hstep. step_inv Hstep; rewrite ?fetched_snoc; simpl.
  all: try solve [exists []; by rewrite ?app_nil_r].
  eexists. reflexivity.
Qed.

Lemma step_exists tid s s' :
  step tid s = Some s' -> (tid < length (tasks s))%nat.
Proof.
  unfold step. destruct (tasks s !! tid) eqn:E; [|discriminate].
  intros _. eapply lookup_lt_Some; eassumption.
Qed.

Lemma step_inv_seed_fate tid s s' :
  step tid s = Some s' -> seed_fate s -> seed_fate s'.
Proof.
  intros Hstep Hinv t0' H0'.
  pose proof (step_exists _ _ _ Hstep) as Hlt.
  pose proof (step_crawler_const _ _ _ Hstep) as (_ & Hm & _).
  destruct (decide (tid = 0%nat)) as [Heq|Hne].
  - (* goroutine 0 moves *)
    rewrite <- Heq in H0'. revert t0' H0'. step_inv Hstep.
    all: intros t0' H0'.
    all: assert (Ht0 : tasks s !! 0%nat = Some t) by (by rewrite <- Heq).
    all: specialize (Hinv _ Ht0); rewrite Hpc in Hinv; simpl in Hinv.
    all: rewrite ?lookup_app_l in H0' by (rewrite length_insert; lia);
         rewrite list_lookup_insert_eq in H0' by lia; injection H0' as <-;
         unfold normalized in *; simpl.
    all: rewrite ?fetched_snoc, ?length_insert, ?length_app, ?length_fmap;
         simpl; rewrite ?app_nil_r.
    all: try tauto.
    + right. destruct Hinv as (? & ? & _). repeat split; try assumption.
      by apply Z.ltb_lt.
    + destruct Hinv as (_ & _ & Hv).
      match goal with
      | H : map_get _ _ = true |- _ => rewrite Hv in H; discriminate H
      end.
    + destruct Hinv as (? & ->). by split.
    + destruct Hinv as (? & ?). split; [assumption|]. right.
      exists DoError. split; [assumption|]. split; [|reflexivity].
      intros doc. discriminate.
    + destruct Hinv as (? & ?). split; [assumption|]. right.
      eexists. split; [eassumption|]. split.
      * intros doc [= -> _].
        match goal with H : negb _ = true |- _ => discriminate H end.
      * unfold after_response.
        match goal with H : negb _ = true |- _ => by rewrite H end.
    + destruct Hinv as (? & ?). split; [assumption|].
      match goal with
      | H : negb (?c =? 200) = false |- _ =>
          apply negb_false_iff, Z.eqb_eq in H; by subst
      end.
    + destruct Hinv as (? & ?). split; [assumption|]. right.
      eexists. split; [eassumption|]. split.
      * intros doc. discriminate.
      * unfold after_response.
        match goal with H : negb _ = false |- _ => by rewrite H end.
    + destruct Hinv as (_ & ->). by eexists _, [].
  - (* another goroutine moves *)
    assert (H0 : exists t0, tasks s !! 0%nat = Some t0)
      by (apply lookup_lt_is_Some; lia).
    destruct H0 as [t0 H0].
    destruct (step_lookup _ _ _ _ _ Hstep H0)
      as (t0'' & H0'' & _ & Hd & _ & _ & Heq).
    assert (t0'' = t0) as -> by auto.
    assert (t0' = t0) as -> by congruence.
    specialize (Hinv _ H0).
    destruct (step_fetched_grow _ _ _ Hstep) as [l Hl].
    rewrite Hl, Hm.
    destruct (t_pc t0) as [| | | | | | | | | | | | |[e|]|[e|]|[e|]];
      try (exfalso; destruct Hinv as [Hlen _]; lia); try (exfalso; exact Hinv).
    + destruct Hinv as (doc & rest & ->). by exists doc, (rest ++ l)%list.
    + destruct Hinv as [(doc & rest & ->)|(Hlen & _)]; [|lia].
      left. by exists doc, (rest ++ l)%list.
    + destruct Hinv as [(doc & rest & ->)|(Hlen & _)]; [|lia].
      left. by exists doc, (rest ++ l)%list.
    + destruct Hinv as [(doc & rest & ->)|(Hlen & _)]; [|lia].
      left. by exists doc, (rest ++ l)%list.
Qed.

Lemma seed_fate_reachable b m t d s :
  reachable (New b m t d) s -> seed_fate s.
Proof.
  intros (s0 & sched & Hstart & Hrun).
  eapply (run_ind seed_fate); [| |exact Hrun].
  - unfold Crawl_start in Hstart. simpl in Hstart.
    destruct (url_Parse b) as [p0|]; [|discriminate].
    injection Hstart as <-. intros t0 [= <-]. simpl.
    repeat split.
  - intros tid s1 s2 H1 Hstep. eapply step_inv_seed_fate; eassumption.
Qed.

Lemma reachable_step c tid s s' :
  reachable c s -> step tid s = Some s' -> reachable c s'.
Proof.
  intros (s0 & sched & Hstart & Hrun) Hstep.
  exists s0, (sched ++ [tid])%list. split; [assumption|].
  eapply run_snoc; eassumption.
Qed.

Lemma own_failure_step n e tid s s' :
  step tid s = Some s' ->
  own_failure n e (trace s) -> own_failure n e (trace s').
Proof.
  intros Hstep [H|(r & Hr & Hf & Ha)]; [by left|right].
  destruct (step_fetched_grow _ _ _ Hstep) as [l ->].
  exists r. split; [|auto]. apply elem_of_app. by left.
Qed.

Lemma singleton_lookup {A} (l : list A) x :
  length l = 1%nat -> l !! 0%nat = Some x -> l = [x].
Proof.
  destruct l as [|y [|z l]]; simpl; intros Hl Hx; try discriminate Hl.
  by injection Hx as ->.
Qed.

(** Where goroutine 0 is once the visit of the seed has failed or must
    fail: alone, on the way to returning that failure. *)
Lemma seed_failure_path b m t d s e :
  reachable (New b m t d) s -> 0 <= m ->
  own_failure (normalizeURL b) e (trace s) ->
  exists t0, tasks s = [t0] /\ t_url t0 = b /\ t_depth t0 = 0 /\
    match t_pc t0 with
    | PEntry | PCheck | PSet | PUnlock | PAcquire | PRequest =>
        http_NewRequest (normalizeURL b) = false /\
        e = ErrNewRequest (normalizeURL b)
    | PInFlight r => after_response (normalizeURL b) r = PRelease (Some e)
    | PRelease (Some e') | PReturn (Some e') | PDone (Some e') => e' = e
    | _ => False
    end.
Proof.
  intros Hr Hm Hfail.
  destruct (Inv_reachable _ _ _ _ _ Hr) as (p0 & _ & H).
  pose proof (seed_fate_reachable _ _ _ _ _ Hr) as Hfate.
  pose proof (requests_ok _ _ Hr) as Hok.
  pose proof (iv_fetched_nodup _ (I_visit _ _ _ H)) as Hnd.
  pose proof (I_baseURL _ _ _ H) as Hb. simpl in Hb.
  pose proof (I_maxDepth _ _ _ H) as Hmax. simpl in Hmax.
  destruct (is_root _ (I_seed _ _ _ H)) as (t0 & H0 & Hu & Hd & _).
  rewrite Hb in Hu. specialize (Hfate _ H0).
  unfold normalized in Hfate. rewrite Hu in Hfate.
  set (n := normalizeURL b) in *.
  (* what the failure says of the requests sent so far *)
  assert (Hnil : fetched (trace s) = [] ->
            http_NewRequest n = false /\ e = ErrNewRequest n).
  { intros Hnil. destruct Hfail as [[-> ?]|(r & Hr' & _)]; [done|].
    rewrite Hnil in Hr'. by apply not_elem_of_nil in Hr'. }
  assert (Hone : forall r rest, fetched (trace s) = (n, r) :: rest ->
            failed r /\ after_response n r = PRelease (Some e)).
  { intros r rest Hf. destruct Hfail as [[_ Hnew]|(r' & Hr' & Hf' & Ha)].
    - rewrite (Hok n r) in Hnew; [discriminate|]. rewrite Hf. by left.
    - assert (r' = r) as ->; [|done].
      eapply NoDup_fst_fun; [exact Hnd|exact Hr'|]. rewrite Hf. by left. }
  assert (Hdoc : forall doc rest,
            fetched (trace s) = (n, DoResp 200 (Some doc)) :: rest -> False).
  { intros doc rest Hf. destruct (Hone _ _ Hf) as [Hfl _]. by apply (Hfl doc). }
  assert (Hret : forall e',
            length (tasks s) = 1%nat /\
            (fetched (trace s) = [] /\ e' = ErrNewRequest n /\
             http_NewRequest n = false \/
             exists r, fetched (trace s) = [(n, r)] /\ failed r /\
                       after_response n r = PRelease (Some e')) ->
            length (tasks s) = 1%nat /\ e' = e).
  { intros e' (Hlen & [(Hf & -> & _)|(r & Hf & _ & Ha)]); split; try assumption.
    - by destruct (Hnil Hf) as [_ ->].
    - destruct (Hone _ _ Hf) as [_ Ha']. congruence. }
  assert (Hnone :
            (exists doc rest,
               fetched (trace s) = (n, DoResp 200 (Some doc)) :: rest) \/
            length (tasks s) = 1%nat /\ fetched (trace s) = [] /\
            maxDepth (crawler s) < t_depth t0 -> False).
  { intros [(doc & rest & Hf)|(_ & _ & Hlt)].
    - eapply Hdoc; eassumption.
    - rewrite Hmax, Hd in Hlt. lia. }
  exists t0.
  assert (Hgoal : length (tasks s) = 1%nat /\
    match t_pc t0 with
    | PEntry | PCheck | PSet | PUnlock | PAcquire | PRequest =>
        http_NewRequest n = false /\ e = ErrNewRequest n
    | PInFlight r => after_response n r = PRelease (Some e)
    | PRelease (Some e') | PReturn (Some e') | PDone (Some e') => e' = e
    | _ => False
    end).
  { destruct (t_pc t0) as [| | | | | | |r|doc|doc|doc|doc| |[e'|]|[e'|]|[e'|]].
    - destruct Hfate as (Hlen & Hf & _). split; [assumption|by apply Hnil].
    - destruct Hfate as (Hlen & Hf & _). split; [assumption|by apply Hnil].
    - destruct Hfate.
    - destruct Hfate as (Hlen & Hf & _). split; [assumption|by apply Hnil].
    - destruct Hfate as (Hlen & Hf). split; [assumption|by apply Hnil].
    - destruct Hfate as (Hlen & Hf). split; [assumption|by apply Hnil].
    - destruct Hfate as (Hlen & Hf). split; [assumption|by apply Hnil].
    - destruct Hfate as (Hlen & Hf). split; [assumption|by apply (Hone _ _ Hf)].
    - destruct Hfate as (Hlen & Hf). exfalso. eapply Hdoc; eassumption.
    - destruct Hfate as (Hlen & Hf). exfalso. eapply Hdoc; eassumption.
    - destruct Hfate as (Hlen & Hf). exfalso. eapply Hdoc; eassumption.
    - destruct Hfate as (Hlen & Hf). exfalso. eapply Hdoc; eassumption.
    - destruct Hfate as (doc & rest & Hf). exfalso. eapply Hdoc; eassumption.
    - by apply Hret.
    - exfalso. by apply Hnone.
    - by apply Hret.
    - exfalso. by apply Hnone.
    - by apply Hret.
    - exfalso. by apply Hnone. }
  destruct Hgoal as [Hlen Hgoal].
  split; [by apply singleton_lookup|]. auto.
Qed.

Lemma seed_failure_progress b m t d s e :
  reachable (New b m t d) s -> 0 <= m ->
  own_failure (normalizeURL b) e (trace s) ->
  Crawl_return s = Some ([], Some e) \/
  exists s', step 0%nat s = Some s' /\ (seed_steps s' < seed_steps s)%nat.
Proof.
  intros Hr Hm Hfail.
  destruct (seed_failure_path _ _ _ _ _ _ Hr Hm Hfail)
    as (t0 & Htasks & Hu & Hd & Hpath).
  destruct (Inv_reachable _ _ _ _ _ Hr) as (p0 & _ & H).
  pose proof (seed_fate_reachable _ _ _ _ _ Hr) as Hfate.
  pose proof (I_maxDepth _ _ _ H) as Hmax. simpl in Hmax.
  assert (H0 : tasks s !! 0%nat = Some t0) by (by rewrite Htasks).
  specialize (Hfate _ H0).
  destruct (I_sem _ _ _ H) as (Hcap & Hlen & _).
  destruct (proj1 (I_mutex _ _ _ H) _ _ H0) as [Hmux _].
  unfold Crawl_return, seed_steps, step. rewrite H0. cbv zeta.
  destruct (t_pc t0) as [| | | | | | |r|doc|doc|doc|doc| |[e'|]|[e'|]|[e'|]]
    eqn:Hpc; try (exfalso; exact Hpath); simpl in Hfate, Hmux.
  all: try (right; eexists; split; [reflexivity|];
            unfold move, goto; simpl; rewrite Htasks; simpl; lia).
  - (* the depth test and visitedMux.Lock() *)
    right. rewrite Hmax, Hd.
    replace (m <? 0) with false by (symmetry; apply Z.ltb_ge; lia).
    destruct (visitedMux (crawler s)) as [h|] eqn:Hh.
    + assert (h = 0%nat) as ->.
      { apply (proj1 (proj2 (I_mutex _ _ _ H))) in Hh.
        rewrite Htasks in Hh. simpl in Hh. lia. }
      destruct Hmux as [_ Hmux]. specialize (Hmux eq_refl). discriminate.
    + eexists. split; [reflexivity|].
      unfold move; simpl; rewrite Htasks; simpl; lia.
  - (* the check of the visited map *)
    right. destruct Hfate as (_ & _ & Hv). unfold normalized in *.
    rewrite Hv. eexists. split; [reflexivity|].
    unfold goto, move; simpl; rewrite Htasks; simpl; lia.
  - (* the send on the semaphore *)
    right. rewrite Hcap, Hlen, Htasks. simpl. unfold slot_held.
    rewrite Hpc. simpl. eexists. split; [reflexivity|].
    unfold move; simpl; rewrite Htasks; simpl; lia.
  - (* the request cannot be built *)
    right. destruct Hpath as [Hnew _]. unfold normalized in *.
    rewrite Hu, Hnew. eexists. split; [reflexivity|].
    unfold goto, move; simpl; rewrite Htasks; simpl; lia.
  - (* the answer is a failure *)
    right. unfold normalized in *. rewrite Hu, Hpath.
    eexists. split; [reflexivity|].
    unfold goto, move; simpl; rewrite Htasks; simpl; lia.
  - left. by subst.
Qed.

Lemma seed_failure_returns b m t d e n :
  forall s, reachable (New b m t d) s -> 0 <= m ->
  own_failure (normalizeURL b) e (trace s) ->
  (seed_steps s <= n)%nat ->
  exists k s', (k <= n)%nat /\ run (replicate k 0%nat) s = Some s' /\
               Crawl_return s' = Some ([], Some e).
Proof.
  induction n as [|n IH]; intros s Hr Hm Hfail Hn;
    destruct (seed_failure_progress _ _ _ _ _ _ Hr Hm Hfail)
      as [Hret|(s' & Hstep & Hlt)].
  - exists 0%nat, s. split; [lia|]. by split.
  - lia.
  - exists 0%nat, s. split; [lia|]. by split.
  - destruct (IH s') as (k & s'' & Hk & Hrun & Hret).
    + eapply reachable_step; eassumption.
    + assumption.
    + eapply own_failure_step; eassumption.
    + lia.
    + exists (S k), s''. split; [lia|]. split; [|assumption].
      simpl. by rewrite Hstep.
Qed.

Lemma seed_steps_le s : (seed_steps s <= 9)%nat.
Proof.
  unfold seed_steps. destruct (tasks s !! 0%nat) as [t0|]; [|lia].
  destruct (t_pc t0); simpl; lia.
Qed.

(** C2, amended: [Crawl] returns a hard error when the seed URL does not
    parse, and also when the visit of the seed page itself fails. When
    the depth limit is not negative and the request for the seed cannot
    be built, or has been answered with a transport error, a status other
    than 200 or an unreadable body, goroutine 0 is the only goroutine,
    it gets back from [crawlPage] within nine steps under the only
    schedule there is, and what [Crawl] returns then, and whenever it
    returns, is no pages and that error. Conversely an error that [Crawl]
    returns is one of the seed's own, and the page list is then empty. No
    failure of another page becomes the error of [Crawl]: the error a
    goroutine returns is a failure of the visit of its own URL, and once
    the request for the seed has been answered with a readable 200,
    whatever [Crawl] returns is the accumulated pages and a nil error. *)
Theorem C2_only_the_seed_visit_is_fatal b m t d :
  (url_Parse b = None ->
   forall sched, Crawl (New b m t d) sched = Some ([], Some (ErrParse b))) /\
  (forall s e, reachable (New b m t d) s -> 0 <= m ->
     own_failure (normalizeURL b) e (trace s) ->
     length (tasks s) = 1%nat /\
     (forall r, Crawl_return s = Some r -> r = ([], Some e)) /\
     exists k s', (k <= 9)%nat /\ run (replicate k 0%nat) s = Some s' /\
                  Crawl_return s' = Some ([], Some e)) /\
  (forall s, reachable (New b m t d) s ->
     (forall ps e, Crawl_return s = Some (ps, Some e) ->
        ps = [] /\ own_failure (normalizeURL b) e (trace s)) /\
     (forall ps, Crawl_return s = Some (ps, None) -> ps = pages (crawler s)) /\
     ((exists doc, (normalizeURL b, DoResp 200 (Some doc)) ∈ fetched (trace s)) ->
      forall r, Crawl_return s = Some r -> r = (pages (crawler s), None)) /\
     (forall tid tk e, tasks s !! tid = Some tk ->
        returning (t_pc tk) = Some e ->
        own_failure (normalizeURL (t_url tk)) e (trace s))).
Proof.
  split.
  { intros Hp sched. unfold Crawl, Crawl_start. simpl. by rewrite Hp. }
  split.
  { intros s e Hr Hm Hfail.
    destruct (seed_failure_path _ _ _ _ _ _ Hr Hm Hfail)
      as (t0 & Htasks & _ & _ & Hpath).
    split; [by rewrite Htasks|]. split.
    - intros r Hret.
      apply Crawl_return_inv in Hret as (t0' & ret & H0' & Hpc & ->).
      rewrite Htasks in H0'. injection H0' as <-. rewrite Hpc in Hpath.
      destruct ret as [e'|]; [by subst|destruct Hpath].
    - apply (seed_failure_returns _ _ _ _ _ _ _ Hr Hm Hfail).
      apply seed_steps_le. }
  intros s Hr. destruct (Inv_reachable _ _ _ _ _ Hr) as (p0 & _ & H).
  pose proof (I_baseURL _ _ _ H) as Hb. simpl in Hb.
  destruct (is_root _ (I_seed _ _ _ H)) as (t0 & H0 & Hu & _).
  assert (Herr : forall ps e, Crawl_return s = Some (ps, Some e) ->
            ps = [] /\ own_failure (normalizeURL b) e (trace s)).
  { intros ps e Hret.
    apply Crawl_return_inv in Hret as (t0' & ret & H0' & Hpc & Heq).
    assert (t0' = t0) as -> by congruence.
    destruct ret as [err|]; [|discriminate].
    injection Heq as -> ->. split; [reflexivity|].
    rewrite <- Hb, <- Hu. apply (I_errors _ _ _ H 0%nat t0); [assumption|].
    by rewrite Hpc. }
  split; [exact Herr|]. split; [|split].
  - intros ps Hret.
    apply Crawl_return_inv in Hret as (t0' & ret & _ & _ & Heq).
    destruct ret; congruence.
  - intros (doc & Hdoc) [ps [e|]] Hret.
    + exfalso. destruct (Herr _ _ Hret) as (_ & [(_ & Hnew)|(r & Hr' & Hfail & _)]).
      * rewrite (requests_ok _ _ Hr _ _ Hdoc) in Hnew. discriminate.
      * apply (Hfail doc).
        eapply NoDup_fst_fun;
          [apply (iv_fetched_nodup _ (I_visit _ _ _ H))|eassumption..].
    + apply Crawl_return_inv in Hret as (t0' & ret & _ & _ & Heq).
      destruct ret; congruence.
  - intros tid tk e Htk Hret. exact (I_errors _ _ _ H tid tk e Htk Hret).
Qed.

Lemma finished_no_step tid s tk :
  tasks s !! tid = Some tk -> finished (t_pc tk) = true -> step tid s = None.
Proof.
  intros Htk Hf. unfold step. rewrite Htk. by destruct (t_pc tk).
Qed.

(** The fan-out is structured: when a goroutine has finished, so have
    all the goroutines it spawned, and theirs. *)
Lemma all_finished s :
  inv_wg s ->
  (forall t0, tasks s !! 0%nat = Some t0 -> finished (t_pc t0) = true) ->
  forall tid tk, tasks s !! tid = Some tk -> finished (t_pc tk) = true.
Proof.
  intros Hinv H0 tid. induction tid as [tid IH] using lt_wf_ind.
  intros tk Htk. destruct (decide (tid = 0%nat)) as [->|Hne]; [by apply H0|].
  destruct (iw_parent _ Hinv _ _ Htk Hne) as (p & Hp & Hlt).
  assert (Hplt : (p < length (tasks s))%nat)
    by (apply lookup_lt_Some in Htk; lia).
  apply lookup_lt_is_Some in Hplt as [tp Htp].
  pose proof (IH p Hlt tp Htp) as Hfin.
  pose proof (iw_count _ Hinv _ _ Htp) as Hc.
  replace (is_wait (t_pc tp)) with false in Hc
    by (destruct (t_pc tp); simpl in *; congruence).
  pose proof (countb_zero _ _ _ _ Hc Htk) as Hl. unfold live_child in Hl.
  rewrite bool_decide_eq_true_2 in Hl by assumption. simpl in Hl.
  by apply negb_false_iff in Hl.
Qed.

(** X17: [Crawl] returns only when goroutine 0 is back from [crawlPage],
    and by then every goroutine of the crawl has finished and none can
    take another step; if what it returns has a nil error, the pages are
    all the pages gathered. *)
Theorem Crawl_returns_when_all_goroutines_done b m t d s :
  reachable (New b m t d) s -> is_Some (Crawl_return s) ->
  (forall tid tk, tasks s !! tid = Some tk -> finished (t_pc tk) = true) /\
  (forall tid, step tid s = None) /\
  (forall ps, Crawl_return s = Some (ps, None) -> ps = pages (crawler s)).
Proof.
  intros Hr [r Hret]. destruct (Inv_reachable _ _ _ _ _ Hr) as (p0 & _ & H).
  apply Crawl_return_inv in Hret as (t0 & ret & H0 & Hpc & Heq).
  assert (Hall : forall tid tk, tasks s !! tid = Some tk ->
                                finished (t_pc tk) = true).
  { apply (all_finished _ (I_wg _ _ _ H)).
    intros t0' H0'. assert (t0' = t0) as -> by congruence. by rewrite Hpc. }
  split; [exact Hall|]. split.
  - intros tid. destruct (tasks s !! tid) as [tk|] eqn:Htk.
    + eapply finished_no_step; eauto.
    + unfold step. by rewrite Htk.
  - intros ps Hps.
    apply Crawl_return_inv in Hps as (t0' & ret' & _ & _ & Heq').
    destruct ret'; congruence.
Qed.

(** No step reads the delay: a crawl goes the same way whatever delay is
    configured. *)
Lemma step_set_delay tid s dl :
  step tid (set_delay dl s) = set_delay dl <$> step tid s.
Proof.
  unfold step. simpl. destruct (tasks s !! tid) as [tk|]; [|reflexivity].
  destruct (t_pc tk); simpl; repeat case_match; reflexivity.
Qed.

Lemma run_set_delay sched s dl :
  run sched (set_delay dl s) = set_delay dl <$> run sched s.
Proof.
  revert s. induction sched as [|tid sched IH]; intros s; simpl; [reflexivity|].
  rewrite step_set_delay. destruct (step tid s) as [s'|]; simpl; [apply IH|reflexivity].
Qed.

(** A state in which no goroutine can take a step is the last one. *)
Lemma stuck_forever s :
  (forall tid, step tid s = None) ->
  forall sched s', run sched s = Some s' -> s' = s.
Proof.
  intros Hstuck [|tid sched] s'; simpl.
  - congruence.
  - rewrite Hstuck. discriminate.
Qed.

(** * More of the crawler *)

(** ** Canonical keys *)




(** ** The fan-out *)

(** X2: the fan-out of crawlPage is structured. A goroutine that has not
    finished was spawned by an older goroutine that has not returned from
    its call of crawlPage: that one has not finished and still holds its
    semaphore slot. The counter of the WaitGroup of a goroutine that is
    in wg.Wait() is the number of its children that have not finished.
    A goroutine that has finished has no unfinished child: none outlives
    the call that spawned it. *)
Theorem fan_out_is_structured b m t d s :
  reachable (New b m t d) s ->
  (forall tid tk, tasks s !! tid = Some tk -> tid <> 0%nat ->
     finished (t_pc tk) = false ->
     exists p tp, t_parent tk = Some p /\ (p < tid)%nat /\
                  tasks s !! p = Some tp /\
                  finished (t_pc tp) = false /\ slot_held tp = true) /\
  (forall p tp, tasks s !! p = Some tp -> t_pc tp = PWait ->
     wg_get (wgs s) p = countb (live_child p) (tasks s)) /\
  (forall p tp tid tk, tasks s !! p = Some tp ->
     finished (t_pc tp) = true ->
     tasks s !! tid = Some tk -> t_parent tk = Some p ->
     finished (t_pc tk) = true).
Proof.
  intros Hr. destruct (Inv_reachable _ _ _ _ _ Hr) as (p0 & _ & H).
  pose proof (I_wg _ _ _ H) as Hw.
  assert (H3 : forall p tp tid tk, tasks s !! p = Some tp -> t_pc tp <> PWait ->
     tasks s !! tid = Some tk -> t_parent tk = Some p ->
     finished (t_pc tk) = true).
  { intros p tp tid tk Hp Hpc Htk Hpar.
    pose proof (iw_count _ Hw _ _ Hp) as Hc.
    replace (is_wait (t_pc tp)) with false in Hc
      by (destruct (t_pc tp); simpl; congruence).
    pose proof (countb_zero _ _ _ _ Hc Htk) as Hl. unfold live_child in Hl.
    rewrite bool_decide_eq_true_2 in Hl by assumption. simpl in Hl.
    by apply negb_false_iff in Hl. }
  split; [|split].
  - intros tid tk Htk Hne Hfin.
    destruct (iw_parent _ Hw _ _ Htk Hne) as (p & Hp & Hlt).
    assert (Hplt : (p < length (tasks s))%nat)
      by (apply lookup_lt_Some in Htk; lia).
    apply lookup_lt_is_Some in Hplt as [tp Htp].
    exists p, tp. split; [assumption|]. split; [assumption|].
    split; [assumption|].
    destruct (is_wait (t_pc tp)) eqn:Hw'.
    + unfold slot_held. by destruct (t_pc tp).
    + assert (Hnw : t_pc tp <> PWait) by (intros E; by rewrite E in Hw').
      rewrite (H3 _ _ _ _ Htp Hnw Htk Hp) in Hfin. discriminate.
  - intros p tp Hp Hpc. pose proof (iw_count _ Hw _ _ Hp) as Hc.
    rewrite Hpc in Hc. simpl in Hc. congruence.
  - intros p tp tid tk Hp Hfin. apply (H3 _ _ _ _ Hp).
    intros E. by rewrite E in Hfin.
Qed.

(** ** Links *)

(** Where a goroutine of the new state comes from: it was there before,
    with the same arguments, or it was just spawned for a kept link. *)
Lemma step_lookup_inv tid s s' j tj' :
  step tid s = Some s' -> tasks s' !! j = Some tj' ->
  (exists tj, tasks s !! j = Some tj /\
     t_url tj' = t_url tj /\ t_depth tj' = t_depth tj /\
     t_baseDomain tj' = t_baseDomain tj /\ t_parent tj' = t_parent tj) \/
  ((length (tasks s) <= j)%nat /\
   exists tk doc a u, tasks s !! tid = Some tk /\ t_pc tk = PSpawn doc /\
     a ∈ doc_anchors doc /\
     follow (normalized tk) (t_baseDomain tk) a = Some u /\
     tj' = child tid tk u).
Proof.
  intros Hstep Hj. step_inv Hstep.
  all: lookup_cases Hj; simpl; eauto 10.
  right. rewrite length_insert in *. split; [assumption|].
  match goal with
  | H : omap _ _ !! _ = Some _ |- _ =>
      apply list_elem_of_lookup_2, list_elem_of_omap in H as (a & Ha & Hf)
  end.
  exists t, doc, a. eauto 10.
Qed.

Lemma step_trace_mono tid s s' x :
  step tid s = Some s' -> x ∈ trace s -> x ∈ trace s'.
Proof.
  intros Hstep Hx. step_inv Hstep; try assumption.
  all: apply elem_of_app; by left.
Qed.

Lemma step_inv_links tid s s' :
  step tid s = Some s' -> inv_depth s -> inv_trace s ->
  inv_links s -> inv_links s'.
Proof.
  intros Hstep Hd Htr [Hdoc Hinv].
  assert (Hdoc' : forall j tj' doc, tasks s' !! j = Some tj' ->
            t_pc tj' = PUnlockPages doc \/ t_pc tj' = PSpawn doc ->
            (j, OpDo (normalized tj') (DoResp 200 (Some doc))) ∈ trace s').
  { intros j tj' doc Hj Hq. step_inv Hstep.
    all: pose proof (fun r => it_pending _ Htr _ _ r Ht) as Ht1;
         pose proof (fun dc => Hdoc _ _ dc Ht) as Ht2;
         rewrite Hpc in Ht1, Ht2; simpl in Ht1, Ht2.
    all: lookup_cases Hj; simpl in Hq |- *;
         try (destruct Hq as [Hq|Hq]; discriminate Hq).
    all: try first
      [ exact (Hdoc _ _ _ Hj Hq)
      | apply elem_of_app; left; exact (Hdoc _ _ _ Hj Hq) ].
    - destruct Hq as [Hq|Hq]; [injection Hq as <-|discriminate Hq].
      apply elem_of_app. left. by apply Ht1.
    - destruct Hq as [Hq|Hq]; [discriminate Hq|injection Hq as <-].
      apply Ht2. by left. }
  split; [exact Hdoc'|].
  intros j tj' Hj Hne.
  pose proof (step_crawler_const _ _ _ Hstep) as (_ & Hm & _).
  rewrite Hm.
  destruct (step_lookup_inv _ _ _ _ _ Hstep Hj)
    as [(tj & Hj0 & Hu & Hdp & _ & Hpar)
       |(Hlen & tk & doc & a & u & Htk & Hpc & Ha & Hf & ->)].
  - destruct (Hinv _ _ Hj0 Hne)
      as (Hpdf & Hzip & p & tp & doc & href & Hp & Htp & Hdo & Ha & Hres
          & Hhost & Hdep & Hle).
    destruct (step_lookup _ _ _ _ _ Hstep Htp)
      as (tp' & Htp' & Hu' & Hd' & Hb' & _ & _).
    rewrite Hu. split; [assumption|]. split; [assumption|].
    exists p, tp', doc, href. unfold normalized in *.
    rewrite Hu', Hd', Hb', Hdp, Hpar.
    repeat split; try assumption.
    eapply step_trace_mono; eassumption.
  - apply follow_Some in Hf as (href & pu & -> & Hres & Hpu & Hhost & Hpdf & Hzip).
    destruct (step_lookup _ _ _ _ _ Hstep Htk)
      as (tk' & Htk' & Hu' & Hd' & Hb' & _ & _).
    simpl. split; [assumption|]. split; [assumption|].
    exists tid, tk', doc, href. unfold normalized in *. rewrite Hu', Hd', Hb'.
    repeat split; try assumption.
    + eapply step_trace_mono; [eassumption|].
      apply (Hdoc _ _ _ Htk). by right.
    + by exists pu.
    + apply (id_task _ Hd _ _ Htk). by rewrite Hpc.
Qed.

Lemma links_reachable b m t d s : reachable (New b m t d) s -> inv_links s.
Proof.
  intros Hr. destruct Hr as (s0 & sched & Hstart & Hrun).
  assert (Hboth : inv_links s /\ exists bd, Inv (New b m t d) bd s);
    [|tauto].
  unfold Crawl_start in Hstart. simpl in Hstart.
  destruct (url_Parse b) as [p0|] eqn:Hp0; [|discriminate].
  eapply (run_ind (fun x => inv_links x /\ exists bd, Inv (New b m t d) bd x));
    [| |exact Hrun].
  - split.
    + injection Hstart as <-. split.
      * intros [|j] tj doc Hj Hq; simpl in Hj;
          [injection Hj as <-; by destruct Hq|by rewrite lookup_nil in Hj].
      * intros [|j] tj Hj Hne; [done|].
        simpl in Hj. by rewrite lookup_nil in Hj.
    + exists (url_Hostname p0). apply (Inv_start _ _ _ _ p0); [assumption|].
      unfold Crawl_start. simpl. by rewrite Hp0.
  - intros tid s1 s2 (Hl & bd & Hi) Hstep. split.
    + eapply step_inv_links; [eassumption|apply Hi|apply Hi|assumption].
    + exists bd. eapply Inv_step; eassumption.
Qed.

(** X3: every goroutine but the first crawls a link found on the page of
    the goroutine that spawned it. The goroutine that spawned it made a
    request for its own canonical URL that was answered with status 200
    and a document; an anchor of that document has an href which,
    resolved against that canonical URL, is the URL crawled; that URL
    parses, its hostname is the base domain, and it does not end in .pdf
    or .zip; and it is crawled one level deeper than the page, which was
    itself within the depth limit. *)
Theorem spawned_goroutines_follow_kept_links b m t d s :
  reachable (New b m t d) s ->
  forall tid tk, tasks s !! tid = Some tk -> tid <> 0%nat ->
    strings_HasSuffix (t_url tk) ".pdf" = false /\
    strings_HasSuffix (t_url tk) ".zip" = false /\
    exists p tp doc href,
      t_parent tk = Some p /\ tasks s !! p = Some tp /\
      (p, OpDo (normalizeURL (t_url tp)) (DoResp 200 (Some doc))) ∈ trace s /\
      (normalizeURL (t_url tp), DoResp 200 (Some doc)) ∈ fetched (trace s) /\
      Some href ∈ doc_anchors doc /\
      resolveURL (normalizeURL (t_url tp)) href = Some (t_url tk) /\
      (exists u, url_Parse (t_url tk) = Some u /\
                 url_Hostname u = t_baseDomain tp) /\
      t_depth tk = wrap_int (t_depth tp + 1) /\
      t_depth tp <= m.
Proof.
  intros Hr tid tk Htk Hne.
  destruct (Inv_reachable _ _ _ _ _ Hr) as (p0 & _ & H).
  pose proof (I_maxDepth _ _ _ H) as Hm. simpl in Hm. rewrite <- Hm.
  destruct (proj2 (links_reachable _ _ _ _ _ Hr) _ _ Htk Hne)
    as (Hpdf & Hzip & p & tp & doc & href & Hp & Htp & Hdo & Ha & Hres
        & Hhost & Hdep & Hle).
  split; [assumption|]. split; [assumption|].
  exists p, tp, doc, href. unfold normalized in *.
  repeat split; try assumption.
  eapply fetched_elem; eassumption.
Qed.

(** ** Depths *)

Lemma wrap_int_small z : - 2 ^ 63 <= z < 2 ^ 63 -> wrap_int z = z.
Proof.
  intros Hz. unfold wrap_int. rewrite Z.mod_small by lia. lia.
Qed.

Lemma step_inv_page_task tid s s' :
  step tid s = Some s' -> inv_page_task s -> inv_page_task s'.
Proof.
  intros Hstep Hinv pg Hpg.
  assert (Hold : pg ∈ pages (crawler s) ->
            exists j tj, tasks s' !! j = Some tj /\
              URL pg = normalized tj /\ Depth pg = t_depth tj /\
              (j, OpAppend pg) ∈ trace s').
  { intros Hin. destruct (Hinv _ Hin) as (j & tj & Hj & Hu & Hd & Htr).
    destruct (step_lookup _ _ _ _ _ Hstep Hj) as (tj' & Hj' & Hu' & Hd' & _).
    exists j, tj'. unfold normalized in *. rewrite Hu', Hd'.
    repeat split; try assumption.
    clear -Hstep Htr. step_inv Hstep; try assumption;
      apply elem_of_app; by left. }
  revert Hpg Hold. step_inv Hstep; intros Hpg Hold; try (by apply Hold).
  apply elem_of_app in Hpg as [Hpg|Hpg]; [by apply Hold|].
  apply list_elem_of_singleton in Hpg as ->.
  exists tid, (set_pc t (PUnlockPages doc)). simpl.
  split; [apply list_lookup_insert_eq; eapply lookup_lt_Some; eassumption|].
  repeat split. apply elem_of_app. right. by constructor.
Qed.

Lemma page_task_reachable c s :
  pages c = [] -> reachable c s -> inv_page_task s.
Proof.
  intros Hc (s0 & sched & Hstart & Hrun).
  eapply (run_ind inv_page_task); [| |exact Hrun].
  - unfold Crawl_start in Hstart.
    destruct (url_Parse (baseURL c)) as [p0|]; [|discriminate].
    injection Hstart as <-. intros pg Hpg. simpl in Hpg. rewrite Hc in Hpg.
    by apply not_elem_of_nil in Hpg.
  - intros tid s1 s2 H1 Hstep. eapply step_inv_page_task; eassumption.
Qed.

Lemma depth_range b m t d s :
  reachable (New b m t d) s -> m < 2 ^ 63 - 1 ->
  forall tid tk, tasks s !! tid = Some tk ->
    (tid = 0%nat -> t_depth tk = 0) /\
    (tid <> 0%nat ->
     exists p tp, t_parent tk = Some p /\ (p < tid)%nat /\
       tasks s !! p = Some tp /\
       t_depth tk = t_depth tp + 1 /\ 0 <= t_depth tp <= m).
Proof.
  intros Hr Hm. destruct (Inv_reachable _ _ _ _ _ Hr) as (p0 & _ & H).
  pose proof (proj2 (links_reachable _ _ _ _ _ Hr)) as Hl.
  pose proof (I_maxDepth _ _ _ H) as Hmax. simpl in Hmax.
  destruct (is_root _ (I_seed _ _ _ H)) as (t0 & H0 & _ & Hd0 & _).
  intros tid. induction tid as [tid IH] using lt_wf_ind. intros tk Htk.
  split; [intros ->; congruence|]. intros Hne.
  destruct (Hl _ _ Htk Hne)
    as (_ & _ & p & tp & _ & _ & Hp & Htp & _ & _ & _ & _ & Hdep & Hle).
  destruct (iw_parent _ (I_wg _ _ _ H) _ _ Htk Hne) as (p' & Hp' & Hlt).
  assert (p' = p) as -> by congruence.
  assert (Hge : 0 <= t_depth tp).
  { destruct (IH p Hlt tp Htp) as [Hz Hnz].
    destruct (decide (p = 0%nat)) as [->|Hpne]; [rewrite Hz; [lia|done]|].
    destruct (Hnz Hpne) as (q & tq & _ & _ & _ & -> & ?). lia. }
  rewrite Hmax in Hle.
  exists p, tp. repeat split; try assumption; try lia.
  rewrite Hdep. apply wrap_int_small. lia.
Qed.

(** X4: with a depth limit below the largest int, depths never wrap
    around: goroutine 0 has depth 0, every other goroutine is exactly one
    level below the goroutine that spawned it, all depths lie between 0
    and maxDepth+1, and every Page has the depth of the goroutine that
    appended it, between 0 and maxDepth. *)
Theorem depth_counts_levels_from_the_seed b m t d s :
  reachable (New b m t d) s -> m < 2 ^ 63 - 1 ->
  (forall tid tk, tasks s !! tid = Some tk ->
     0 <= t_depth tk <= Z.max 0 (m + 1) /\
     (tid = 0%nat -> t_depth tk = 0) /\
     (tid <> 0%nat ->
      exists p tp, t_parent tk = Some p /\ tasks s !! p = Some tp /\
                   t_depth tk = t_depth tp + 1)) /\
  (forall pg, pg ∈ pages (crawler s) ->
     0 <= Depth pg <= m /\
     exists tid tk, tasks s !! tid = Some tk /\
       URL pg = normalizeURL (t_url tk) /\ Depth pg = t_depth tk).
Proof.
  intros Hr Hm. destruct (Inv_reachable _ _ _ _ _ Hr) as (p0 & _ & H).
  pose proof (depth_range _ _ _ _ _ Hr Hm) as Hd.
  assert (Htask : forall tid tk, tasks s !! tid = Some tk ->
            0 <= t_depth tk <= Z.max 0 (m + 1)).
  { intros tid tk Htk. destruct (Hd _ _ Htk) as [Hz Hnz].
    destruct (decide (tid = 0%nat)) as [->|Hne]; [rewrite Hz; [lia|done]|].
    destruct (Hnz Hne) as (p & tp & _ & _ & _ & -> & ?). lia. }
  split.
  - intros tid tk Htk. split; [by eapply Htask|].
    destruct (Hd _ _ Htk) as [Hz Hnz]. split; [assumption|].
    intros Hne. destruct (Hnz Hne) as (p & tp & ? & _ & ? & ? & _). eauto.
  - intros pg Hpg.
    destruct (page_task_reachable (New b m t d) s eq_refl Hr _ Hpg)
      as (tid & tk & Htk & Hu & Hdp & _).
    split; [|eauto 10]. split.
    + rewrite Hdp. by eapply Htask.
    + pose proof (I_maxDepth _ _ _ H) as Hmax. simpl in Hmax.
      rewrite <- Hmax. by apply (id_page _ (I_depth _ _ _ H)).
Qed.

(** ** Where a Page comes from *)

Lemma fetched_mono tid s s' x :
  step tid s = Some s' -> x ∈ fetched (trace s) -> x ∈ fetched (trace s').
Proof.
  intros Hstep Hx. step_inv Hstep; rewrite ?fetched_snoc; simpl;
    rewrite ?app_nil_r; try assumption.
  apply elem_of_app. by left.
Qed.

Lemma step_inv_prov tid s s' :
  step tid s = Some s' -> inv_trace s -> inv_prov s -> inv_prov s'.
Proof.
  intros Hstep Htr Hinv pg Hpg.
  assert (Hold : pg ∈ pages (crawler s) ->
            exists doc, (URL pg, DoResp 200 (Some doc)) ∈ fetched (trace s') /\
                        Title pg = doc_title doc /\ Content pg = doc_main doc).
  { intros Hin. destruct (Hinv _ Hin) as (doc & Hf & Ht & Hc).
    exists doc. split; [|auto]. eapply fetched_mono; eassumption. }
  revert Hpg Hold. step_inv Hstep; intros Hpg Hold; try (by apply Hold).
  apply elem_of_app in Hpg as [Hpg|Hpg]; [by apply Hold|].
  apply list_elem_of_singleton in Hpg as ->. simpl.
  exists doc. split; [|auto]. rewrite fetched_snoc. simpl. rewrite app_nil_r.
  eapply fetched_elem. apply (it_pending _ Htr _ _ _ Ht). by rewrite Hpc.
Qed.

Lemma step_inv_answers tid s s' :
  step tid s = Some s' -> inv_answers s -> inv_answers s'.
Proof.
  intros Hstep Hinv. unfold inv_answers in *.
  step_inv Hstep; rewrite ?fetched_snoc; simpl; rewrite ?app_nil_r;
    try assumption.
  intros k x rx Hk. apply lookup_app_Some in Hk as [Hk|[Hlen Hk]]; [eauto|].
  destruct (k - length (fetched (trace s)))%nat as [|k'] eqn:Ek;
    simpl in Hk; [|by rewrite lookup_nil in Hk].
  injection Hk as <- <-. replace k with (length (fetched (trace s))) by lia.
  auto.
Qed.

Lemma prov_answers_reachable b m t d s :
  reachable (New b m t d) s -> inv_prov s /\ inv_answers s.
Proof.
  intros (s0 & sched & Hstart & Hrun).
  unfold Crawl_start in Hstart. simpl in Hstart.
  destruct (url_Parse b) as [p0|] eqn:Hp0; [|discriminate].
  assert (H3 : (inv_prov s /\ inv_answers s) /\
               Inv (New b m t d) (url_Hostname p0) s); [|tauto].
  eapply (run_ind (fun x => (inv_prov x /\ inv_answers x) /\
                            Inv (New b m t d) (url_Hostname p0) x));
    [| |exact Hrun].
  - split; [split|].
    + injection Hstart as <-. intros pg Hpg. by apply not_elem_of_nil in Hpg.
    + injection Hstart as <-. intros k x rx Hk. simpl in Hk.
      by rewrite lookup_nil in Hk.
    + apply (Inv_start _ _ _ _ p0); [assumption|].
      unfold Crawl_start. simpl. by rewrite Hp0.
  - intros tid s1 s2 ((Hp & Ha) & Hi) Hstep. split; [split|].
    + eapply step_inv_prov; [eassumption|apply Hi|assumption].
    + eapply step_inv_answers; eassumption.
    + eapply Inv_step; eassumption.
Qed.

(** X5: a Page is the parse of a 200 answer the network gave for its URL.
    For every Page there is a request of the trace, number k, for the
    Page's URL, which http.NewRequest accepted and client.Do answered
    with status 200 and a readable document, and the Page's title and
    content are that document's title and main content. *)
Theorem page_holds_the_answer_to_its_request b m t d s :
  reachable (New b m t d) s ->
  forall pg, pg ∈ pages (crawler s) ->
    exists k doc,
      fetched (trace s) !! k = Some (URL pg, DoResp 200 (Some doc)) /\
      client_Do k (URL pg) = DoResp 200 (Some doc) /\
      http_NewRequest (URL pg) = true /\
      Title pg = doc_title doc /\ Content pg = doc_main doc.
Proof.
  intros Hr pg Hpg. destruct (prov_answers_reachable _ _ _ _ _ Hr) as [Hp Ha].
  destruct (Hp _ Hpg) as (doc & Hdoc & Ht & Hc).
  apply list_elem_of_lookup in Hdoc as [k Hk].
  destruct (Ha _ _ _ Hk) as [Hdo Hnew].
  exists k, doc. repeat split; try assumption. congruence.
Qed.

(** ** What grows *)

Lemma step_inv_size tid s s' :
  step tid s = Some s' -> inv_visit s -> inv_size s -> inv_size s'.
Proof.
  intros Hstep Hv [Hsz Htrue]. unfold inv_size.
  step_inv Hstep; rewrite ?inserted_snoc; simpl; rewrite ?app_nil_r;
    try (split; assumption).
  pose proof (iv_set _ Hv _ _ Ht Hpc) as Hnot. unfold map_get, normalized in Hnot.
  assert (Hnone : visited (crawler s) !! normalizeURL (t_url t) = None).
  { destruct (visited (crawler s) !! normalizeURL (t_url t)) as [v|] eqn:E;
      [|reflexivity].
    rewrite (Htrue _ _ E) in Hnot. discriminate. }
  split.
  - rewrite map_size_insert_None by assumption. rewrite length_app. simpl. lia.
  - intros x v Hx. destruct (decide (normalizeURL (t_url t) = x)) as [<-|Hne].
    + rewrite lookup_insert_eq in Hx. congruence.
    + rewrite lookup_insert_ne in Hx by assumption. eauto.
Qed.

Lemma size_reachable b m t d s : reachable (New b m t d) s -> inv_size s.
Proof.
  intros (s0 & sched & Hstart & Hrun).
  unfold Crawl_start in Hstart. simpl in Hstart.
  destruct (url_Parse b) as [p0|] eqn:Hp0; [|discriminate].
  assert (H2 : inv_size s /\ Inv (New b m t d) (url_Hostname p0) s); [|tauto].
  eapply (run_ind (fun x => inv_size x /\
                            Inv (New b m t d) (url_Hostname p0) x));
    [| |exact Hrun].
  - split.
    + injection Hstart as <-. split; simpl.
      * apply map_size_empty.
      * intros x v Hx. by rewrite lookup_empty in Hx.
    + apply (Inv_start _ _ _ _ p0); [assumption|].
      unfold Crawl_start. simpl. by rewrite Hp0.
  - intros tid s1 s2 (Hs & Hi) Hstep. split.
    + eapply step_inv_size; [eassumption|apply Hi|assumption].
    + eapply Inv_step; eassumption.
Qed.

(** X6: there are at most as many Pages as requests, and at most as many
    requests as keys in the visited map; the map never holds [false]
    under a key. *)
Theorem pages_requests_visited_counts b m t d s :
  reachable (New b m t d) s ->
  (length (pages (crawler s)) <= length (fetched (trace s)))%nat /\
  (length (fetched (trace s)) <= size (visited (crawler s)))%nat /\
  (forall u v, visited (crawler s) !! u = Some v -> v = true).
Proof.
  intros Hr. destruct (Inv_reachable _ _ _ _ _ Hr) as (p0 & _ & H).
  pose proof (I_visit _ _ _ H) as Hv. pose proof (I_trace _ _ _ H) as Ht.
  destruct (size_reachable _ _ _ _ _ Hr) as [Hsz Htrue].
  split; [|split; [|exact Htrue]].
  - rewrite <- (length_fmap URL), <- (length_fmap fst (fetched (trace s))).
    apply submseteq_length, NoDup_submseteq; [apply Hv|].
    intros u Hu. apply list_elem_of_fmap in Hu as (pg & -> & Hpg).
    destruct (page_fetched _ _ Hv Ht Hpg) as (doc & Hdoc).
    apply list_elem_of_fmap. by exists (URL pg, DoResp 200 (Some doc)).
  - rewrite Hsz, <- (length_fmap fst (fetched (trace s))).
    apply submseteq_length, NoDup_submseteq; [apply Hv|].
    intros u Hu. apply (iv_inserted _ Hv). by apply (iv_fetched _ Hv).
Qed.

Lemma step_append_only tid s s' :
  step tid s = Some s' ->
  pages (crawler s) `prefix_of` pages (crawler s') /\
  trace s `prefix_of` trace s' /\
  (length (tasks s) <= length (tasks s'))%nat.
Proof.
  intros Hstep. split; [|split; [|by eapply step_length]].
  - step_inv Hstep; try reflexivity. by apply prefix_app_r.
  - step_inv Hstep; try reflexivity; by apply prefix_app_r.
Qed.

(** X7: the results are append-only. Along every run the Pages gathered
    so far stay where they are, in the same order, and so does the
    trace; no goroutine is ever removed, and none changes its URL, depth
    or parent. *)
Theorem results_are_append_only sched s s' :
  run sched s = Some s' ->
  pages (crawler s) `prefix_of` pages (crawler s') /\
  trace s `prefix_of` trace s' /\
  (forall tid tk, tasks s !! tid = Some tk ->
     exists tk', tasks s' !! tid = Some tk' /\
       t_url tk' = t_url tk /\ t_depth tk' = t_depth tk /\
       t_baseDomain tk' = t_baseDomain tk /\ t_parent tk' = t_parent tk).
Proof.
  revert s. induction sched as [|tid sched IH]; intros s; simpl.
  - intros [= <-]. repeat split; try reflexivity. eauto 10.
  - destruct (step tid s) as [s1|] eqn:Hstep; [|discriminate].
    intros Hrun. destruct (IH _ Hrun) as (Hp & Ht & Hk).
    destruct (step_append_only _ _ _ Hstep) as (Hp1 & Ht1 & _).
    split; [by etrans|]. split; [by etrans|].
    intros j tj Hj.
    destruct (step_lookup _ _ _ _ _ Hstep Hj)
      as (tj1 & Hj1 & Hu1 & Hd1 & Hb1 & Hpa1 & _).
    destruct (Hk _ _ Hj1) as (tj' & Hj' & Hu & Hd & Hb & Hpa).
    exists tj'. repeat split; congruence.
Qed.

(** ** When a crawl gets stuck *)

Lemma no_step_iff s tid tk :
  tasks s !! tid = Some tk ->
  step tid s = None <-> finished (t_pc tk) = true \/ blocked s tid tk.
Proof.
  intros Htk. unfold step, blocked. rewrite Htk.
  destruct (t_pc tk) eqn:Hpc; simpl.
  all: try (split; [discriminate|intros [?|?]; [discriminate|tauto]]).
  - destruct (Z.ltb_spec (maxDepth (crawler s)) (t_depth tk)).
    + split; [discriminate|]. intros [?|[? _]]; [discriminate|lia].
    + destruct (visitedMux (crawler s)); split; try discriminate; auto.
      intros [?|[_ ?]]; [discriminate|congruence].
  - destruct (map_get (visited (crawler s)) (normalizeURL (t_url tk)));
      (split; [discriminate|intros [?|?]; [discriminate|tauto]]).
  - destruct (Nat.ltb_spec (chan_len (semaphore (crawler s)))
                (chan_cap (semaphore (crawler s)))).
    + split; [discriminate|]. intros [?|?]; [discriminate|lia].
    + split; auto.
  - destruct (http_NewRequest (normalizeURL (t_url tk)));
      (split; [discriminate|intros [?|?]; [discriminate|tauto]]).
  - destruct (pagesMux (crawler s)); split; try discriminate; auto.
    intros [?|?]; [discriminate|congruence].
  - destruct (Nat.eqb_spec (wg_get (wgs s) tid) 0).
    + split; [discriminate|]. intros [?|?]; [discriminate|congruence].
    + split; auto.
  - split; auto.
Qed.

Lemma countb_pos {A} (f : A -> bool) (l : list A) :
  countb f l <> 0%nat -> exists i x, l !! i = Some x /\ f x = true.
Proof.
  induction l as [|z l IH]; simpl; [done|].
  destruct (f z) eqn:Hz.
  - intros _. exists 0%nat, z. auto.
  - intros H. destruct (IH H) as (i & x & Hi & Hx). exists (S i), x. auto.
Qed.

(** The shape of a state in which nothing moves and [Crawl] is not
    back. *)
Lemma stuck_shape b m t d s :
  reachable (New b m t d) s ->
  (forall tid, step tid s = None) -> Crawl_return s = None ->
  chan_len (semaphore (crawler s)) = 5%nat /\
  (forall tid tk, tasks s !! tid = Some tk ->
     finished (t_pc tk) = true \/ t_pc tk = PAcquire \/ t_pc tk = PWait) /\
  (forall tid tk, tasks s !! tid = Some tk -> slot_held tk = true ->
     t_pc tk = PWait) /\
  (exists tid tk, tasks s !! tid = Some tk /\ t_pc tk = PAcquire).
Proof.
  intros Hr Hstuck Hret.
  destruct (Inv_reachable _ _ _ _ _ Hr) as (p0 & _ & H).
  destruct (I_mutex _ _ _ H) as (Hm & Hvh & Hph).
  destruct (I_sem _ _ _ H) as (Hcap & Hlen & Hle).
  pose proof (I_wg _ _ _ H) as Hw.
  assert (Hmoves : forall h th, tasks s !! h = Some th ->
            holds_visitedMux (t_pc th) = true \/ holds_pagesMux (t_pc th) = true ->
            False).
  { intros h th Hh Hhold. pose proof (Hstuck h) as Hn.
    apply (no_step_iff _ _ _ Hh) in Hn. unfold blocked in Hn.
    destruct (t_pc th); simpl in *; destruct Hhold; destruct Hn;
      try discriminate; tauto. }
  assert (Hkinds : forall tid tk, tasks s !! tid = Some tk ->
     finished (t_pc tk) = true \/
     (t_pc tk = PAcquire /\
      (chan_cap (semaphore (crawler s)) <= chan_len (semaphore (crawler s)))%nat) \/
     (t_pc tk = PWait /\ wg_get (wgs s) tid <> 0%nat)).
  { intros tid tk Htk. pose proof (Hstuck tid) as Hn.
    apply (no_step_iff _ _ _ Htk) in Hn as [Hf|Hb]; [by left|right].
    unfold blocked in Hb. destruct (t_pc tk) eqn:Hpc; try tauto.
    - exfalso. destruct Hb as [_ Hb].
      destruct (visitedMux (crawler s)) as [h|] eqn:Hv; [|congruence].
      pose proof (Hvh h eq_refl) as Hlt.
      apply lookup_lt_is_Some in Hlt as [th Hth].
      eapply (Hmoves h th Hth). left. by apply (Hm _ _ Hth).
    - exfalso.
      destruct (pagesMux (crawler s)) as [h|] eqn:Hv; [|congruence].
      pose proof (Hph h eq_refl) as Hlt.
      apply lookup_lt_is_Some in Hlt as [th Hth].
      eapply (Hmoves h th Hth). right. by apply (Hm _ _ Hth). }
  assert (Hacq : forall n tid tk, (length (tasks s) - tid <= n)%nat ->
            tasks s !! tid = Some tk -> t_pc tk = PWait ->
            exists a ta, tasks s !! a = Some ta /\ t_pc ta = PAcquire).
  { induction n as [|n IH]; intros tid tk Hn Htk Hpc.
    - apply lookup_lt_Some in Htk. lia.
    - destruct (Hkinds _ _ Htk) as [Hf|[[Hx _]|[_ Hwg]]];
        [by rewrite Hpc in Hf|congruence|].
      pose proof (iw_count _ Hw _ _ Htk) as Hc. rewrite Hpc in Hc. simpl in Hc.
      rewrite <- Hc in Hwg.
      apply countb_pos in Hwg as (c & tc & Hc' & Hlive).
      unfold live_child in Hlive. apply andb_prop in Hlive as [Hpar Hnf].
      apply bool_decide_eq_true_1 in Hpar. apply negb_true_iff in Hnf.
      assert (Hgt : (tid < c)%nat).
      { destruct (decide (c = 0%nat)) as [->|Hne].
        - destruct (iw_root _ Hw) as (t0 & H0 & Hp0). congruence.
        - destruct (iw_parent _ Hw _ _ Hc' Hne) as (q & Hq & Hlt).
          congruence. }
      destruct (Hkinds _ _ Hc') as [Hf|[[Hx _]|[Hx _]]];
        [congruence|eauto|].
      apply (IH c tc); [lia|assumption..]. }
  assert (Hex : exists a ta, tasks s !! a = Some ta /\ t_pc ta = PAcquire).
  { destruct (iw_root _ Hw) as (t0 & H0 & _).
    destruct (Hkinds _ _ H0) as [Hf|[[Hx _]|[Hx _]]].
    - exfalso. unfold Crawl_return in Hret. rewrite H0 in Hret.
      destruct (t_pc t0) as [| | | | | | | | | | | | | | |[e|]];
        discriminate.
    - eauto.
    - eapply (Hacq (length (tasks s)) 0%nat t0); [lia|assumption..]. }
  split; [|split; [|split; [|exact Hex]]].
  - destruct Hex as (a & ta & Ha & Hpc).
    destruct (Hkinds _ _ Ha) as [Hf|[[_ Hfull]|[Hx _]]];
      [by rewrite Hpc in Hf| |congruence].
    lia.
  - intros tid tk Htk. destruct (Hkinds _ _ Htk) as [?|[[? _]|[? _]]]; auto.
  - intros tid tk Htk Hheld. unfold slot_held in Hheld.
    destruct (Hkinds _ _ Htk) as [Hf|[[Hx _]|[Hx _]]]; [| |assumption].
    + destruct (t_pc tk); discriminate.
    + rewrite Hx in Hheld. discriminate.
Qed.

(** X8: a crawl can only get stuck on the semaphore. In a state of a
    crawl in which no goroutine can take a step and [Crawl] has not
    returned, every goroutine has finished, waits for a slot or waits in
    wg.Wait(); all five slots are taken, each by a goroutine that waits
    for its children; and at least one goroutine waits for a slot. No
    crawl gets stuck on a mutex. *)
Theorem stuck_only_on_the_semaphore b m t d s :
  reachable (New b m t d) s ->
  (forall tid, step tid s = None) -> Crawl_return s = None ->
  chan_len (semaphore (crawler s)) = 5%nat /\
  (forall tid tk, tasks s !! tid = Some tk ->
     finished (t_pc tk) = true \/ t_pc tk = PAcquire \/ t_pc tk = PWait) /\
  (forall tid tk, tasks s !! tid = Some tk -> slot_held tk = true ->
     t_pc tk = PWait) /\
  (exists tid tk, tasks s !! tid = Some tk /\ t_pc tk = PAcquire).
Proof. apply stuck_shape. Qed.

Lemma countb_only_head {A} (f : A -> bool) (l : list A) :
  (forall i x, l !! i = Some x -> f x = true -> i = 0%nat) ->
  (countb f l <= 1)%nat.
Proof.
  intros H. destruct l as [|z l]; simpl; [lia|].
  rewrite (countb_all_false f l).
  - destruct (f z); lia.
  - intros x Hx. apply list_elem_of_lookup in Hx as [i Hi].
    destruct (f x) eqn:Hfx; [|reflexivity].
    discriminate (H (S i) x Hi Hfx).
Qed.

(** X9: with a depth limit of 0 or less a crawl never gets stuck: only
    goroutine 0 ever takes a slot, and as long as [Crawl] has not
    returned some goroutine can take a step. *)
Theorem no_deadlock_without_recursion b m t d s :
  reachable (New b m t d) s -> m <= 0 ->
  (forall tid tk, tasks s !! tid = Some tk -> slot_held tk = true ->
     tid = 0%nat) /\
  (chan_len (semaphore (crawler s)) <= 1)%nat /\
  (Crawl_return s = None -> exists tid, is_Some (step tid s)).
Proof.
  intros Hr Hm. destruct (Inv_reachable _ _ _ _ _ Hr) as (p0 & _ & H).
  pose proof (I_maxDepth _ _ _ H) as Hmax. simpl in Hmax.
  assert (Hbig : m < 2 ^ 63 - 1) by lia.
  assert (Honly : forall tid tk, tasks s !! tid = Some tk ->
            slot_held tk = true -> tid = 0%nat).
  { intros tid tk Htk Hheld.
    destruct (decide (tid = 0%nat)) as [|Hne]; [assumption|exfalso].
    destruct (depth_range _ _ _ _ _ Hr Hbig _ _ Htk) as [_ Hnz].
    destruct (Hnz Hne) as (p & tp & _ & _ & _ & Hd & Hge & _).
    assert (Hle : t_depth tk <= maxDepth (crawler s)).
    { apply (id_task _ (I_depth _ _ _ H) _ _ Htk).
      unfold slot_held in Hheld. by destruct (t_pc tk). }
    lia. }
  assert (Hone : (chan_len (semaphore (crawler s)) <= 1)%nat).
  { destruct (I_sem _ _ _ H) as (_ & -> & _). by apply countb_only_head. }
  split; [exact Honly|]. split; [exact Hone|].
  intros Hret. destruct (enabled s) as [|tid l] eqn:He.
  - exfalso. pose proof (enabled_nil _ He) as Hstuck.
    destruct (stuck_shape _ _ _ _ _ Hr Hstuck Hret) as (H5 & _).
    lia.
  - exists tid. assert (Hin : tid ∈ enabled s) by (rewrite He; by constructor).
    unfold enabled in Hin. by apply list_elem_of_filter in Hin as [? _].
Qed.

End EngineFacts.

(** * The crawler on concrete sites *)

Local Open Scope string_scope.

(** ** The example network *)

Lemma prefix_colon_cons ch s :
  String.prefix ":" (String ch s) = if ascii_dec ":" ch then true else false.
Proof.
  cbn [String.prefix]. destruct (ascii_dec ":" ch); [by destruct s|reflexivity].
Qed.

Lemma toy_parse_normalizeURL u :
  toy_parse u = Some u -> toy_parse (normalizeURL u) = Some (normalizeURL u).
Proof.
  unfold toy_parse. destruct u as [|ch s]; [reflexivity|].
  rewrite normalizeURL_cons.
  destruct (Ascii.eqb ch "#"); [tauto|].
  destruct (String.index 0 "#" s); rewrite !prefix_colon_cons;
    destruct (ascii_dec ":" ch); intros H; try discriminate H; reflexivity.
Qed.

(** Cutting the fragment off leaves the hostname as it is. *)
Lemma toy_fragment_hostname (site : list (string * Response)) :
  forall u p, @url_Parse (toy_net site) u = Some p ->
    exists p', @url_Parse (toy_net site) (normalizeURL u) = Some p' /\
               @url_Hostname (toy_net site) p' = @url_Hostname (toy_net site) p.
Proof.
  simpl. intros u p Hp.
  assert (p = u) as ->
    by (unfold toy_parse in Hp; destruct (String.prefix ":" u); congruence).
  exists (normalizeURL u). split.
  - by apply toy_parse_normalizeURL.
  - by rewrite normalizeURL_idem.
Qed.

(** ** The scenarios of the specification *)

(** Seed https://x.test/ linking to /a, /a linking to /b and back to the
    root, depth limit 2: the root, /a and /b once each, at depths 0, 1
    and 2; the page on the other host, the PDF, the page that is gone and
    the page at depth 3 are not there. *)
Example docs_scenario :
  @Crawl_return docs_final =
  Some ([ {| URL := "https://x.test/"; Title := "root"; Content := "root";
             Depth := 0 |};
          {| URL := "https://x.test/a"; Title := "a"; Content := "a";
             Depth := 1 |};
          {| URL := "https://x.test/b"; Title := "b"; Content := "b";
             Depth := 2 |} ], None).
Proof. vm_compute. reflexivity. Qed.

(** A page that answers 404 below the seed costs its branch only. *)
Example docs_scenario_absorbs_404 :
  (t_pc <$> tasks docs_final) !! 5%nat =
    Some (PDone (Some (ErrStatus 404 "https://x.test/gone"))) /\
  exists ps, @Crawl_return docs_final = Some (ps, None).
Proof. split; [|eexists]; vm_compute; reflexivity. Qed.

(** With a depth limit of 0 only the seed page is there. *)
Example seed_only_scenario :
  @Crawl_return seed_only_final =
  Some ([ {| URL := "https://x.test/"; Title := "root"; Content := "root";
             Depth := 0 |} ], None).
Proof. vm_compute. reflexivity. Qed.

(** ** Witnesses and counterexamples *)

Lemma C1_witness :
  @reachable (toy_net site_diamond) diamond_crawler diamond_final /\
  NoDup (URL <$> pages (crawler diamond_final)) /\
  NoDup (fst <$> fetched (trace diamond_final)).
Proof.
  assert (Hr : @reachable (toy_net site_diamond) diamond_crawler diamond_final).
  { exists (@start_of (toy_net site_diamond) diamond_crawler),
      (@sched_oldest (toy_net site_diamond) 200
         (@start_of (toy_net site_diamond) diamond_crawler)).
    split; vm_compute; reflexivity. }
  split; [exact Hr|].
  pose proof (@C1_url_visited_once (toy_net site_diamond)
                "https://x.test/" 3 30 (2 # 1) diamond_final Hr) as H.
  split; [exact (proj1 H)|exact (proj1 (proj2 H))].
Defined.

(** C2, as stated, fails: the seed URL parses, the seed page answers 404,
    and [Crawl] returns that as its error, with no pages. *)
Lemma C2_counterexample_seed_failure_is_fatal :
  is_Some (@url_Parse (toy_net site_empty) "https://x.test/") /\
  @Crawl (toy_net site_empty) docs_crawler
    [0; 0; 0; 0; 0; 0; 0; 0; 0]%nat =
  Some ([], Some (ErrStatus 404 "https://x.test/")).
Proof. split; [eexists|]; vm_compute; reflexivity. Qed.

Lemma C2_witness :
  (* a seed that does not parse *)
  @url_Parse (toy_net site_docs) ":x.test" = None /\
  @Crawl (toy_net site_docs) (New ":x.test" 2 30 (2 # 1)) [] =
    Some ([], Some (ErrParse ":x.test")) /\
  (* a seed that answers 404 *)
  @reachable (toy_net site_empty) docs_crawler seed_gone_final /\
  (0 <= 2)%Z /\
  @own_failure (toy_net site_empty) (normalizeURL "https://x.test/")
    (ErrStatus 404 "https://x.test/") (trace seed_gone_final) /\
  @Crawl_return seed_gone_final =
    Some ([], Some (ErrStatus 404 "https://x.test/")) /\
  (* a page below the seed that answers 404 *)
  @reachable (toy_net site_docs) docs_crawler docs_final /\
  ("https://x.test/gone", DoResp 404 None) ∈ fetched (trace docs_final) /\
  (exists doc, (normalizeURL "https://x.test/", DoResp 200 (Some doc))
               ∈ fetched (trace docs_final)) /\
  @Crawl_return docs_final = Some (pages (crawler docs_final), None).
Proof.
  assert (Hp : @url_Parse (toy_net site_docs) ":x.test" = None)
    by (vm_compute; reflexivity).
  assert (Hr : @reachable (toy_net site_empty) docs_crawler seed_gone_final).
  { exists (@start_of (toy_net site_empty) docs_crawler),
      (@sched_oldest (toy_net site_empty) 200
         (@start_of (toy_net site_empty) docs_crawler)).
    split; vm_compute; reflexivity. }
  assert (Hm : (0 <= 2)%Z) by discriminate.
  assert (Hfail : @own_failure (toy_net site_empty)
            (normalizeURL "https://x.test/")
            (ErrStatus 404 "https://x.test/") (trace seed_gone_final)).
  { right. exists (DoResp 404 None). split; [|split].
    - apply list_elem_of_In. vm_compute. auto.
    - intros doc. discriminate.
    - vm_compute. reflexivity. }
  assert (Hret : exists r, @Crawl_return seed_gone_final = Some r)
    by (eexists; vm_compute; reflexivity).
  assert (Hr' : @reachable (toy_net site_docs) docs_crawler docs_final).
  { exists (@start_of (toy_net site_docs) docs_crawler),
      (@sched_oldest (toy_net site_docs) 200
         (@start_of (toy_net site_docs) docs_crawler)).
    split; vm_compute; reflexivity. }
  assert (Hgone : ("https://x.test/gone", DoResp 404 None)
                  ∈ fetched (trace docs_final)).
  { apply list_elem_of_In. vm_compute. auto 10. }
  assert (Hseed : exists doc,
            (normalizeURL "https://x.test/", DoResp 200 (Some doc))
            ∈ fetched (trace docs_final)).
  { eexists. apply list_elem_of_In. vm_compute. left. reflexivity. }
  assert (Hret' : exists r, @Crawl_return docs_final = Some r)
    by (eexists; vm_compute; reflexivity).
  split; [exact Hp|]. split.
  { exact (proj1 (@C2_only_the_seed_visit_is_fatal (toy_net site_docs)
                    ":x.test" 2 30 (2 # 1)) Hp []). }
  split; [exact Hr|]. split; [exact Hm|]. split; [exact Hfail|]. split.
  { destruct Hret as [r Hret]. rewrite Hret. f_equal.
    exact (proj1 (proj2 (proj1 (proj2
             (@C2_only_the_seed_visit_is_fatal (toy_net site_empty)
                "https://x.test/" 2 30 (2 # 1)))
             seed_gone_final _ Hr Hm Hfail)) r Hret). }
  split; [exact Hr'|]. split; [exact Hgone|]. split; [exact Hseed|].
  destruct Hret' as [r Hret'].
  rewrite Hret'. f_equal.
  exact (proj1 (proj2 (proj2 (proj2 (proj2
           (@C2_only_the_seed_visit_is_fatal (toy_net site_docs)
              "https://x.test/" 2 30 (2 # 1)))
           docs_final Hr'))) Hseed r Hret').
Defined.

(** Where one goroutine at a time can move, every schedule goes the
    same way. *)
Lemma always_alone_run {net : Net} (P : state -> bool) fuel :
  forall s, always_alone P fuel s = true ->
  forall sched s', run sched s = Some s' -> P s' = true.
Proof.
  induction fuel as [|fuel IH]; intros s Hall [|tid sched] s' Hrun;
    simpl in Hall; apply andb_prop in Hall as [HP Hall]; simpl in Hrun.
  - by injection Hrun as <-.
  - destruct (step tid s) as [s1|] eqn:Hstep; [|discriminate].
    destruct (enabled s) as [|tid0 [|tid1 l]] eqn:He; try discriminate.
    by rewrite (enabled_nil _ He tid) in Hstep.
  - by injection Hrun as <-.
  - destruct (step tid s) as [s1|] eqn:Hstep; [|discriminate].
    destruct (enabled s) as [|tid0 [|tid1 l]] eqn:He; try discriminate.
    + by rewrite (enabled_nil _ He tid) in Hstep.
    + assert (Hin : tid ∈ enabled s).
      { unfold enabled. apply list_elem_of_filter. split.
        - rewrite Hstep. eauto.
        - apply elem_of_seq. split; [lia|].
          unfold step in Hstep.
          destruct (tasks s !! tid) eqn:Ht; [|discriminate].
          apply lookup_lt_Some in Ht. lia. }
      rewrite He in Hin. apply list_elem_of_singleton in Hin as ->.
      rewrite Hstep in Hall. exact (IH _ Hall _ _ Hrun).
Qed.

(** C3: [Crawl] does not return within any time. On a chain of six
    pages with a depth limit of 5, the five goroutines of the first five
    pages hold the five slots of the semaphore while they wait for their
    child in wg.Wait(), since the slot is given back by a defer, and the
    sixth waits for a slot: no goroutine can take a step, [Crawl] has not
    returned, and it never will. There is no other way for this crawl to
    go: under every schedule, [Crawl] has not returned. *)
Lemma C3_chain_crawl_never_returns :
  exists s0 sched s,
    @Crawl_start (toy_net site_chain) chain_crawler = inr s0 /\
    @run (toy_net site_chain) sched s0 = Some s /\
    (t_pc <$> tasks s) = [PWait; PWait; PWait; PWait; PWait; PAcquire] /\
    semaphore (crawler s) = {| chan_cap := 5; chan_len := 5 |} /\
    Crawl_return s = None /\
    (forall tid, @step (toy_net site_chain) tid s = None) /\
    (forall sched' s', @run (toy_net site_chain) sched' s = Some s' ->
       Crawl_return s' = None) /\
    (forall sched' s', @run (toy_net site_chain) sched' s0 = Some s' ->
       Crawl_return s' = None) /\
    (forall sched', @Crawl (toy_net site_chain) chain_crawler sched' = None).
Proof.
  exists (@start_of (toy_net site_chain) chain_crawler),
    (@sched_oldest (toy_net site_chain) 200
       (@start_of (toy_net site_chain) chain_crawler)),
    chain_stuck.
  assert (Hstuck : forall tid, @step (toy_net site_chain) tid chain_stuck = None).
  { apply enabled_nil. vm_compute. reflexivity. }
  assert (Hstart : @Crawl_start (toy_net site_chain) chain_crawler
                   = inr (@start_of (toy_net site_chain) chain_crawler))
    by (vm_compute; reflexivity).
  assert (Hall : @always_alone (toy_net site_chain) not_returned 200
                   (@start_of (toy_net site_chain) chain_crawler) = true)
    by (vm_compute; reflexivity).
  assert (Hnever : forall sched' s',
            @run (toy_net site_chain) sched'
              (@start_of (toy_net site_chain) chain_crawler) = Some s' ->
            Crawl_return s' = None).
  { intros sched' s' Hrun.
    pose proof (@always_alone_run (toy_net site_chain) _ _ _ Hall _ _ Hrun)
      as HP.
    unfold not_returned in HP. by destruct (Crawl_return s'). }
  split; [exact Hstart|].
  split; [vm_compute; reflexivity|].
  split; [vm_compute; reflexivity|].
  split; [vm_compute; reflexivity|].
  split; [vm_compute; reflexivity|].
  split; [exact Hstuck|].
  split.
  { intros sched' s' Hrun.
    rewrite (@stuck_forever (toy_net site_chain) chain_stuck Hstuck _ _ Hrun).
    vm_compute. reflexivity. }
  split; [exact Hnever|].
  intros sched'. unfold Crawl. rewrite Hstart.
  destruct (@run (toy_net site_chain) sched'
              (@start_of (toy_net site_chain) chain_crawler)) as [s'|] eqn:Hrun;
    [|reflexivity].
  exact (Hnever _ _ Hrun).
Qed.

Lemma Crawl_returns_witness :
  @reachable (toy_net site_docs) docs_crawler docs_final /\
  is_Some (@Crawl_return docs_final) /\
  forall tid, @step (toy_net site_docs) tid docs_final = None.
Proof.
  assert (Hr : @reachable (toy_net site_docs) docs_crawler docs_final).
  { exists (@start_of (toy_net site_docs) docs_crawler),
      (@sched_oldest (toy_net site_docs) 200
         (@start_of (toy_net site_docs) docs_crawler)).
    split; vm_compute; reflexivity. }
  assert (Hret : is_Some (@Crawl_return docs_final))
    by (eexists; vm_compute; reflexivity).
  split; [exact Hr|]. split; [exact Hret|].
  exact (proj1 (proj2 (@Crawl_returns_when_all_goroutines_done (toy_net site_docs)
                         "https://x.test/" 2 30 (2 # 1) docs_final Hr Hret))).
Defined.


Lemma C5_witness :
  @reachable (toy_net site_docs) docs_crawler docs_final /\
  @url_Parse (toy_net site_docs) "https://x.test/" = Some "https://x.test/" /\
  forall pg, pg ∈ pages (crawler docs_final) ->
    exists p', @url_Parse (toy_net site_docs) (URL pg) = Some p' /\
               @url_Hostname (toy_net site_docs) p' = "x.test".
Proof.
  assert (Hr : @reachable (toy_net site_docs) docs_crawler docs_final).
  { exists (@start_of (toy_net site_docs) docs_crawler),
      (@sched_oldest (toy_net site_docs) 200
         (@start_of (toy_net site_docs) docs_crawler)).
    split; vm_compute; reflexivity. }
  assert (Hp : @url_Parse (toy_net site_docs) "https://x.test/"
               = Some "https://x.test/") by (vm_compute; reflexivity).
  split; [exact Hr|]. split; [exact Hp|].
  exact (proj2 (proj2 (proj2 (@C5_pages_on_base_domain (toy_net site_docs)
                                "https://x.test/" 2 30 (2 # 1) docs_final
                                "https://x.test/" Hr Hp)))
           (toy_fragment_hostname site_docs)).
Defined.


Lemma C9_witness :
  @reachable (toy_net site_diamond) diamond_crawler diamond_final /\
  (("https://x.test/broken", DoResp 500 None)
     ∈ fetched (trace diamond_final)) /\
  failed (DoResp 500 None) /\
  forall p, p ∈ pages (crawler diamond_final) ->
    URL p <> "https://x.test/broken".
Proof.
  assert (Hr : @reachable (toy_net site_diamond) diamond_crawler diamond_final).
  { exists (@start_of (toy_net site_diamond) diamond_crawler),
      (@sched_oldest (toy_net site_diamond) 200
         (@start_of (toy_net site_diamond) diamond_crawler)).
    split; vm_compute; reflexivity. }
  assert (Hin : ("https://x.test/broken", DoResp 500 None)
                  ∈ fetched (trace diamond_final)).
  { apply list_elem_of_In. vm_compute. tauto. }
  assert (Hf : failed (DoResp 500 None)) by (intros doc; discriminate).
  split; [exact Hr|]. split; [exact Hin|]. split; [exact Hf|].
  exact (proj2 (proj2 (proj2 (proj2
           (@C9_failed_url_stays_visited (toy_net site_diamond)
              "https://x.test/" 3 30 (2 # 1) diamond_final Hr))))
           _ _ Hin Hf).
Defined.

Lemma C10_witness :
  is_Some (@url_Parse (toy_net site_docs) "https://x.test/") /\
  (-1 < 0)%Z /\
  @Crawl (toy_net site_docs) (New "https://x.test/" (-1) 30 (2 # 1))
    [0; 0]%nat = Some ([], None).
Proof.
  assert (Hp : is_Some (@url_Parse (toy_net site_docs) "https://x.test/"))
    by (eexists; vm_compute; reflexivity).
  assert (Hm : (-1 < 0)%Z) by reflexivity.
  split; [exact Hp|]. split; [exact Hm|].
  exact (proj1 (@C10_negative_maxDepth_returns_empty (toy_net site_docs)
                  "https://x.test/" (-1) 30 (2 # 1) Hp Hm)).
Defined.

(** C7: the delay is configured and never waited for. With a delay of
    2 s, the goroutine that has just put the seed into the visited map
    goes on to unlock, take a slot and send its request in its next
    three steps; a crawl takes the same steps whatever delay is
    configured. *)
Theorem C7_delay_is_stored_and_never_waited :
  delay seed_only_crawler = 2000000000 /\
  (exists s3 s6 r,
     @run (toy_net site_docs) [0; 0; 0]%nat
       (@start_of (toy_net site_docs) seed_only_crawler) = Some s3 /\
     @run (toy_net site_docs) [0; 0; 0]%nat s3 = Some s6 /\
     (t_pc <$> tasks s3) = [PUnlock] /\
     trace s3 = [(0%nat, OpInsert "https://x.test/")] /\
     (t_pc <$> tasks s6) = [PInFlight r] /\
     trace s6 = [(0%nat, OpInsert "https://x.test/"); (0%nat, OpAcquire);
                 (0%nat, OpDo "https://x.test/" r)]) /\
  (forall (net : Net) sched s dl,
     @run net sched (set_delay dl s) = set_delay dl <$> @run net sched s).
Proof.
  split; [vm_compute; reflexivity|]. split.
  - do 3 eexists. repeat split; vm_compute; reflexivity.
  - intros net sched s dl. apply run_set_delay.
Qed.


(** * The command line: output paths *)

Lemma length_append (a b : string) :
  String.length (a ++ b) = (String.length a + String.length b)%nat.
Proof.
  induction a as [|ch a IH]; [reflexivity|].
  rewrite append_cons_l. cbn [String.length]. by rewrite IH.
Qed.

Lemma substring_app_drop (a b : string) :
  String.substring (String.length a) (String.length b) (a ++ b) = b.
Proof.
  induction a as [|ch a IH].
  - rewrite append_nil_l. cbn [String.length].
    induction b as [|c b IHb]; [reflexivity|].
    cbn [String.length String.substring]. by rewrite IHb.
  - rewrite append_cons_l. cbn [String.length String.substring]. exact IH.
Qed.

Lemma substring_split_at (s : string) n :
  (n <= String.length s)%nat ->
  s = String.substring 0 n s ++ String.substring n (String.length s - n) s.
Proof.
  revert n. induction s as [|ch s IH]; intros n Hn.
  - cbn [String.length] in Hn. assert (n = 0%nat) as -> by lia. reflexivity.
  - destruct n as [|n].
    + cbn [String.length String.substring Nat.sub]. rewrite append_nil_l.
      f_equal. clear. induction s as [|c s IHs]; [reflexivity|].
      cbn [String.length String.substring]. by rewrite <- IHs.
    + cbn [String.length] in Hn. cbn [String.length String.substring Nat.sub].
      rewrite append_cons_l. f_equal. apply IH. lia.
Qed.

(** X10: containsExtension is the suffix test: it answers true exactly
    when the path is some stem followed by the extension (byte for byte,
    so in the same letter case), and it never reads out of bounds. *)
Theorem containsExtension_is_suffix path ext :
  containsExtension path ext = true <-> exists stem, path = stem ++ ext.
Proof.
  unfold containsExtension. split.
  - intros H. apply andb_prop in H as [Hle Heq].
    apply Nat.leb_le in Hle. apply String.eqb_eq in Heq.
    exists (String.substring 0 (String.length path - String.length ext) path).
    pose proof (substring_split_at path
                  (String.length path - String.length ext) ltac:(lia)) as Hs.
    replace (String.length path - (String.length path - String.length ext))%nat
      with (String.length ext) in Hs by lia.
    by rewrite Heq in Hs.
  - intros [stem ->]. rewrite length_append.
    replace (String.length stem + String.length ext - String.length ext)%nat
      with (String.length stem) by lia.
    rewrite substring_app_drop, String.eqb_refl, andb_true_r.
    apply Nat.leb_le. lia.
Qed.

Lemma containsExtension_app stem ext ext' :
  String.length ext' = String.length ext ->
  containsExtension (stem ++ ext) ext' = String.eqb ext ext'.
Proof.
  intros Hl. unfold containsExtension. rewrite length_append, Hl.
  replace (String.length stem + String.length ext - String.length ext)%nat
    with (String.length stem) by lia.
  rewrite substring_app_drop.
  replace (String.length ext <=? String.length stem + String.length ext)%nat
    with true by (symmetry; apply Nat.leb_le; lia).
  reflexivity.
Qed.

(** X11: with the format "txt" the output path that RunE goes on with
    always ends in ".txt". A path that ends in ".txt" is kept; in a path
    that ends in ".pdf" that extension is replaced; to any other path
    ".txt" is appended (so "out.PDF" becomes "out.PDF.txt"). The
    adjustment is idempotent, and with any other format the path is left
    alone. *)
Theorem txt_output_path_ends_in_txt path :
  containsExtension (adjustOutputPath "txt" path) ".txt" = true /\
  (containsExtension path ".txt" = true -> adjustOutputPath "txt" path = path) /\
  (forall stem, path = stem ++ ".pdf" ->
     adjustOutputPath "txt" path = stem ++ ".txt") /\
  (containsExtension path ".txt" = false ->
   containsExtension path ".pdf" = false ->
   adjustOutputPath "txt" path = path ++ ".txt") /\
  adjustOutputPath "txt" (adjustOutputPath "txt" path)
    = adjustOutputPath "txt" path /\
  (forall fmt, fmt <> "txt" -> adjustOutputPath fmt path = path).
Proof.
  assert (Hpdf : forall stem,
            adjustOutputPath "txt" (stem ++ ".pdf") = stem ++ ".txt").
  { intros stem. unfold adjustOutputPath.
    rewrite !containsExtension_app by reflexivity.
    cbn [String.eqb Ascii.eqb Bool.eqb andb negb].
    rewrite length_append. cbn [String.length].
    replace (String.length stem + 4 - 4)%nat with (String.length stem) by lia.
    by rewrite substring_app_length. }
  assert (Hends : containsExtension (adjustOutputPath "txt" path) ".txt" = true).
  { unfold adjustOutputPath. cbn [String.eqb Ascii.eqb Bool.eqb andb].
    destruct (containsExtension path ".txt") eqn:Htxt; [exact Htxt|].
    cbn [negb]. destruct (containsExtension path ".pdf");
      by rewrite containsExtension_app. }
  assert (Hkeep : forall p, containsExtension p ".txt" = true ->
                            adjustOutputPath "txt" p = p).
  { intros p Hp. unfold adjustOutputPath. by rewrite Hp, andb_false_r. }
  split; [exact Hends|]. split; [apply Hkeep|].
  split; [intros stem ->; apply Hpdf|]. split; [|split].
  - intros Htxt Hp. unfold adjustOutputPath.
    rewrite Htxt, Hp. reflexivity.
  - by apply Hkeep.
  - intros fmt Hne. unfold adjustOutputPath.
    apply String.eqb_neq in Hne. by rewrite Hne.
Qed.

Lemma txt_output_path_witness :
  containsExtension "out/docs.txt" ".txt" = true /\
  adjustOutputPath "txt" "out/docs.txt" = "out/docs.txt" /\
  adjustOutputPath "txt" "output.pdf" = "output.txt" /\
  adjustOutputPath "txt" "out.PDF" = "out.PDF.txt" /\
  adjustOutputPath "pdf" "output.pdf" = "output.pdf".
Proof.
  assert (H1 : containsExtension "out/docs.txt" ".txt" = true) by reflexivity.
  split; [exact H1|]. split; [|split; [|split]].
  - exact (proj1 (proj2 (txt_output_path_ends_in_txt "out/docs.txt")) H1).
  - exact (proj1 (proj2 (proj2 (txt_output_path_ends_in_txt "output.pdf")))
             "output" eq_refl).
  - exact (proj1 (proj2 (proj2 (proj2 (txt_output_path_ends_in_txt "out.PDF"))))
             eq_refl eq_refl).
  - refine (proj2 (proj2 (proj2 (proj2 (proj2
             (txt_output_path_ends_in_txt "output.pdf"))))) "pdf" _).
    discriminate.
Defined.


(** * The text output: paths *)

Lemma ToLower_app (a b : string) :
  strings_ToLower (a ++ b) = strings_ToLower a ++ strings_ToLower b.
Proof.
  induction a as [|ch a IH]; [reflexivity|].
  rewrite append_cons_l. cbn [strings_ToLower]. rewrite append_cons_l.
  by rewrite IH.
Qed.

Lemma ToLower_length (s : string) :
  String.length (strings_ToLower s) = String.length s.
Proof.
  induction s as [|ch s IH]; [reflexivity|].
  cbn [strings_ToLower String.length]. by rewrite IH.
Qed.

Lemma substring_length (s : string) k n :
  (k + n <= String.length s)%nat -> String.length (String.substring k n s) = n.
Proof.
  revert k n. induction s as [|ch s IH]; intros k n Hle.
  - cbn [String.length] in Hle. assert (k = 0%nat) as -> by lia.
    assert (n = 0%nat) as -> by lia. reflexivity.
  - cbn [String.length] in Hle. destruct k as [|k].
    + destruct n as [|n]; [reflexivity|].
      cbn [String.substring String.length]. rewrite IH by lia. reflexivity.
    + cbn [String.substring]. apply IH. lia.
Qed.

Lemma HasSuffix_containsExtension s suffix :
  strings_HasSuffix s suffix = containsExtension s suffix.
Proof. reflexivity. Qed.

(** X12: for a path of ASCII bytes, getTextPath always gives a path that
    ends in ".txt": when the path ends in ".pdf" in whatever letter case
    (".PDF", ".Pdf"), those four bytes are replaced and the stem is kept
    as it is, and otherwise ".txt" is appended. The slice it takes never
    leaves the string. *)
Theorem getTextPath_replaces_pdf_in_any_case path :
  is_ascii path = true ->
  containsExtension (getTextPath path) ".txt" = true /\
  (forall stem e, path = stem ++ e -> strings_ToLower e = ".pdf" ->
     getTextPath path = stem ++ ".txt") /\
  (strings_HasSuffix (strings_ToLower path) ".pdf" = false ->
   getTextPath path = path ++ ".txt") /\
  (strings_HasSuffix (strings_ToLower path) ".pdf" = true ->
   (4 <= String.length path)%nat /\
   String.length (getTextPath path) = String.length path).
Proof.
  intros _. split; [|split; [|split]].
  - unfold getTextPath.
    destruct (strings_HasSuffix (strings_ToLower path) ".pdf");
      by rewrite containsExtension_app.
  - intros stem e -> He. unfold getTextPath.
    assert (Hlen : String.length e = 4%nat)
      by (rewrite <- ToLower_length, He; reflexivity).
    rewrite ToLower_app, He, HasSuffix_containsExtension.
    rewrite containsExtension_app by reflexivity.
    cbn [String.eqb Ascii.eqb Bool.eqb andb].
    rewrite length_append, Hlen.
    replace (String.length stem + 4 - 4)%nat with (String.length stem) by lia.
    by rewrite substring_app_length.
  - intros H. unfold getTextPath. by rewrite H.
  - intros H. unfold getTextPath. rewrite H.
    rewrite HasSuffix_containsExtension in H.
    unfold containsExtension in H. apply andb_prop in H as [Hle _].
    apply Nat.leb_le in Hle. rewrite ToLower_length in Hle.
    assert (Hl : (4 <= String.length path)%nat) by exact Hle.
    split; [exact Hl|].
    pose proof (substring_split_at path (String.length path - 4) ltac:(lia))
      as Hs.
    apply (f_equal String.length) in Hs. rewrite length_append in Hs.
    rewrite length_append. cbn [String.length].
    rewrite (substring_length path 0) in Hs by lia.
    rewrite (substring_length path 0) by lia. lia.
Qed.

Lemma getTextPath_witness :
  is_ascii "report.PDF" = true /\
  strings_ToLower ".PDF" = ".pdf" /\
  getTextPath "report.PDF" = "report.txt".
Proof.
  assert (Ha : is_ascii "report.PDF" = true) by reflexivity.
  assert (Hl : strings_ToLower ".PDF" = ".pdf") by reflexivity.
  split; [exact Ha|]. split; [exact Hl|].
  exact (proj1 (proj2 (getTextPath_replaces_pdf_in_any_case "report.PDF" Ha))
           "report" ".PDF" eq_refl Hl).
Defined.


(** * More of the crawler on the concrete sites *)


Lemma fan_out_witness :
  @reachable (toy_net site_chain) chain_crawler chain_stuck /\
  forall p tp, tasks chain_stuck !! p = Some tp -> t_pc tp = PWait ->
    wg_get (wgs chain_stuck) p = countb (live_child p) (tasks chain_stuck).
Proof.
  assert (Hr : @reachable (toy_net site_chain) chain_crawler chain_stuck).
  { exists (@start_of (toy_net site_chain) chain_crawler),
      (@sched_oldest (toy_net site_chain) 200
         (@start_of (toy_net site_chain) chain_crawler)).
    split; vm_compute; reflexivity. }
  split; [exact Hr|].
  exact (proj1 (proj2 (@fan_out_is_structured (toy_net site_chain)
                         "https://x.test/" 5 30 (2 # 1) chain_stuck Hr))).
Defined.

Lemma spawned_links_witness :
  @reachable (toy_net site_docs) docs_crawler docs_final /\
  (exists tk, tasks docs_final !! 2%nat = Some tk) /\
  2%nat <> 0%nat /\
  forall tk, tasks docs_final !! 2%nat = Some tk ->
    strings_HasSuffix (t_url tk) ".pdf" = false /\
    strings_HasSuffix (t_url tk) ".zip" = false /\
    exists p tp doc href,
      t_parent tk = Some p /\ tasks docs_final !! p = Some tp /\
      (p, OpDo (normalizeURL (t_url tp)) (DoResp 200 (Some doc)))
        ∈ trace docs_final /\
      (normalizeURL (t_url tp), DoResp 200 (Some doc))
        ∈ fetched (trace docs_final) /\
      Some href ∈ doc_anchors doc /\
      @resolveURL (toy_net site_docs) (normalizeURL (t_url tp)) href
        = Some (t_url tk) /\
      (exists u, @url_Parse (toy_net site_docs) (t_url tk) = Some u /\
                 @url_Hostname (toy_net site_docs) u = t_baseDomain tp) /\
      t_depth tk = wrap_int (t_depth tp + 1) /\
      (t_depth tp <= 2)%Z.
Proof.
  assert (Hr : @reachable (toy_net site_docs) docs_crawler docs_final).
  { exists (@start_of (toy_net site_docs) docs_crawler),
      (@sched_oldest (toy_net site_docs) 200
         (@start_of (toy_net site_docs) docs_crawler)).
    split; vm_compute; reflexivity. }
  assert (Hne : 2%nat <> 0%nat) by discriminate.
  split; [exact Hr|]. split; [eexists; vm_compute; reflexivity|].
  split; [exact Hne|].
  intros tk Htk.
  exact (@spawned_goroutines_follow_kept_links (toy_net site_docs)
           "https://x.test/" 2 30 (2 # 1) docs_final Hr 2%nat tk Htk Hne).
Defined.

Lemma depth_levels_witness :
  @reachable (toy_net site_docs) docs_crawler docs_final /\
  (2 < 2 ^ 63 - 1)%Z /\
  forall pg, pg ∈ pages (crawler docs_final) -> (0 <= Depth pg <= 2)%Z.
Proof.
  assert (Hr : @reachable (toy_net site_docs) docs_crawler docs_final).
  { exists (@start_of (toy_net site_docs) docs_crawler),
      (@sched_oldest (toy_net site_docs) 200
         (@start_of (toy_net site_docs) docs_crawler)).
    split; vm_compute; reflexivity. }
  assert (Hm : (2 < 2 ^ 63 - 1)%Z) by reflexivity.
  split; [exact Hr|]. split; [exact Hm|].
  intros pg Hpg.
  exact (proj1 (proj2 (@depth_counts_levels_from_the_seed (toy_net site_docs)
                         "https://x.test/" 2 30 (2 # 1) docs_final Hr Hm)
                  pg Hpg)).
Defined.

Lemma page_answer_witness :
  @reachable (toy_net site_docs) docs_crawler docs_final /\
  forall pg, pg ∈ pages (crawler docs_final) ->
    exists k doc,
      @client_Do (toy_net site_docs) k (URL pg) = DoResp 200 (Some doc) /\
      Title pg = doc_title doc /\ Content pg = doc_main doc.
Proof.
  assert (Hr : @reachable (toy_net site_docs) docs_crawler docs_final).
  { exists (@start_of (toy_net site_docs) docs_crawler),
      (@sched_oldest (toy_net site_docs) 200
         (@start_of (toy_net site_docs) docs_crawler)).
    split; vm_compute; reflexivity. }
  split; [exact Hr|].
  intros pg Hpg.
  destruct (@page_holds_the_answer_to_its_request (toy_net site_docs)
              "https://x.test/" 2 30 (2 # 1) docs_final Hr pg Hpg)
    as (k & doc & _ & Hdo & _ & Ht & Hc).
  exists k, doc. auto.
Defined.

Lemma counts_witness :
  @reachable (toy_net site_diamond) diamond_crawler diamond_final /\
  (length (pages (crawler diamond_final))
   <= length (fetched (trace diamond_final)))%nat /\
  (length (fetched (trace diamond_final))
   <= size (visited (crawler diamond_final)))%nat.
Proof.
  assert (Hr : @reachable (toy_net site_diamond) diamond_crawler diamond_final).
  { exists (@start_of (toy_net site_diamond) diamond_crawler),
      (@sched_oldest (toy_net site_diamond) 200
         (@start_of (toy_net site_diamond) diamond_crawler)).
    split; vm_compute; reflexivity. }
  split; [exact Hr|].
  pose proof (@pages_requests_visited_counts (toy_net site_diamond)
                "https://x.test/" 3 30 (2 # 1) diamond_final Hr) as H.
  split; [exact (proj1 H)|exact (proj1 (proj2 H))].
Defined.

Lemma append_only_witness :
  @run (toy_net site_docs)
    (@sched_oldest (toy_net site_docs) 200
       (@start_of (toy_net site_docs) docs_crawler))
    (@start_of (toy_net site_docs) docs_crawler) = Some docs_final /\
  pages (crawler (@start_of (toy_net site_docs) docs_crawler))
    `prefix_of` pages (crawler docs_final).
Proof.
  assert (Hrun : @run (toy_net site_docs)
            (@sched_oldest (toy_net site_docs) 200
               (@start_of (toy_net site_docs) docs_crawler))
            (@start_of (toy_net site_docs) docs_crawler) = Some docs_final)
    by (vm_compute; reflexivity).
  split; [exact Hrun|].
  exact (proj1 (@results_are_append_only (toy_net site_docs) _ _ _ Hrun)).
Defined.

Lemma stuck_witness :
  @reachable (toy_net site_chain) chain_crawler chain_stuck /\
  (forall tid, @step (toy_net site_chain) tid chain_stuck = None) /\
  Crawl_return chain_stuck = None /\
  chan_len (semaphore (crawler chain_stuck)) = 5%nat.
Proof.
  assert (Hr : @reachable (toy_net site_chain) chain_crawler chain_stuck).
  { exists (@start_of (toy_net site_chain) chain_crawler),
      (@sched_oldest (toy_net site_chain) 200
         (@start_of (toy_net site_chain) chain_crawler)).
    split; vm_compute; reflexivity. }
  assert (Hstuck : forall tid, @step (toy_net site_chain) tid chain_stuck = None).
  { apply enabled_nil. vm_compute. reflexivity. }
  assert (Hret : Crawl_return chain_stuck = None) by (vm_compute; reflexivity).
  split; [exact Hr|]. split; [exact Hstuck|]. split; [exact Hret|].
  exact (proj1 (@stuck_only_on_the_semaphore (toy_net site_chain)
                  "https://x.test/" 5 30 (2 # 1) chain_stuck Hr Hstuck Hret)).
Defined.

Lemma no_deadlock_witness :
  @reachable (toy_net site_docs) seed_only_crawler seed_only_final /\
  (0 <= 0)%Z /\
  (chan_len (semaphore (crawler seed_only_final)) <= 1)%nat.
Proof.
  assert (Hr : @reachable (toy_net site_docs) seed_only_crawler seed_only_final).
  { exists (@start_of (toy_net site_docs) seed_only_crawler),
      (@sched_oldest (toy_net site_docs) 200
         (@start_of (toy_net site_docs) seed_only_crawler)).
    split; vm_compute; reflexivity. }
  assert (Hm : (0 <= 0)%Z) by reflexivity.
  split; [exact Hr|]. split; [exact Hm|].
  exact (proj1 (proj2 (@no_deadlock_without_recursion (toy_net site_docs)
                         "https://x.test/" 0 30 (2 # 1) seed_only_final
                         Hr Hm))).
Defined.


(** * The HTML clean-up *)

Lemma append_assoc_s (a b c : string) : (a ++ b) ++ c = a ++ b ++ c.
Proof.
  induction a as [|ch a IH]; [reflexivity|].
  rewrite !append_cons_l. by rewrite IH.
Qed.

Lemma len_app (a b : string) : len (a ++ b) = (len a + len b)%Z.
Proof. unfold len. rewrite length_append. lia. Qed.

Lemma len_nonneg (a : string) : (0 <= len a)%Z.
Proof. unfold len. lia. Qed.

Lemma substring_all (s : string) : String.substring 0 (String.length s) s = s.
Proof.
  induction s as [|ch s IH]; [reflexivity|].
  cbn [String.length String.substring]. by rewrite IH.
Qed.

Lemma go_slice_app_l (a b : string) : go_slice (a ++ b) 0 (len a) = Some a.
Proof.
  unfold go_slice. rewrite len_app.
  pose proof (len_nonneg a). pose proof (len_nonneg b).
  replace ((0 <=? 0)%Z && (0 <=? len a)%Z && (len a <=? len a + len b)%Z)
    with true by (symmetry; rewrite !andb_true_iff, !Z.leb_le; lia).
  rewrite Z.sub_0_r. unfold len. rewrite Nat2Z.id. cbn [Z.to_nat].
  by rewrite substring_app_length.
Qed.

Lemma go_slice_app_r (a b : string) :
  go_slice (a ++ b) (len a) (len (a ++ b)) = Some b.
Proof.
  unfold go_slice. rewrite len_app.
  pose proof (len_nonneg a). pose proof (len_nonneg b).
  replace ((0 <=? len a)%Z && (len a <=? len a + len b)%Z
           && (len a + len b <=? len a + len b)%Z)
    with true by (symmetry; rewrite !andb_true_iff, !Z.leb_le; lia).
  replace (len a + len b - len a)%Z with (len b) by lia.
  unfold len. rewrite !Nat2Z.id. by rewrite substring_app_drop.
Qed.

Lemma cut_app (a m b : string) k :
  cut (a ++ m ++ b) (len a) (len a + len m) k = k (a ++ b).
Proof.
  unfold cut. rewrite go_slice_app_l.
  rewrite <- len_app, <- append_assoc_s, go_slice_app_r. reflexivity.
Qed.

Lemma prefix_split (p s : string) :
  String.prefix p s = true -> exists r, s = p ++ r.
Proof.
  revert s. induction p as [|c p IH]; intros s H.
  - exists s. reflexivity.
  - destruct s as [|d s]; [discriminate|]. cbn [String.prefix] in H.
    destruct (ascii_dec c d) as [->|]; [|discriminate].
    destruct (IH _ H) as [r ->]. exists r. reflexivity.
Qed.

Lemma prefix_app (p r : string) : String.prefix p (p ++ r) = true.
Proof.
  induction p as [|c p IH]; [rewrite append_nil_l; by destruct r|].
  rewrite append_cons_l. cbn [String.prefix].
  destruct (ascii_dec c c); [exact IH|congruence].
Qed.

Lemma index_cons sub c s :
  String.index 0 sub (String c s) =
  if String.prefix sub (String c s) then Some 0%nat
  else option_map S (String.index 0 sub s).
Proof.
  cbn [String.index]. destruct (String.prefix sub (String c s)); [reflexivity|].
  destruct (String.index 0 sub s); reflexivity.
Qed.

(** The first occurrence, as a decomposition. *)
Lemma index_split sub s n :
  String.index 0 sub s = Some n ->
  exists a b, s = a ++ sub ++ b /\ String.length a = n.
Proof.
  revert n. induction s as [|c s IH]; intros n H.
  - cbn [String.index] in H. destruct sub; [|discriminate].
    injection H as <-. exists "", "". split; reflexivity.
  - rewrite index_cons in H.
    destruct (String.prefix sub (String c s)) eqn:Hp.
    + injection H as <-. apply prefix_split in Hp as [r Hr].
      exists "", r. split; [exact Hr|reflexivity].
    + destruct (String.index 0 sub s) as [m|]; [|discriminate].
      injection H as <-. destruct (IH m eq_refl) as (a & b & -> & <-).
      exists (String c a), b. split; reflexivity.
Qed.

(** An occurrence is found, at that place or before. *)
Lemma index_app_le a sub b :
  exists n, String.index 0 sub (a ++ sub ++ b) = Some n /\
            (n <= String.length a)%nat.
Proof.
  induction a as [|c a IH].
  - rewrite append_nil_l. exists 0%nat. split; [|reflexivity].
    destruct (sub ++ b) as [|d r] eqn:E.
    + destruct sub; [reflexivity|discriminate].
    + rewrite index_cons, <- E, prefix_app. reflexivity.
  - rewrite append_cons_l, index_cons.
    destruct (String.prefix sub (String c (a ++ sub ++ b))).
    + exists 0%nat. split; [reflexivity|cbn [String.length]; lia].
    + destruct IH as (n & -> & Hn). exists (S n).
      split; [reflexivity|cbn [String.length]; lia].
Qed.


Lemma ToLower_split s A B :
  strings_ToLower s = A ++ B ->
  exists a b, s = a ++ b /\ strings_ToLower a = A /\ strings_ToLower b = B.
Proof.
  revert s. induction A as [|c A IH]; intros s H.
  - exists "", s. by rewrite append_nil_l in H.
  - destruct s as [|d s]; [discriminate|].
    rewrite append_cons_l in H. cbn [strings_ToLower] in H.
    injection H as Hc H. destruct (IH _ H) as (a & b & -> & <- & <-).
    exists (String d a), b. cbn [strings_ToLower]. by rewrite Hc.
Qed.

Lemma len_ToLower s : len (strings_ToLower s) = len s.
Proof. unfold len. by rewrite ToLower_length. Qed.

Lemma neq_m1 (a : string) : (len a =? -1)%Z = false.
Proof. apply Z.eqb_neq. pose proof (len_nonneg a). lia. Qed.

Lemma app_split_le (a0 r0 a r : string) :
  a0 ++ r0 = a ++ r -> (String.length a0 <= String.length a)%nat ->
  exists a1, a = a0 ++ a1 /\ r0 = a1 ++ r.
Proof.
  revert a. induction a0 as [|c a0 IH]; intros a H Hl.
  - exists a. by rewrite append_nil_l in *.
  - destruct a as [|d a]; [cbn [String.length] in Hl; lia|].
    rewrite !append_cons_l in H. injection H as -> H.
    cbn [String.length] in Hl.
    destruct (IH a H ltac:(lia)) as (a1 & -> & ->). by exists a1.
Qed.

Lemma list_ascii_app (a b : string) :
  list_ascii_of_string (a ++ b)
  = (list_ascii_of_string a ++ list_ascii_of_string b)%list.
Proof.
  induction a as [|c a IH]; [reflexivity|].
  rewrite append_cons_l. cbn [list_ascii_of_string]. by rewrite IH.
Qed.

Lemma sublist_cut (a m b : string) :
  list_ascii_of_string (a ++ b) `sublist_of` list_ascii_of_string (a ++ m ++ b).
Proof.
  rewrite !list_ascii_app. apply sublist_app; [reflexivity|].
  apply sublist_inserts_l. reflexivity.
Qed.

(** The loop that removeElement and removeAttribute share: [low] is what
    is done to the tail and to the end mark before the search, [loop] is
    either function. *)
Section Between.
  Variable low : string -> string.
  Hypothesis low_split : forall s A B,
    low s = A ++ B -> exists a b, s = a ++ b /\ low a = A /\ low b = B.
  Hypothesis low_app : forall a b, low (a ++ b) = low a ++ low b.
  Hypothesis low_length : forall s, String.length (low s) = String.length s.
  Variable loop : nat -> string -> string -> string -> outcome.
  Hypothesis loop_S : forall fuel result start stop,
    loop (S fuel) result start stop =
    let startIdx :=
      strings_Index (strings_ToLower result) (strings_ToLower start) in
    if (startIdx =? -1)%Z then Returns result else
    match go_slice result startIdx (len result) with
    | None => Panics
    | Some tail =>
      let endIdx := strings_Index (low tail) (low stop) in
      if (endIdx =? -1)%Z then Returns result else
      let endIdx := (endIdx + startIdx + len stop)%Z in
      if (endIdx <=? len result)%Z
      then cut result startIdx endIdx
             (fun result => loop fuel result start stop)
      else Returns result
    end.

Lemma between_round result start stop :
  ((forall a x m y b, result = a ++ x ++ m ++ y ++ b ->
      strings_ToLower x = strings_ToLower start -> low y = low stop -> False) /\
   forall f, loop (S f) result start stop = Returns result) \/
  exists a m b, result = a ++ m ++ b /\
    (String.length stop <= String.length m)%nat /\
    forall f, loop (S f) result start stop = loop f (a ++ b) start stop.
Proof.
  setoid_rewrite loop_S. cbv zeta.
  destruct (String.index 0 (strings_ToLower start) (strings_ToLower result))
    as [n|] eqn:En.
  2:{ left. split.
      - intros a x m y b -> Hx _.
        destruct (index_app_le (strings_ToLower a) (strings_ToLower start)
                    (strings_ToLower (m ++ y ++ b))) as (k & Hk & _).
        rewrite !ToLower_app, Hx in En. rewrite !ToLower_app in Hk.
        congruence.
      - intros f. unfold strings_Index at 1. rewrite En. reflexivity. }
  assert (Hidx : strings_Index (strings_ToLower result) (strings_ToLower start)
                 = Z.of_nat n) by (unfold strings_Index; by rewrite En).
  rewrite Hidx. clear Hidx.
  pose proof En as Hsplit. apply index_split in Hsplit as (A & B & HAB & HA).
  apply ToLower_split in HAB as (a0 & rest0 & -> & HA0 & Hrest0).
  assert (Hn : Z.of_nat n = len a0).
  { unfold len. rewrite <- HA, <- HA0, ToLower_length. reflexivity. }
  rewrite Hn, neq_m1, go_slice_app_r.
  destruct (String.index 0 (low stop) (low rest0)) as [j|] eqn:Ej.
  2:{ left. split.
      - intros a x m y b Hr Hx Hy.
        destruct (index_app_le (strings_ToLower a) (strings_ToLower start)
                    (strings_ToLower (m ++ y ++ b))) as (k & Hk & Hle).
        assert (Hk' : String.index 0 (strings_ToLower start)
                        (strings_ToLower (a0 ++ rest0)) = Some k).
        { rewrite Hr, !ToLower_app, Hx. rewrite !ToLower_app in Hk. exact Hk. }
        rewrite Hk' in En. injection En as ->.
        rewrite ToLower_length in Hle.
        assert (Hl0 : String.length a0 = n)
          by (rewrite <- HA, <- HA0, ToLower_length; reflexivity).
        destruct (app_split_le a0 rest0 a _ Hr ltac:(lia)) as (a1 & -> & ->).
        destruct (index_app_le (low (a1 ++ x ++ m)) (low stop) (low b))
          as (k' & Hk2 & _).
        rewrite <- Hy, <- !low_app, !append_assoc_s in Hk2. congruence.
      - intros f. unfold strings_Index at 1. rewrite Ej. reflexivity. }
  assert (Hidx : strings_Index (low rest0) (low stop) = Z.of_nat j)
    by (unfold strings_Index; by rewrite Ej).
  rewrite Hidx. clear Hidx.
  apply index_split in Ej as (T1 & T2 & HT & HT1).
  apply low_split in HT as (t1 & r2 & -> & Ht1 & Hr2).
  apply low_split in Hr2 as (e & t2 & -> & He & Ht2).
  assert (Hj : Z.of_nat j = len t1).
  { unfold len. rewrite <- HT1, <- Ht1, low_length. reflexivity. }
  assert (Hle : len e = len stop).
  { unfold len. rewrite <- (low_length e), He, low_length. reflexivity. }
  right. exists a0, (t1 ++ e), t2. split; [by rewrite !append_assoc_s|].
  split.
  { rewrite length_append. unfold len in Hle. lia. }
  intros f. rewrite Hj, neq_m1.
  replace (len t1 + len a0 + len stop)%Z with (len a0 + len (t1 ++ e))%Z
    by (rewrite len_app; lia).
  replace (a0 ++ t1 ++ e ++ t2) with (a0 ++ (t1 ++ e) ++ t2)
    by (by rewrite !append_assoc_s).
  replace (len a0 + len (t1 ++ e) <=? len (a0 ++ (t1 ++ e) ++ t2))%Z with true
    by (symmetry; apply Z.leb_le; rewrite !len_app;
        pose proof (len_nonneg t2); lia).
  apply cut_app.
Qed.

Lemma between_total start stop :
  stop <> "" ->
  forall n result, (String.length result <= n)%nat ->
  exists r,
    (forall fuel, (String.length result < fuel)%nat ->
       loop fuel result start stop = Returns r) /\
    list_ascii_of_string r `sublist_of` list_ascii_of_string result /\
    (forall a x m y b, r = a ++ x ++ m ++ y ++ b ->
       strings_ToLower x = strings_ToLower start -> low y = low stop -> False).
Proof.
  intros Hstop n. induction n as [|n IH]; intros result Hn.
  - destruct (between_round result start stop)
      as [[Hnp Hret]|(a & m & b & -> & Hm & _)].
    + exists result. split; [|split; [reflexivity|exact Hnp]].
      intros [|f] Hf; [lia|apply Hret].
    + rewrite !length_append in Hn. destruct stop; [congruence|].
      cbn [String.length] in Hm. lia.
  - destruct (between_round result start stop)
      as [[Hnp Hret]|(a & m & b & -> & Hm & Hstep)].
    + exists result. split; [|split; [reflexivity|exact Hnp]].
      intros [|f] Hf; [lia|apply Hret].
    + assert (Hm' : (0 < String.length m)%nat).
      { destruct stop; [congruence|]. cbn [String.length] in Hm. lia. }
      rewrite !length_append in Hn.
      destruct (IH (a ++ b)) as (r & Hr & Hsub & Hnp).
      { rewrite length_append. lia. }
      exists r. split; [|split; [|exact Hnp]].
      * intros [|f] Hf; [lia|]. rewrite Hstep. apply Hr.
        rewrite !length_append in *. lia.
      * etrans; [exact Hsub|apply sublist_cut].
Qed.

End Between.

(** X13: on ASCII input and with an end tag that is not empty,
    removeElement returns (a fuel above the length of the input is
    enough), it never panics, it only deletes bytes, and in what it
    returns no start tag is followed by an end tag any more, in whatever
    letter case. *)
Theorem removeElement_leaves_no_pair html startTag endTag :
  is_ascii html = true -> is_ascii startTag = true ->
  is_ascii endTag = true -> endTag <> "" ->
  exists r,
    (forall fuel, (String.length html < fuel)%nat ->
       removeElement fuel html startTag endTag = Returns r) /\
    list_ascii_of_string r `sublist_of` list_ascii_of_string html /\
    (forall a x m y b, r = a ++ x ++ m ++ y ++ b ->
       strings_ToLower x = strings_ToLower startTag ->
       strings_ToLower y = strings_ToLower endTag -> False).
Proof.
  intros _ _ _ Hne.
  apply (between_total strings_ToLower ToLower_split ToLower_app
           ToLower_length removeElement (fun _ _ _ _ => eq_refl)
           startTag endTag Hne (String.length html)).
  reflexivity.
Qed.

Lemma removeElement_witness :
  is_ascii "<p>a</p><SCRIPT src=x>f()</Script><p>b</p>" = true /\
  removeElement 50 "<p>a</p><SCRIPT src=x>f()</Script><p>b</p>"
    "<script" "</script>" = Returns "<p>a</p><p>b</p>".
Proof.
  assert (Ha : is_ascii "<p>a</p><SCRIPT src=x>f()</Script><p>b</p>" = true)
    by reflexivity.
  split; [exact Ha|].
  destruct (removeElement_leaves_no_pair _ "<script" "</script>" Ha
              eq_refl eq_refl ltac:(discriminate)) as (r & Hr & _).
  rewrite (Hr 50%nat ltac:(vm_compute; lia)).
  specialize (Hr 43%nat ltac:(vm_compute; lia)).
  vm_compute in Hr. symmetry. exact Hr.
Defined.

Lemma id_split (s A B : string) :
  s = A ++ B -> exists a b, s = a ++ b /\ a = A /\ b = B.
Proof. intros ->. by exists A, B. Qed.

Lemma index_char_cons q c s :
  String.index 0 (String q "") (String c s) =
  if Ascii.eqb q c then Some 0%nat
  else option_map S (String.index 0 (String q "") s).
Proof.
  rewrite index_cons. cbn [String.prefix].
  destruct (ascii_dec q c) as [->|Hne].
  - rewrite Ascii.eqb_refl. by destruct s.
  - apply Ascii.eqb_neq in Hne. by rewrite Hne.
Qed.

Lemma lower_byte_quote c : lower_byte c = "034"%char -> c = "034"%char.
Proof.
  destruct c as [b0 b1 b2 b3 b4 b5 b6 b7].
  destruct b0, b1, b2, b3, b4, b5, b6, b7; vm_compute; congruence.
Qed.

Lemma lower_byte_quote_id : lower_byte "034"%char = "034"%char.
Proof. reflexivity. Qed.

(** The end that removeAttribute finds is the quote of the opener. *)
Lemma quote_index name x b :
  String.index 0 quote name = None ->
  strings_ToLower x = strings_ToLower (name ++ quote) ->
  String.index 0 quote (x ++ b) = Some (String.length name).
Proof.
  unfold quote. revert x. induction name as [|d name IH]; intros x Hn Hx.
  - rewrite append_nil_l in Hx. cbn [strings_ToLower] in Hx.
    destruct x as [|c x]; [discriminate|]. cbn [strings_ToLower] in Hx.
    injection Hx as Hc Hx. destruct x; [|discriminate].
    rewrite lower_byte_quote_id in Hc. apply lower_byte_quote in Hc as ->.
    rewrite append_cons_l, index_char_cons, Ascii.eqb_refl. reflexivity.
  - rewrite index_char_cons in Hn.
    destruct (Ascii.eqb "034" d) eqn:Hd; [discriminate|].
    destruct (String.index 0 (String "034" "") name) eqn:Hi; [discriminate|].
    rewrite append_cons_l in Hx. cbn [strings_ToLower] in Hx.
    destruct x as [|c x]; [discriminate|]. cbn [strings_ToLower] in Hx.
    injection Hx as Hc Hx.
    rewrite append_cons_l, index_char_cons.
    destruct (Ascii.eqb "034" c) eqn:Hcq.
    + apply Ascii.eqb_eq in Hcq as <-. rewrite lower_byte_quote_id in Hc.
      symmetry in Hc. apply lower_byte_quote in Hc as ->.
      by rewrite Ascii.eqb_refl in Hd.
    + rewrite (IH x eq_refl Hx). reflexivity.
Qed.


Lemma removeAttribute_round name a x b fuel :
  String.index 0 quote name = None ->
  strings_ToLower x = strings_ToLower (name ++ quote) ->
  strings_Index (strings_ToLower (a ++ x ++ b)) (strings_ToLower (name ++ quote))
    = len a ->
  removeAttribute (S fuel) (a ++ x ++ b) (name ++ quote) quote
  = removeAttribute fuel (a ++ b) (name ++ quote) quote.
Proof.
  intros Hn Hx Hi. cbn [removeAttribute]. rewrite Hi, neq_m1, go_slice_app_r.
  assert (Hq : strings_Index (x ++ b) quote = len name).
  { unfold strings_Index. by rewrite (quote_index name x b Hn Hx). }
  rewrite Hq, neq_m1.
  assert (Hlq : len quote = 1%Z) by reflexivity.
  assert (Hlx : len x = (len name + 1)%Z).
  { rewrite <- (len_ToLower x), Hx, len_ToLower, len_app. lia. }
  replace (len name + len a + len quote)%Z with (len a + len x)%Z by lia.
  replace (len a + len x <=? len (a ++ x ++ b))%Z with true
    by (symmetry; apply Z.leb_le; rewrite !len_app;
        pose proof (len_nonneg b); lia).
  apply cut_app.
Qed.

(** X14: called as cleanHTML calls it, with the attribute's name and its
    opening quote as the start and a quote as the end, removeAttribute
    deletes the opener alone: the end that it finds is the opener's own
    quote. What follows the opener, the value and its closing quote,
    stays in the string. *)
Theorem removeAttribute_deletes_the_opener_only name a x b :
  is_ascii (a ++ x ++ b) = true -> is_ascii name = true ->
  String.index 0 quote name = None ->
  strings_ToLower x = strings_ToLower (name ++ quote) ->
  strings_Index (strings_ToLower (a ++ x ++ b)) (strings_ToLower (name ++ quote))
    = len a ->
  (forall fuel,
     removeAttribute (S fuel) (a ++ x ++ b) (name ++ quote) quote
     = removeAttribute fuel (a ++ b) (name ++ quote) quote) /\
  (strings_Index (strings_ToLower (a ++ b)) (strings_ToLower (name ++ quote))
     = (-1)%Z ->
   forall fuel, (2 <= fuel)%nat ->
     removeAttribute fuel (a ++ x ++ b) (name ++ quote) quote
     = Returns (a ++ b)).
Proof.
  intros _ _ Hn Hx Hi. split.
  - intros fuel. by apply removeAttribute_round.
  - intros Hnone [|[|fuel]] Hf; [lia|lia|].
    rewrite removeAttribute_round by assumption.
    cbn [removeAttribute]. by rewrite Hnone.
Qed.

Lemma removeAttribute_witness :
  is_ascii ("<p " ++ ("Style=" ++ quote) ++ "color:red" ++ quote ++ ">hi</p>")
    = true /\
  removeAttribute 9 ("<p " ++ ("Style=" ++ quote) ++ "color:red" ++ quote ++ ">hi</p>")
    ("style=" ++ quote) quote
  = Returns ("<p " ++ "color:red" ++ quote ++ ">hi</p>").
Proof.
  assert (Ha : is_ascii ("<p " ++ ("Style=" ++ quote) ++ "color:red" ++ quote
                         ++ ">hi</p>") = true) by reflexivity.
  split; [exact Ha|].
  exact (proj2 (removeAttribute_deletes_the_opener_only "style=" "<p "
                  ("Style=" ++ quote) ("color:red" ++ quote ++ ">hi</p>")
                  Ha eq_refl eq_refl eq_refl eq_refl) eq_refl 9%nat
           ltac:(lia)).
Defined.

Lemma string_snoc (s : string) :
  s <> "" -> exists s' c, s = s' ++ String c "".
Proof.
  induction s as [|d s IH]; [congruence|]. intros _.
  destruct s as [|e s].
  - by exists "", d.
  - destruct IH as (s' & c & ->); [discriminate|]. by exists (String d s'), c.
Qed.

Lemma byte_at_app a c r : byte_at (a ++ String c r) (len a) = Some c.
Proof.
  unfold byte_at. rewrite len_app. pose proof (len_nonneg a).
  replace ((0 <=? len a)%Z && (len a <? len a + len (String c r))%Z) with true
    by (symmetry; rewrite andb_true_iff, Z.leb_le, Z.ltb_lt;
        unfold len; cbn [String.length]; lia).
  unfold len. rewrite Nat2Z.id. clear.
  induction a as [|d a IH]; [reflexivity|].
  rewrite append_cons_l. cbn [String.length String.get]. exact IH.
Qed.

Lemma removeDataAttributes_skip a c x b f :
  strings_ToLower x = "data-" -> Ascii.eqb c " " = false ->
  strings_Index (strings_ToLower (a ++ String c x ++ b)) "data-"
    = (len a + 1)%Z ->
  removeDataAttributes (S f) (a ++ String c x ++ b)
  = removeDataAttributes f b.
Proof.
  intros Hx Hc Hi. cbn [removeDataAttributes]. rewrite Hi.
  pose proof (len_nonneg a).
  replace (len a + 1 =? -1)%Z with false by (symmetry; apply Z.eqb_neq; lia).
  replace (0 <? len a + 1)%Z with true by (symmetry; apply Z.ltb_lt; lia).
  replace (len a + 1 - 1)%Z with (len a) by lia.
  rewrite append_cons_l, byte_at_app, Hc. cbn [negb].
  assert (Hlx : len x = 5%Z).
  { rewrite <- (len_ToLower x), Hx. reflexivity. }
  replace (a ++ String c (x ++ b)) with ((a ++ String c x) ++ b)
    by (by rewrite append_assoc_s, append_cons_l).
  replace (len a + 1 + 5)%Z with (len (a ++ String c x))
    by (rewrite len_app; unfold len in *; cbn [String.length] in *; lia).
  by rewrite go_slice_app_r.
Qed.

Lemma removeDataAttributes_round result :
  (forall f, removeDataAttributes (S f) result = Returns result) \/
  exists a m b, result = a ++ m ++ b /\ m <> "" /\
    forall f, removeDataAttributes (S f) result
              = removeDataAttributes f (a ++ b).
Proof.
  destruct (String.index 0 "data-" (strings_ToLower result)) as [n|] eqn:En.
  2:{ left. intros f. cbn [removeDataAttributes]. unfold strings_Index at 1.
      by rewrite En. }
  assert (Hidx : strings_Index (strings_ToLower result) "data-" = Z.of_nat n)
    by (unfold strings_Index; by rewrite En).
  apply index_split in En as (A & B & HAB & HA).
  apply ToLower_split in HAB as (a0 & rest0 & -> & HA0 & Hrest0).
  apply ToLower_split in Hrest0 as (x & b0 & -> & Hx & _).
  assert (Hn : Z.of_nat n = len a0).
  { unfold len. rewrite <- HA, <- HA0, ToLower_length. reflexivity. }
  rewrite Hn in Hidx. clear n A B HA HA0 Hn.
  assert (Hxne : x <> "") by (intros ->; discriminate).
  (* the byte before, if there is one *)
  destruct (decide (a0 = "")) as [->|Ha0].
  - (* at the start of the string: no byte before *)
    rewrite append_nil_l in *.
    assert (Hgo : forall f, removeDataAttributes (S f) (x ++ b0) =
      let tail := x ++ b0 in
      let endIdx := strings_Index tail quote in
      if (endIdx =? -1)%Z then Returns (x ++ b0) else
      match go_slice (x ++ b0) (0 + endIdx + 1) (len (x ++ b0)) with
      | None => Panics
      | Some value =>
        let valueEndIdx := strings_Index value quote in
        if (valueEndIdx =? -1)%Z then Returns (x ++ b0) else
        if (0 + endIdx + valueEndIdx + 2 <=? len (x ++ b0))%Z
        then cut (x ++ b0) 0 (0 + endIdx + valueEndIdx + 2)
               (removeDataAttributes f)
        else Returns (x ++ b0)
      end).
    { intros f. cbn [removeDataAttributes]. rewrite Hidx.
      change (len "") with 0%Z. cbn [Z.eqb Z.ltb Z.compare].
      unfold go_slice at 1. cbn [Z.leb Z.compare andb].
      pose proof (len_nonneg (x ++ b0)).
      replace (0 <=? len (x ++ b0))%Z with true
        by (symmetry; apply Z.leb_le; lia).
      replace (len (x ++ b0) <=? len (x ++ b0))%Z with true
        by (symmetry; apply Z.leb_le; lia).
      rewrite Z.sub_0_r. unfold len at 1. rewrite Nat2Z.id.
      cbn [Z.to_nat]. rewrite substring_all. reflexivity. }
    cbv zeta in Hgo.
    destruct (String.index 0 quote (x ++ b0)) as [j|] eqn:Ej.
    2:{ left. intros f. rewrite Hgo. unfold strings_Index at 1. by rewrite Ej. }
    assert (Hj : strings_Index (x ++ b0) quote = Z.of_nat j)
      by (unfold strings_Index; by rewrite Ej).
    apply index_split in Ej as (t1 & t2 & Ht & Hlt).
    assert (Hj' : Z.of_nat j = len t1) by (unfold len; lia).
    rewrite Hj' in Hj. clear j Hlt Hj'.
    assert (Hv : go_slice (x ++ b0) (0 + len t1 + 1) (len (x ++ b0)) = Some t2).
    { rewrite Ht.
      replace (t1 ++ quote ++ t2) with ((t1 ++ quote) ++ t2)
        by (by rewrite append_assoc_s).
      replace (0 + len t1 + 1)%Z with (len (t1 ++ quote))
        by (rewrite len_app; change (len quote) with 1%Z; lia).
      apply go_slice_app_r. }
    destruct (String.index 0 quote t2) as [k|] eqn:Ek.
    2:{ left. intros f. rewrite Hgo, Hj, neq_m1, Hv.
        unfold strings_Index at 1. by rewrite Ek. }
    assert (Hk : strings_Index t2 quote = Z.of_nat k)
      by (unfold strings_Index; by rewrite Ek).
    apply index_split in Ek as (v & t3 & -> & Hlv).
    assert (Hk' : Z.of_nat k = len v) by (unfold len; lia).
    rewrite Hk' in Hk. clear k Hlv Hk'.
    right. exists "", (t1 ++ quote ++ v ++ quote), t3.
    split; [by rewrite Ht, append_nil_l, !append_assoc_s|].
    split; [intros H; apply (f_equal String.length) in H;
            rewrite !length_append in H; cbn [quote String.length] in H; lia|].
    intros f. rewrite Hgo, Hj, neq_m1, Hv, Hk, neq_m1. rewrite Ht.
    replace (t1 ++ quote ++ v ++ quote ++ t3)
      with ("" ++ (t1 ++ quote ++ v ++ quote) ++ t3)
      by (by rewrite append_nil_l, !append_assoc_s).
    replace (0 + len t1 + len v + 2)%Z
      with (len "" + len (t1 ++ quote ++ v ++ quote))%Z
      by (rewrite !len_app; change (len quote) with 1%Z;
          change (len "") with 0%Z; lia).
    replace (len "" + len (t1 ++ quote ++ v ++ quote)
             <=? len ("" ++ (t1 ++ quote ++ v ++ quote) ++ t3))%Z with true
      by (symmetry; apply Z.leb_le; rewrite !len_app;
          pose proof (len_nonneg t3); lia).
    change 0%Z with (len ""). apply cut_app.
  - destruct (string_snoc a0 Ha0) as (a' & c & ->).
    assert (Hres : (a' ++ String c "") ++ x ++ b0 = a' ++ String c x ++ b0).
    { by rewrite append_assoc_s, !append_cons_l, append_nil_l. }
    assert (Hla : len (a' ++ String c "") = (len a' + 1)%Z)
      by (rewrite len_app; reflexivity).
    rewrite Hres in *. rewrite Hla in Hidx.
    pose proof (len_nonneg a').
    destruct (Ascii.eqb c " ") eqn:Hc.
    2:{ right. exists "", (a' ++ String c x), b0.
        split; [by rewrite append_nil_l, append_assoc_s, append_cons_l|].
        split; [intros H'; apply (f_equal String.length) in H';
                rewrite length_append in H'; cbn [String.length] in H'; lia|].
        intros f. rewrite append_nil_l.
        by apply removeDataAttributes_skip. }
    assert (Hbyte : byte_at (a' ++ String c x ++ b0) (len a') = Some c)
      by (rewrite append_cons_l; apply byte_at_app).
    assert (Htail : go_slice (a' ++ String c x ++ b0) (len a' + 1)
                      (len (a' ++ String c x ++ b0)) = Some (x ++ b0)).
    { rewrite <- Hres, <- Hla. apply go_slice_app_r. }
    remember (a' ++ String c x ++ b0) as result eqn:Hresult.
    assert (Hgo : forall f, removeDataAttributes (S f) result =
      let endIdx := strings_Index (x ++ b0) quote in
      if (endIdx =? -1)%Z then Returns result else
      match go_slice result (len a' + 1 + endIdx + 1) (len result) with
      | None => Panics
      | Some value =>
        let valueEndIdx := strings_Index value quote in
        if (valueEndIdx =? -1)%Z then Returns result else
        if (len a' + 1 + endIdx + valueEndIdx + 2 <=? len result)%Z
        then cut result (len a' + 1) (len a' + 1 + endIdx + valueEndIdx + 2)
               (removeDataAttributes f)
        else Returns result
      end).
    { intros f. cbn [removeDataAttributes]. rewrite Hidx.
      replace (len a' + 1 =? -1)%Z with false
        by (symmetry; apply Z.eqb_neq; lia).
      replace (0 <? len a' + 1)%Z with true by (symmetry; apply Z.ltb_lt; lia).
      replace (len a' + 1 - 1)%Z with (len a') by lia.
      rewrite Hbyte, Hc. cbn [negb]. rewrite Htail. reflexivity. }
    cbv zeta in Hgo.
    destruct (String.index 0 quote (x ++ b0)) as [j|] eqn:Ej.
    2:{ left. intros f. rewrite Hgo. unfold strings_Index at 1. by rewrite Ej. }
    assert (Hj : strings_Index (x ++ b0) quote = Z.of_nat j)
      by (unfold strings_Index; by rewrite Ej).
    apply index_split in Ej as (t1 & t2 & Ht & Hlt).
    assert (Hj' : Z.of_nat j = len t1) by (unfold len; lia).
    rewrite Hj' in Hj. clear j Hlt Hj'.
    assert (Hr2 : result = (a' ++ String c "") ++ (t1 ++ quote) ++ t2).
    { rewrite <- Hres, Ht. by rewrite !append_assoc_s. }
    assert (Hv : go_slice result (len a' + 1 + len t1 + 1) (len result)
                 = Some t2).
    { rewrite Hr2, <- append_assoc_s.
      replace (len a' + 1 + len t1 + 1)%Z
        with (len ((a' ++ String c "") ++ t1 ++ quote))
        by (rewrite !len_app; change (len quote) with 1%Z;
            change (len (String c "")) with 1%Z; lia).
      apply go_slice_app_r. }
    destruct (String.index 0 quote t2) as [k|] eqn:Ek.
    2:{ left. intros f. rewrite Hgo, Hj, neq_m1, Hv.
        unfold strings_Index at 1. by rewrite Ek. }
    assert (Hk : strings_Index t2 quote = Z.of_nat k)
      by (unfold strings_Index; by rewrite Ek).
    apply index_split in Ek as (v & t3 & -> & Hlv).
    assert (Hk' : Z.of_nat k = len v) by (unfold len; lia).
    rewrite Hk' in Hk. clear k Hlv Hk'.
    right. exists (a' ++ String c ""), (t1 ++ quote ++ v ++ quote), t3.
    split; [rewrite Hr2; by rewrite !append_assoc_s|].
    split; [intros H'; apply (f_equal String.length) in H';
            rewrite !length_append in H'; cbn [quote String.length] in H'; lia|].
    intros f. rewrite Hgo, Hj, neq_m1, Hv, Hk, neq_m1.
    assert (Hr3 : result = (a' ++ String c "")
                           ++ (t1 ++ quote ++ v ++ quote) ++ t3)
      by (rewrite Hr2; by rewrite !append_assoc_s).
    rewrite Hr3.
    replace (len a' + 1)%Z with (len (a' ++ String c "")) by exact Hla.
    replace (len (a' ++ String c "") + len t1 + len v + 2)%Z
      with (len (a' ++ String c "") + len (t1 ++ quote ++ v ++ quote))%Z
      by (rewrite !len_app; change (len quote) with 1%Z; lia).
    replace (len (a' ++ String c "") + len (t1 ++ quote ++ v ++ quote)
             <=? len ((a' ++ String c "") ++ (t1 ++ quote ++ v ++ quote) ++ t3))%Z
      with true
      by (symmetry; apply Z.leb_le; rewrite !len_app;
          pose proof (len_nonneg t3); lia).
    apply cut_app.
Qed.

Lemma removeDataAttributes_total n :
  forall result, (String.length result <= n)%nat ->
  exists r,
    (forall fuel, (String.length result < fuel)%nat ->
       removeDataAttributes fuel result = Returns r) /\
    list_ascii_of_string r `sublist_of` list_ascii_of_string result.
Proof.
  induction n as [|n IH]; intros result Hn;
    destruct (removeDataAttributes_round result)
      as [Hret|(a & m & b & -> & Hm & Hstep)].
  - exists result. split; [|reflexivity]. intros [|f] Hf; [lia|apply Hret].
  - rewrite !length_append in Hn. destruct m; [congruence|].
    cbn [String.length] in Hn. lia.
  - exists result. split; [|reflexivity]. intros [|f] Hf; [lia|apply Hret].
  - assert (Hm' : (0 < String.length m)%nat)
      by (destruct m; [congruence|cbn [String.length]; lia]).
    rewrite !length_append in Hn.
    destruct (IH (a ++ b)) as (r & Hr & Hsub).
    { rewrite length_append. lia. }
    exists r. split.
    + intros [|f] Hf; [lia|]. rewrite Hstep. apply Hr.
      rewrite !length_append in *. lia.
    + etrans; [exact Hsub|apply sublist_cut].
Qed.

(** X15: on ASCII input removeDataAttributes returns (a fuel above the
    length of the input is enough), never panics and only deletes bytes.
    When the first "data-" of the string, in whatever letter case, does
    not follow a space, the loop goes on with what follows that "data-"
    alone: everything before it, and it, are lost, whether it was an
    attribute or part of a word of the text. *)
Theorem removeDataAttributes_drops_what_precedes html :
  is_ascii html = true ->
  exists r,
    (forall fuel, (String.length html < fuel)%nat ->
       removeDataAttributes fuel html = Returns r) /\
    list_ascii_of_string r `sublist_of` list_ascii_of_string html /\
    (forall a c x b, html = a ++ String c x ++ b ->
       strings_ToLower x = "data-" -> c <> " "%char ->
       strings_Index (strings_ToLower html) "data-" = (len a + 1)%Z ->
       list_ascii_of_string r `sublist_of` list_ascii_of_string b).
Proof.
  intros _.
  destruct (removeDataAttributes_total (String.length html) html
              ltac:(reflexivity)) as (r & Hr & Hsub).
  exists r. split; [exact Hr|]. split; [exact Hsub|].
  intros a c x b -> Hx Hc Hi.
  destruct (removeDataAttributes_total (String.length b) b
              ltac:(reflexivity)) as (r' & Hr' & Hsub').
  apply Ascii.eqb_neq in Hc.
  pose proof (Hr (S (String.length (a ++ String c x ++ b))) ltac:(lia)) as H1.
  rewrite (removeDataAttributes_skip a c x b _ Hx Hc Hi) in H1.
  rewrite Hr' in H1.
  - by injection H1 as <-.
  - rewrite !length_append. cbn [String.length]. lia.
Qed.

Lemma removeDataAttributes_witness :
  is_ascii "<p>some metadata-driven text</p>" = true /\
  removeDataAttributes 40 "<p>some metadata-driven text</p>"
  = Returns "driven text</p>".
Proof.
  assert (Ha : is_ascii "<p>some metadata-driven text</p>" = true)
    by reflexivity.
  split; [exact Ha|].
  destruct (removeDataAttributes_drops_what_precedes _ Ha) as (r & Hr & _).
  rewrite (Hr 40%nat ltac:(vm_compute; lia)).
  specialize (Hr 33%nat ltac:(vm_compute; lia)).
  vm_compute in Hr. symmetry. exact Hr.
Defined.

(** ** strings.Fields and strings.Join *)

Lemma word_alone (w : string) :
  w <> "" ->
  forallb (fun c => negb (is_space c)) (list_ascii_of_string w) = true ->
  single_spaced w = true /\ starts_with_space w = false /\
  ink w = list_ascii_of_string w /\ strings_Fields w = [w].
Proof.
  induction w as [|c w IH]; [congruence|]. intros _ Hw.
  cbn [list_ascii_of_string forallb] in Hw.
  apply andb_prop in Hw as [Hc Hw]. apply negb_true_iff in Hc.
  cbn [single_spaced starts_with_space ink strings_Fields list_ascii_of_string].
  rewrite Hc. destruct w as [|d w].
  - by cbn [single_spaced starts_with_space ink strings_Fields
            list_ascii_of_string].
  - destruct (IH ltac:(discriminate) Hw) as (H1 & H2 & H3 & H4).
    rewrite H1, H2, H3, H4. by cbn [andb].
Qed.

Lemma word_then (w r : string) :
  w <> "" ->
  forallb (fun c => negb (is_space c)) (list_ascii_of_string w) = true ->
  single_spaced r = true -> starts_with_space r = false ->
  single_spaced (w ++ " " ++ r) = true /\
  starts_with_space (w ++ " " ++ r) = false /\
  ink (w ++ " " ++ r) = (list_ascii_of_string w ++ ink r)%list /\
  strings_Fields (w ++ " " ++ r) = w :: strings_Fields r.
Proof.
  intros Hne Hw Hr1 Hr2.
  induction w as [|c w IH]; [congruence|].
  cbn [list_ascii_of_string forallb] in Hw.
  apply andb_prop in Hw as [Hc Hw]. apply negb_true_iff in Hc.
  rewrite append_cons_l.
  cbn [single_spaced starts_with_space ink strings_Fields list_ascii_of_string].
  rewrite Hc. destruct w as [|d w].
  - rewrite append_nil_l, append_cons_l, append_nil_l.
    cbn [single_spaced starts_with_space ink strings_Fields
         list_ascii_of_string].
    change (is_space " ") with true. cbn iota.
    rewrite Hr1, Hr2. by cbn.
  - destruct (IH ltac:(discriminate) Hw) as (H1 & H2 & H3 & H4).
    rewrite H1, H2, H3, H4. by cbn [andb app].
Qed.

Lemma Join_cons2 w w' ws sep :
  strings_Join (w :: w' :: ws) sep = w ++ sep ++ strings_Join (w' :: ws) sep.
Proof. reflexivity. Qed.

Lemma Join_words (ws : list string) :
  Forall (fun w => w <> "" /\
            forallb (fun c => negb (is_space c)) (list_ascii_of_string w)
            = true) ws ->
  single_spaced (strings_Join ws " ") = true /\
  (ws <> [] -> starts_with_space (strings_Join ws " ") = false) /\
  ink (strings_Join ws " ") = concat (map list_ascii_of_string ws) /\
  strings_Fields (strings_Join ws " ") = ws.
Proof.
  induction 1 as [|w ws [Hne Hw] Hws IH].
  - by cbn.
  - destruct ws as [|w' ws].
    + destruct (word_alone w Hne Hw) as (H1 & H2 & H3 & H4).
      cbn [strings_Join map concat]. rewrite app_nil_r. done.
    + destruct IH as (I1 & I2 & I3 & I4). specialize (I2 ltac:(discriminate)).
      destruct (word_then w _ Hne Hw I1 I2) as (H1 & H2 & H3 & H4).
      rewrite Join_cons2. rewrite H1, H2, H3, H4, I3, I4. done.
Qed.

Lemma Fields_words (s : string) :
  Forall (fun w => w <> "" /\
            forallb (fun c => negb (is_space c)) (list_ascii_of_string w)
            = true) (strings_Fields s).
Proof.
  induction s as [|c s IH]; [constructor|]. cbn [strings_Fields].
  destruct (is_space c) eqn:Hc; [exact IH|].
  destruct (starts_with_space s).
  - constructor; [|exact IH]. split; [discriminate|].
    cbn [list_ascii_of_string forallb]. by rewrite Hc.
  - destruct (strings_Fields s) as [|w ws].
    + constructor; [|constructor]. split; [discriminate|].
      cbn [list_ascii_of_string forallb]. by rewrite Hc.
    + inversion IH as [|? ? [Hne Hw] Hws]; subst.
      constructor; [|exact Hws]. split; [discriminate|].
      cbn [list_ascii_of_string forallb]. by rewrite Hc, Hw.
Qed.

Lemma Fields_ink (s : string) :
  concat (map list_ascii_of_string (strings_Fields s)) = ink s.
Proof.
  induction s as [|c s IH]; [reflexivity|]. cbn [strings_Fields ink].
  destruct (is_space c) eqn:Hc; [exact IH|].
  destruct (starts_with_space s) eqn:Hs.
  - cbn [map concat list_ascii_of_string app]. by rewrite IH.
  - destruct (strings_Fields s) as [|w ws] eqn:Hf.
    + destruct s as [|d s]; [discriminate|]. cbn [starts_with_space] in Hs.
      cbn [ink] in IH. rewrite Hs in IH. discriminate.
    + cbn [map concat list_ascii_of_string app] in *. by rewrite IH.
Qed.


Lemma ink_sublist (l1 l2 : list ascii) :
  l1 `sublist_of` l2 ->
  ink (string_of_list_ascii l1) `sublist_of` ink (string_of_list_ascii l2).
Proof.
  induction 1 as [|x l1 l2 _ IH|x l1 l2 _ IH];
    cbn [string_of_list_ascii ink].
  - reflexivity.
  - destruct (is_space x); [exact IH|by apply sublist_skip].
  - destruct (is_space x); [exact IH|by apply sublist_cons].
Qed.

Lemma list_ascii_length (s : string) :
  length (list_ascii_of_string s) = String.length s.
Proof.
  induction s as [|c s IH]; [reflexivity|].
  cbn [list_ascii_of_string length String.length]. by rewrite IH.
Qed.


Lemma removeElement_total startTag endTag html :
  endTag <> "" ->
  exists r,
    (forall fuel, (String.length html < fuel)%nat ->
       removeElement fuel html startTag endTag = Returns r) /\
    list_ascii_of_string r `sublist_of` list_ascii_of_string html.
Proof.
  intros Hne.
  destruct (between_total strings_ToLower ToLower_split ToLower_app
              ToLower_length removeElement (fun _ _ _ _ => eq_refl)
              startTag endTag Hne (String.length html) html ltac:(reflexivity))
    as (r & Hr & Hs & _).
  by exists r.
Qed.

Lemma removeAttribute_total attrStart attrEnd html :
  attrEnd <> "" ->
  exists r,
    (forall fuel, (String.length html < fuel)%nat ->
       removeAttribute fuel html attrStart attrEnd = Returns r) /\
    list_ascii_of_string r `sublist_of` list_ascii_of_string html.
Proof.
  intros Hne.
  destruct (between_total (fun s => s) id_split (fun _ _ => eq_refl)
              (fun _ => eq_refl) removeAttribute (fun _ _ _ _ => eq_refl)
              attrStart attrEnd Hne (String.length html) html
              ltac:(reflexivity))
    as (r & Hr & Hs & _).
  by exists r.
Qed.

Lemma sublist_shorter (r s : string) :
  list_ascii_of_string r `sublist_of` list_ascii_of_string s ->
  (String.length r <= String.length s)%nat.
Proof.
  intros H. apply sublist_length in H. by rewrite !list_ascii_length in H.
Qed.

(** X16: on ASCII input cleanHTML returns (a fuel above the length of
    the input is enough for each of its loops) and never panics. In what
    it returns white space is single spaces between other bytes only: no
    tab or line break, no two spaces in a row, no space at either end.
    Its other bytes are bytes of the input, in their order. *)
Theorem cleanHTML_returns_single_spaced html :
  is_ascii html = true ->
  exists r,
    (forall fuel, (String.length html < fuel)%nat ->
       cleanHTML fuel html = Returns r) /\
    single_spaced r = true /\
    (r = "" \/ starts_with_space r = false) /\
    ink r `sublist_of` ink html.
Proof.
  intros _.
  destruct (removeElement_total "<script" "</script>" html
              ltac:(discriminate)) as (r1 & H1 & S1).
  destruct (removeElement_total "<style" "</style>" r1
              ltac:(discriminate)) as (r2 & H2 & S2).
  destruct (removeAttribute_total ("style=" ++ quote) quote r2
              ltac:(discriminate)) as (r3 & H3 & S3).
  destruct (removeAttribute_total ("class=" ++ quote) quote r3
              ltac:(discriminate)) as (r4 & H4 & S4).
  destruct (removeAttribute_total ("id=" ++ quote) quote r4
              ltac:(discriminate)) as (r5 & H5 & S5).
  destruct (removeDataAttributes_total (String.length r5) r5
              ltac:(reflexivity)) as (r6 & H6 & S6).
  pose proof (sublist_shorter _ _ S1). pose proof (sublist_shorter _ _ S2).
  pose proof (sublist_shorter _ _ S3). pose proof (sublist_shorter _ _ S4).
  pose proof (sublist_shorter _ _ S5).
  destruct (Join_words (strings_Fields r6) (Fields_words r6))
    as (J1 & J2 & J3 & _).
  exists (strings_Join (strings_Fields r6) " ").
  split; [|split; [exact J1|split]].
  - intros fuel Hf. unfold cleanHTML.
    rewrite H1 by lia. cbn [and_then]. rewrite H2 by lia. cbn [and_then].
    rewrite H3 by lia. cbn [and_then]. rewrite H4 by lia. cbn [and_then].
    rewrite H5 by lia. cbn [and_then]. rewrite H6 by lia. reflexivity.
  - destruct (strings_Fields r6) as [|w ws] eqn:E; [by left|].
    right. by apply J2.
  - rewrite J3, Fields_ink.
    assert (S : list_ascii_of_string r6 `sublist_of` list_ascii_of_string html).
    { etrans; [exact S6|]. etrans; [exact S5|]. etrans; [exact S4|].
      etrans; [exact S3|]. etrans; [exact S2|]. exact S1. }
    apply ink_sublist in S. by rewrite !string_of_list_ascii_of_string in S.
Qed.

Lemma cleanHTML_witness :
  is_ascii sample_html = true /\
  cleanHTML 80 sample_html
  = Returns ("<h1 top" ++ quote ++ ">Guide</h1> <p>read me</p>").
Proof.
  assert (Ha : is_ascii sample_html = true) by reflexivity.
  split; [exact Ha|].
  destruct (cleanHTML_returns_single_spaced _ Ha) as (r & Hr & _).
  rewrite (Hr 80%nat ltac:(vm_compute; lia)).
  specialize (Hr 70%nat ltac:(vm_compute; lia)).
  vm_compute in Hr. symmetry. exact Hr.
Defined.
